(** * Klondike solitaire engine: a shallow embedding of [backend/card.py],
    [backend/deck.py] and [backend/game_manager.py], with the properties of
    the game engine stated and proved over it.

    Python strings are sequences of code points; location strings are
    modelled by [string], i.e. by the code points below 256.  Python
    integers are [Z].  [Card] objects are mutable and shared between
    piles, so piles hold references into an object store. *)

From Stdlib Require Import ZArith List String Ascii Bool Lia Permutation.
From stdpp Require Import base option list functions gmap strings.

Local Open Scope Z_scope.

(** ** Python string operations used by the engine *)

Module PyStr.

(** [s.startswith(p)] *)
Definition startswith (s p : string) : bool := String.prefix p s.

(** [sub in s] *)
Fixpoint contains (sub s : string) : bool :=
  String.prefix sub s ||
  match s with
  | EmptyString => false
  | String _ s' => contains sub s'
  end.

(** [s.split(sep)] for a one-character separator; the result always has
    at least one element. *)
Fixpoint split (sep : ascii) (s : string) : list string :=
  match s with
  | EmptyString => [EmptyString]
  | String c s' =>
      if Ascii.eqb c sep then EmptyString :: split sep s'
      else match split sep s' with
           | [] => [String c EmptyString]
           | w :: ws => String c w :: ws
           end
  end.

(** [\d] on the code points below 256: the ten ASCII digits. *)
Definition is_digit (c : ascii) : bool :=
  let n := nat_of_ascii c in (48 <=? n)%nat && (n <=? 57)%nat.

(** [\w] on the code points below 256: ASCII letters, digits and the
    underscore, and the Latin-1 letters and numeric characters. *)
Definition is_word (c : ascii) : bool :=
  let n := nat_of_ascii c in
  is_digit c
  || ((65 <=? n) && (n <=? 90))%nat
  || (n =? 95)%nat
  || ((97 <=? n) && (n <=? 122))%nat
  || (n =? 170)%nat || (n =? 178)%nat || (n =? 179)%nat || (n =? 181)%nat
  || (n =? 185)%nat || (n =? 186)%nat
  || ((188 <=? n) && (n <=? 190))%nat
  || ((192 <=? n) && (n <=? 214))%nat
  || ((216 <=? n) && (n <=? 246))%nat
  || ((248 <=? n) && (n <=? 255))%nat.

(** The characters [int] strips around a number: ASCII white space and,
    below 256, the two non-ASCII white-space characters. *)
Definition is_int_space (c : ascii) : bool :=
  let n := nat_of_ascii c in
  ((9 <=? n) && (n <=? 13))%nat || (n =? 32)%nat || (n =? 133)%nat
  || (n =? 160)%nat.

Fixpoint lstrip (l : list ascii) : list ascii :=
  match l with
  | c :: l' => if is_int_space c then lstrip l' else l
  | [] => []
  end.

Definition strip (l : list ascii) : list ascii :=
  rev (lstrip (rev (lstrip l))).

Definition digit_value (c : ascii) : Z := Z.of_nat (nat_of_ascii c) - 48.

(** Decimal digits, most significant first; [None] when a character is
    not a digit. *)
Fixpoint digits (acc : Z) (l : list ascii) : option Z :=
  match l with
  | [] => Some acc
  | c :: l' => if is_digit c then digits (10 * acc + digit_value c) l' else None
  end.

(** [int(s)] in base ten for a string without underscores, as produced by
    [split('_')]; [None] stands for [ValueError]. *)
Definition int (s : string) : option Z :=
  match strip (list_ascii_of_string s) with
  | [] => None
  | c :: l =>
      if Ascii.eqb c "+" then match l with [] => None | _ => digits 0 l end
      else if Ascii.eqb c "-" then
        match l with [] => None | _ => Z.opp <$> digits 0 l end
      else digits 0 (c :: l)
  end.

End PyStr.

(** ** Regular expressions, as far as the location pattern needs them *)

Module Re.

Inductive regex : Type :=
| Void
| Eps
| Class (p : ascii → bool)
| Cat (r1 r2 : regex)
| Alt (r1 r2 : regex)
| Star (r : regex).

(** The words a regular expression denotes. *)
Inductive lang : regex → list ascii → Prop :=
| lang_eps : lang Eps []
| lang_class p c : p c = true → lang (Class p) [c]
| lang_cat r1 r2 w1 w2 : lang r1 w1 → lang r2 w2 → lang (Cat r1 r2) (w1 ++ w2)
| lang_alt_l r1 r2 w : lang r1 w → lang (Alt r1 r2) w
| lang_alt_r r1 r2 w : lang r2 w → lang (Alt r1 r2) w
| lang_star_nil r : lang (Star r) []
| lang_star_app r w1 w2 : lang r w1 → lang (Star r) w2 → lang (Star r) (w1 ++ w2).

Fixpoint nullable (r : regex) : bool :=
  match r with
  | Void => false
  | Eps => true
  | Class _ => false
  | Cat r1 r2 => nullable r1 && nullable r2
  | Alt r1 r2 => nullable r1 || nullable r2
  | Star _ => true
  end.

(** The residual of [r] after reading [c]. *)
Fixpoint deriv (c : ascii) (r : regex) : regex :=
  match r with
  | Void | Eps => Void
  | Class p => if p c then Eps else Void
  | Cat r1 r2 =>
      if nullable r1 then Alt (Cat (deriv c r1) r2) (deriv c r2)
      else Cat (deriv c r1) r2
  | Alt r1 r2 => Alt (deriv c r1) (deriv c r2)
  | Star r1 => Cat (deriv c r1) (Star r1)
  end.

Fixpoint matches (r : regex) (w : list ascii) : bool :=
  match w with
  | [] => nullable r
  | c :: w' => matches (deriv c r) w'
  end.

(** Literal text. *)
Fixpoint lit (s : string) : regex :=
  match s with
  | EmptyString => Eps
  | String c s' => Cat (Class (Ascii.eqb c)) (lit s')
  end.

(** [r+] *)
Definition plus (r : regex) : regex := Cat r (Star r).

(** [re.match('^(' r ')$', s)] without flags: [^] anchors at the start,
    which [re.match] does anyway, and [$] matches at the end of the string
    and also just before a newline that ends the string. *)
Definition fullmatch_dollar (r : regex) (s : string) : bool :=
  let w := list_ascii_of_string s in
  matches r w ||
  match rev w with
  | c :: w' => Ascii.eqb c "010" && matches r (rev w')
  | [] => false
  end.

End Re.

(** ** Cards ([backend/card.py]) *)

(** A [Card] object: [suit] and [value] are set by the constructor,
    [face_up] is reassigned by the engine. *)
Record Card : Type := mkCard {
  suit : string;
  value : Z;
  face_up : bool
}.

Definition set_face_up (b : bool) (c : Card) : Card :=
  {| suit := suit c; value := value c; face_up := b |}.

(** [Card.SUITS] (its keys). *)
Definition SUITS : list string :=
  ["hearts"; "diamonds"; "clubs"; "spades"]%string.

Inductive Exn : Type := ValueError | IndexError | KeyError.

(** The outcome of a call: a value, or a raised exception. *)
Inductive Result (A : Type) : Type :=
| Ok (a : A)
| Raise (e : Exn).
Arguments Ok {A} a.
Arguments Raise {A} e.

(** [Card.__init__] *)
Definition new_card (s : string) (v : Z) (up : bool) : Result Card :=
  if negb (bool_decide (s ∈ SUITS)) then Raise ValueError
  else if (v <? 1) || (v >? 13) then Raise ValueError
  else Ok (mkCard s v up).

(** [Card.is_red] *)
Definition is_red (c : Card) : bool :=
  bool_decide (suit c ∈ ["hearts"; "diamonds"]%string).

(** [Card.can_place_on] *)
Definition can_place_on (c : Card) (other : option Card) : bool :=
  match other with
  | None => value c =? 13
  | Some o => (value c =? value o - 1) && negb (eqb (is_red c) (is_red o))
  end.

(** [Card.to_dict]: the flat record of the three attributes, which is the
    value of the card at the time of the call. *)
Definition card_to_dict (c : Card) : Card := c.

(** [Card.__eq__]: equality on suit and value only. *)
Definition card_eq (c1 c2 : Card) : bool :=
  String.eqb (suit c1) (suit c2) && (value c1 =? value c2).

(** ** The object store *)

(** A reference to a [Card] object. *)
Definition Ref : Type := nat.

(** The [Card] objects created so far: [objects] gives the object at each
    address and the addresses from [next_ref] on are free. *)
Record Store : Type := mkStore {
  objects : Ref → Card;
  next_ref : Ref
}.

(** [card.face_up = b] through a reference: every pile holding the
    reference sees the change. *)
Definition assign_face_up (r : Ref) (b : bool) (h : Store) : Store :=
  {| objects := alter (set_face_up b) r (objects h); next_ref := next_ref h |}.

(** Allocates one object. *)
Definition alloc (c : Card) (h : Store) : Ref * Store :=
  (next_ref h,
   {| objects := <[next_ref h := c]> (objects h); next_ref := S (next_ref h) |}).

(** ** The deck ([backend/deck.py]) *)

(** A [Deck]: [deck_cards] is the private deque, front first.  [deck_id]
    and [created_at] play no part in the engine and are left out. *)
Record Deck : Type := mkDeck {
  deck_cards : list Ref;
  shuffled : bool;
  size : Z
}.

(** The inner loop of [initialize_standard_deck]: one suit, values
    [1..13]. *)
Definition add_suit (s : string) (acc : list Ref * Store) : list Ref * Store :=
  foldl (λ '(cs, h) v, let '(r, h') := alloc (mkCard s v false) h in (cs ++ [r], h'))
        acc (Z.of_nat <$> seq 1 13).

(** [Deck.initialize_standard_deck] *)
Definition initialize_standard_deck (d : Deck) (h : Store) : Deck * Store :=
  let suits := ["hearts"; "diamonds"; "clubs"; "spades"]%string in
  let '(cs, h') := foldl (λ acc s, add_suit s acc) ([], h) suits in
  ({| deck_cards := cs; shuffled := false; size := Z.of_nat (length cs) |}, h').

(** [Deck.shuffle]; [rng] is the outcome of [random.shuffle] on a list. *)
Definition shuffle (rng : list Ref → list Ref) (d : Deck) : Deck :=
  {| deck_cards := rng (deck_cards d); shuffled := true; size := size d |}.

(** [Deck.draw_card]: the front card, or [None] on an empty deck. *)
Definition draw_card (d : Deck) : option Ref * Deck :=
  match deck_cards d with
  | r :: rest =>
      (Some r, {| deck_cards := rest; shuffled := shuffled d;
                  size := Z.of_nat (length rest) |})
  | [] => (None, d)
  end.

(** [Deck.add_card] *)
Definition add_card (r : Ref) (d : Deck) : Deck :=
  let cs := deck_cards d ++ [r] in
  {| deck_cards := cs; shuffled := shuffled d; size := Z.of_nat (length cs) |}.

(** [Deck.is_empty] *)
Definition is_empty (d : Deck) : bool :=
  bool_decide (length (deck_cards d) = 0%nat).

(** ** The game engine ([backend/game_manager.py]) *)

(** A [GameManager] with the objects its piles refer to.  [stock] and
    [waste] are deques, front first; the top of a pile is its last
    element.  [game_id] plays no part in the rules and is left out. *)
Record GameManager : Type := mkGame {
  store : Store;
  deck : Deck;
  tableau : list (list Ref);
  foundations : gmap string (list Ref);
  stock : list Ref;
  waste : list Ref;
  moves_count : Z;
  game_won : bool
}.

Definition card_at (g : GameManager) (r : Ref) : Card := objects (store g) r.

Definition with_store (h : Store) (g : GameManager) : GameManager :=
  mkGame h (deck g) (tableau g) (foundations g) (stock g) (waste g)
         (moves_count g) (game_won g).
Definition with_deck (d : Deck) (g : GameManager) : GameManager :=
  mkGame (store g) d (tableau g) (foundations g) (stock g) (waste g)
         (moves_count g) (game_won g).
Definition with_tableau (t : list (list Ref)) (g : GameManager) : GameManager :=
  mkGame (store g) (deck g) t (foundations g) (stock g) (waste g)
         (moves_count g) (game_won g).
Definition with_foundations (f : gmap string (list Ref)) (g : GameManager)
  : GameManager :=
  mkGame (store g) (deck g) (tableau g) f (stock g) (waste g)
         (moves_count g) (game_won g).
Definition with_stock (s : list Ref) (g : GameManager) : GameManager :=
  mkGame (store g) (deck g) (tableau g) (foundations g) s (waste g)
         (moves_count g) (game_won g).
Definition with_waste (w : list Ref) (g : GameManager) : GameManager :=
  mkGame (store g) (deck g) (tableau g) (foundations g) (stock g) w
         (moves_count g) (game_won g).
Definition with_moves_count (n : Z) (g : GameManager) : GameManager :=
  mkGame (store g) (deck g) (tableau g) (foundations g) (stock g) (waste g)
         n (game_won g).
Definition with_game_won (b : bool) (g : GameManager) : GameManager :=
  mkGame (store g) (deck g) (tableau g) (foundations g) (stock g) (waste g)
         (moves_count g) b.

(** The four empty foundations of [__init__] and [new_game]. *)
Definition empty_foundations : gmap string (list Ref) :=
  <["hearts"%string := []]> (<["diamonds"%string := []]>
  (<["clubs"%string := []]> (<["spades"%string := []]> ∅))).

(** [GameManager.__init__], on a store [h]. *)
Definition init (h : Store) : GameManager :=
  {| store := h;
     deck := {| deck_cards := []; shuffled := false; size := 0 |};
     tableau := replicate 7 [];
     foundations := empty_foundations;
     stock := [];
     waste := [];
     moves_count := 0;
     game_won := false |}.

(** The dictionary [get_game_state] returns. *)
Record Snapshot : Type := mkSnapshot {
  snap_tableau : list (list Card);
  snap_foundations : gmap string (list Card);
  snap_stock_count : nat;
  snap_waste : list Card;
  snap_moves_count : Z;
  snap_game_won : bool
}.

(** [[card.to_dict() for card in pile]] *)
Definition pile_to_dicts (g : GameManager) (pile : list Ref) : list Card :=
  (λ r, card_to_dict (card_at g r)) <$> pile.

(** [GameManager.get_game_state] *)
Definition get_game_state (g : GameManager) : Snapshot :=
  {| snap_tableau := pile_to_dicts g <$> tableau g;
     snap_foundations := pile_to_dicts g <$> foundations g;
     snap_stock_count := length (stock g);
     snap_waste := pile_to_dicts g (waste g);
     snap_moves_count := moves_count g;
     snap_game_won := game_won g |}.

(** The messages of the result dictionaries, with the error kind each one
    reports. *)
Inductive Message : Type :=
| CartaExtraida          (* 'Carta extraída del mazo' *)
| MazoReiniciado         (* 'Mazo reiniciado' *)
| FormatoInvalido        (* 'Formato de ubicación inválido': InvalidLocation *)
| UbicacionNoEncontrada  (* 'Ubicación no encontrada': LocationNotFound *)
| OrigenVacio            (* 'No hay cartas en la ubicación origen': EmptySource *)
| IndiceInvalido         (* 'Índice de carta inválido': InvalidIndex *)
| CartaBocaAbajo         (* 'No puedes mover cartas boca abajo': FaceDownMove *)
| NoValidoFundacion      (* 'Movimiento no válido a la fundación': IllegalFoundationMove *)
| NoValidoTableau        (* 'Movimiento no válido al tableau': IllegalTableauMove *)
| MovimientoExitoso.     (* 'Movimiento exitoso' *)

(** The dictionary an operation returns. *)
Record Response : Type := mkResponse {
  success : bool;
  message : Message;
  state : Snapshot
}.

(** [return {'success': ok, 'message': m, 'state': self.get_game_state()}],
    together with the engine as the call leaves it. *)
Definition respond (ok : bool) (m : Message) (g : GameManager)
  : Response * GameManager :=
  ({| success := ok; message := m; state := get_game_state g |}, g).

(** The recycling loop of [draw_from_stock]:
    [while len(self.waste) > 0: card = self.waste.pop(); ...].
    Each round shortens the waste, so [length (waste g)] rounds suffice. *)
Fixpoint recycle (fuel : nat) (g : GameManager) : GameManager :=
  match fuel with
  | O => g
  | S fuel' =>
      match last (waste g) with
      | None => g
      | Some card =>
          let g1 := with_waste (removelast (waste g)) g in
          let g2 := with_store (assign_face_up card false (store g1)) g1 in
          recycle fuel' (with_stock (stock g2 ++ [card]) g2)
      end
  end.

(** [GameManager.draw_from_stock] *)
Definition draw_from_stock (g : GameManager) : Response * GameManager :=
  match stock g with
  | card :: rest =>
      let g1 := with_stock rest g in
      let g2 := with_store (assign_face_up card true (store g1)) g1 in
      let g3 := with_waste (waste g2 ++ [card]) g2 in
      respond true CartaExtraida (with_moves_count (moves_count g3 + 1) g3)
  | [] =>
      respond true MazoReiniciado (recycle (length (waste g)) g)
  end.

(** What [_get_pile] returns: one of the engine's own lists, so that a
    change to it is a change to the engine, or a new list built by
    [list(...)], which only the caller holds. *)
Inductive Pile : Type :=
| TableauPile (i : nat)
| FoundationPile (s : string)
| CopyPile (l : list Ref).

Global Instance Pile_eq_dec : EqDecision Pile.
Proof. solve_decision. Defined.

(** [GameManager._get_pile]; [Ok None] is the [None] it returns. *)
Definition get_pile (g : GameManager) (location : string) : Result (option Pile) :=
  if PyStr.startswith location "tableau_" then
    match PyStr.int (nth 1 (PyStr.split "_" location) EmptyString) with
    | None => Raise ValueError
    | Some index =>
        if (0 <=? index) && (index <? 7) then
          match tableau g !! Z.to_nat index with
          | Some _ => Ok (Some (TableauPile (Z.to_nat index)))
          | None => Raise IndexError
          end
        else Ok None
    end
  else if PyStr.startswith location "foundation_" then
    let suit := nth 1 (PyStr.split "_" location) EmptyString in
    match foundations g !! suit with
    | Some _ => Ok (Some (FoundationPile suit))
    | None => Ok None
    end
  else if String.eqb location "waste" then Ok (Some (CopyPile (waste g)))
  else if String.eqb location "stock" then Ok (Some (CopyPile (stock g)))
  else Ok None.

(** The cards of a pile held by the caller. *)
Definition pile_cards (g : GameManager) (p : Pile) : list Ref :=
  match p with
  | TableauPile i => default [] (tableau g !! i)
  | FoundationPile s => default [] (foundations g !! s)
  | CopyPile l => l
  end.

(** Replaces the contents of a pile in place: the engine changes when the
    pile is one of its lists, the caller's list changes otherwise. *)
Definition pile_assign (g : GameManager) (p : Pile) (l : list Ref)
  : GameManager * Pile :=
  match p with
  | TableauPile i => (with_tableau (<[i := l]> (tableau g)) g, p)
  | FoundationPile s => (with_foundations (<[s := l]> (foundations g)) g, p)
  | CopyPile _ => (g, CopyPile l)
  end.

(** [GameManager._can_move_to_foundation] *)
Definition can_move_to_foundation (g : GameManager) (card : Ref)
    (foundation_location : string) : Result bool :=
  let suit_ := nth 1 (PyStr.split "_" foundation_location) EmptyString in
  if negb (String.eqb (suit (card_at g card)) suit_) then Ok false
  else
    match foundations g !! suit_ with
    | None => Raise KeyError
    | Some foundation =>
        match last foundation with
        | None => Ok (value (card_at g card) =? 1)
        | Some top => Ok (value (card_at g card) =? value (card_at g top) + 1)
        end
    end.

(** [GameManager._can_move_to_tableau] *)
Definition can_move_to_tableau (g : GameManager) (from_pile : list Ref)
    (card_index : nat) (to_pile : list Ref) : Result bool :=
  match from_pile !! card_index with
  | None => Raise IndexError
  | Some card =>
      match last to_pile with
      | None => Ok (value (card_at g card) =? 13)
      | Some top_card => Ok (can_place_on (card_at g card) (Some (card_at g top_card)))
      end
  end.

(** [GameManager._check_win_condition] *)
Definition foundation_total (g : GameManager) : nat :=
  map_fold (λ _ foundation acc, (length foundation + acc)%nat) 0%nat (foundations g).

Definition check_win_condition (g : GameManager) : GameManager :=
  if (foundation_total g =? 52)%nat then with_game_won true g else g.

(** The location pattern of [move_card]:
    [^(tableau_\d|foundation_\w+|waste|stock)$]. *)
Definition pattern : Re.regex :=
  Re.Alt (Re.Cat (Re.lit "tableau_") (Re.Class PyStr.is_digit))
  (Re.Alt (Re.Cat (Re.lit "foundation_") (Re.plus (Re.Class PyStr.is_word)))
  (Re.Alt (Re.lit "waste") (Re.lit "stock"))).

Definition re_match (s : string) : bool := Re.fullmatch_dollar pattern s.

(** [for card in cards_to_move: to_pile.append(card)] *)
Definition append_cards (g : GameManager) (to_pile : Pile)
    (cards_to_move : list Ref) : GameManager * Pile :=
  foldl (λ '(g, p) card, pile_assign g p (pile_cards g p ++ [card]))
        (g, to_pile) cards_to_move.

(** [if len(from_pile) > 0 and not from_pile[-1].face_up:
       from_pile[-1].face_up = True] *)
Definition reveal_top (g : GameManager) (from_pile : Pile) : GameManager :=
  match last (pile_cards g from_pile) with
  | Some top =>
      if negb (face_up (card_at g top))
      then with_store (assign_face_up top true (store g)) g
      else g
  | None => g
  end.

(** The end of [move_card], common to both kinds of destination: the
    cards are appended to the destination, the card left on top of the
    source is turned face up, the move is counted and the win condition
    checked. *)
Definition complete_move (g : GameManager) (from_pile to_pile : Pile)
    (cards_to_move : list Ref) : Response * GameManager :=
  let '(g, to_pile) := append_cards g to_pile cards_to_move in
  let g := reveal_top g from_pile in
  let g := with_moves_count (moves_count g + 1) g in
  let g := check_win_condition g in
  respond true MovimientoExitoso g.

(** [GameManager.move_card]; [card_index] is [-1] when the caller leaves
    it out. *)
Definition move_card (g : GameManager) (from_location to_location : string)
    (card_index : Z) : Result (Response * GameManager) :=
  if negb (re_match from_location) || negb (re_match to_location) then
    Ok (respond false FormatoInvalido g)
  else
    match get_pile g from_location with
    | Raise e => Raise e
    | Ok from_pile =>
    match get_pile g to_location with
    | Raise e => Raise e
    | Ok to_pile =>
    match from_pile, to_pile with
    | Some from_pile, Some to_pile =>
        let from_cards := pile_cards g from_pile in
        let len := Z.of_nat (length from_cards) in
        if len =? 0 then Ok (respond false OrigenVacio g)
        else
          let card_index := if card_index =? -1 then len - 1 else card_index in
          if (card_index <? 0) || (card_index >=? len) then
            Ok (respond false IndiceInvalido g)
          else
            let i := Z.to_nat card_index in
            match from_cards !! i with
            | None => Raise IndexError
            | Some card =>
                if negb (face_up (card_at g card))
                   && negb (card_index =? len - 1) then
                  Ok (respond false CartaBocaAbajo g)
                else if PyStr.contains "foundation" to_location then
                  match can_move_to_foundation g card to_location with
                  | Raise e => Raise e
                  | Ok false => Ok (respond false NoValidoFundacion g)
                  | Ok true =>
                      (* cards_to_move = [from_pile.pop(card_index)] *)
                      let '(g1, from_pile) :=
                        pile_assign g from_pile (delete i from_cards) in
                      Ok (complete_move g1 from_pile to_pile [card])
                  end
                else
                  match can_move_to_tableau g from_cards i (pile_cards g to_pile) with
                  | Raise e => Raise e
                  | Ok false => Ok (respond false NoValidoTableau g)
                  | Ok true =>
                      (* cards_to_move = from_pile[card_index:]
                         del from_pile[card_index:] *)
                      let cards_to_move := drop i from_cards in
                      let '(g1, from_pile) :=
                        pile_assign g from_pile (take i from_cards) in
                      Ok (complete_move g1 from_pile to_pile cards_to_move)
                  end
            end
    | _, _ => Ok (respond false UbicacionNoEncontrada g)
    end
    end
    end.

(** One round of the dealing loops of [new_game], for column [col] and
    row [row]. *)
Definition deal_card (col row : nat) (g : GameManager) : GameManager :=
  let '(card, d) := draw_card (deck g) in
  let g := with_deck d g in
  match card with
  | Some card =>
      let g :=
        if (row =? col)%nat
        then with_store (assign_face_up card true (store g)) g
        else g in
      with_tableau (alter (λ pile, pile ++ [card]) col (tableau g)) g
  | None => g
  end.

(** [for col in range(7): for row in range(col + 1): ...] *)
Definition deal_tableau (g : GameManager) : GameManager :=
  foldl (λ g col, foldl (λ g row, deal_card col row g) g (seq 0 (col + 1)))
        g (seq 0 7).

(** [while not self.deck.is_empty(): ...]; each round shortens the deck,
    so as many rounds as the deck has cards suffice. *)
Fixpoint fill_stock (fuel : nat) (g : GameManager) : GameManager :=
  match fuel with
  | O => g
  | S fuel' =>
      if is_empty (deck g) then g
      else
        let '(card, d) := draw_card (deck g) in
        let g := with_deck d g in
        fill_stock fuel'
          match card with
          | Some card => with_stock (stock g ++ [card]) g
          | None => g
          end
  end.

(** [GameManager.new_game]; [rng] is the outcome of [random.shuffle]. *)
Definition new_game (rng : list Ref → list Ref) (g : GameManager)
  : Snapshot * GameManager :=
  let '(d, h) := initialize_standard_deck (deck g) (store g) in
  let d := shuffle rng d in
  let g := mkGame h d (replicate 7 []) empty_foundations [] [] 0 false in
  let g := deal_tableau g in
  let g := fill_stock (length (deck_cards (deck g))) g in
  (get_game_state g, g).

(** ** Notions used to state the properties *)

(** The call [move_card g from to card_index] selects the card [card] at
    position [i] of the source pile [from_pile]: the index is [i], or is
    left out and [i] is the last position; and the card is face up or is
    the last one of the pile. *)
Definition selects (g : GameManager) (from_pile : Pile) (card_index : Z)
    (i : nat) (card : Ref) : Prop :=
  pile_cards g from_pile !! i = Some card
  ∧ (card_index = Z.of_nat i
     ∨ (card_index = -1 ∧ S i = length (pile_cards g from_pile)))
  ∧ (face_up (card_at g card) = true ∨ S i = length (pile_cards g from_pile)).

(** The location string of tableau column [j]. *)
Definition tableau_location (j : nat) : string :=
  "tableau_" +:+ String (ascii_of_nat (48 + j)) EmptyString.

(** The location string of the foundation of suit [s]. *)
Definition foundation_location (s : string) : string := "foundation_" +:+ s.

(** Every reference held by a pile of the engine, pile after pile. *)
Definition all_cards (g : GameManager) : list Ref :=
  concat (tableau g) ++ concat (map_to_list (foundations g)).*2
  ++ stock g ++ waste g.

(** The (suit, rank) pair of a card. *)
Definition card_key (c : Card) : string * Z := (suit c, value c).

(** The 52 (suit, rank) pairs, suit by suit, ranks ascending. *)
Definition standard_keys : list (string * Z) :=
  s ← SUITS; (λ v, (s, Z.of_nat v)) <$> seq 1 13.

(** The states of a game: what [new_game] deals, and what
    [draw_from_stock] and [move_card] make of such a state. *)
Inductive reachable : GameManager → Prop :=
| reach_new_game rng g :
    (∀ l, rng l ≡ₚ l) → reachable (new_game rng g).2
| reach_draw g :
    reachable g → reachable (draw_from_stock g).2
| reach_move g from_location to_location card_index resp g' :
    reachable g →
    move_card g from_location to_location card_index = Ok (resp, g') →
    reachable g'.

(** The closed location grammar:
    [^(tableau_[0-6]|foundation_(hearts|diamonds|clubs|spades)|waste|stock)$]. *)
Definition closed_grammar : Re.regex :=
  Re.Alt (Re.Cat (Re.lit "tableau_")
            (Re.Class (λ c, (48 <=? nat_of_ascii c)%nat && (nat_of_ascii c <=? 54)%nat)))
  (Re.Alt (Re.Cat (Re.lit "foundation_")
             (Re.Alt (Re.lit "hearts") (Re.Alt (Re.lit "diamonds")
             (Re.Alt (Re.lit "clubs") (Re.lit "spades")))))
  (Re.Alt (Re.lit "waste") (Re.lit "stock"))).

Definition in_closed_grammar (s : string) : bool :=
  Re.matches closed_grammar (list_ascii_of_string s).

(** ** States used as examples *)

(** A store without objects. *)
Definition empty_store : Store :=
  {| objects := λ _, mkCard EmptyString 0 false; next_ref := 0%nat |}.

(** A shuffle that cuts the deck after 24 cards: the deal then puts the
    ace of hearts on the front of the stock. *)
Definition cut_24 (l : list Ref) : list Ref := drop 24 l ++ take 24 l.

Definition dealt_game : GameManager := (new_game cut_24 (init empty_store)).2.

Definition drawn_game : GameManager := (draw_from_stock dealt_game).2.

(** The state after a successful move, for the examples. *)
Definition after_move (g : GameManager) (from_location to_location : string)
    (card_index : Z) : GameManager :=
  match move_card g from_location to_location card_index with
  | Ok (_, g') => g'
  | Raise _ => g
  end.

(** The draw and move of the first stock card to its foundation. *)
Definition ace_moved_game : GameManager :=
  after_move drawn_game "waste" "foundation_hearts" (-1).

(** A shuffle that reverses the deck in runs of the given sizes and
    leaves the rest in place. *)
Fixpoint reverse_runs (sizes : list nat) (l : list Ref) : list Ref :=
  match sizes with
  | [] => l
  | n :: sizes' => rev (take n l) ++ reverse_runs sizes' (drop n l)
  end.

(** Reversing the runs dealt to the seven columns puts the lowest card of
    each column on top. *)
Definition column_shuffle : list Ref → list Ref := reverse_runs [1; 2; 3; 4; 5; 6; 7]%nat.

Definition column_game : GameManager := (new_game column_shuffle (init empty_store)).2.

(** A script of calls on the engine. *)
Inductive Call : Type :=
| Draw
| Move (from_location to_location : string).

Definition call (g : GameManager) (c : Call) : GameManager :=
  match c with
  | Draw => (draw_from_stock g).2
  | Move from_location to_location => after_move g from_location to_location (-1)
  end.

(** The game [column_game] played to the end: the tableau tops go to the
    foundations column by column, then each stock card is drawn and
    moved from the waste. *)
Definition winning_script : list Call :=
  [Move "tableau_0" "foundation_hearts"]
  ++ replicate 2 (Move "tableau_1" "foundation_hearts")
  ++ replicate 3 (Move "tableau_2" "foundation_hearts")
  ++ replicate 4 (Move "tableau_3" "foundation_hearts")
  ++ replicate 3 (Move "tableau_4" "foundation_hearts")
  ++ replicate 2 (Move "tableau_4" "foundation_diamonds")
  ++ replicate 6 (Move "tableau_5" "foundation_diamonds")
  ++ replicate 5 (Move "tableau_6" "foundation_diamonds")
  ++ replicate 2 (Move "tableau_6" "foundation_clubs")
  ++ concat (replicate 11 [Draw; Move "waste" "foundation_clubs"])
  ++ concat (replicate 13 [Draw; Move "waste" "foundation_spades"]).

Definition won_game : GameManager := foldl call column_game winning_script.

(** [column_game] after its first column has been emptied. *)
Definition open_column_game : GameManager :=
  call column_game (Move "tableau_0" "foundation_hearts").

(** ** Notions used to describe a deal *)

(** The cards of a standard deck in the order [initialize_standard_deck]
    creates them. *)
Definition standard_cards : list Card :=
  s ← SUITS; (λ v, mkCard s (Z.of_nat v) false) <$> seq 1 13.

(** Allocates the cards of a list one after the other. *)
Definition alloc_all (cards : list Card) (h : Store) : list Ref * Store :=
  foldl (λ '(cs, h) c, let '(r, h') := alloc c h in (cs ++ [r], h'))
        ([], h) cards.

(** The number of cards dealt before column [i]. *)
Definition column_start (i : nat) : nat := (i * (i + 1) / 2)%nat.

(** The deck positions of the cards dealt last into each column. *)
Definition top_positions : list nat := (λ i, column_start i + i)%nat <$> seq 0 7.

(** Turns the cards of a list face up. *)
Definition turn_up (rs : list Ref) (h : Store) : Store :=
  foldl (λ h r, assign_face_up r true h) h rs.

(** ** Notions used to describe the location strings *)

Definition digit_chars : list ascii :=
  ["0"; "1"; "2"; "3"; "4"; "5"; "6"; "7"; "8"; "9"]%char.

(** A string that is empty or one newline. *)
Definition newline : string := String "010"%char EmptyString.

(** [won_game] after the king of spades has been taken off its
    foundation and put on the empty first column. *)
Definition king_taken_game : GameManager :=
  call won_game (Move "foundation_spades" "tableau_0").

(** [open_column_game] after the last card of the stock, the king of
    spades, face down, has been moved onto the empty first column. *)
Definition hidden_king_game : GameManager :=
  call open_column_game (Move "stock" "tableau_0").

(** ** Notions used to state further properties of the engine *)

(** [n] calls of [draw_from_stock] in a row. *)
Definition draws (n : nat) (g : GameManager) : GameManager :=
  Nat.iter n (λ g, (draw_from_stock g).2) g.

(** A pile that is one of the engine's own lists: a tableau column or a
    foundation, as opposed to a copy of the stock or of the waste. *)
Definition engine_pile (p : Pile) : Prop :=
  match p with
  | CopyPile _ => False
  | _ => True
  end.

(** A pile that [_get_pile] can have returned: a column or a foundation
    the engine has, or a copy. *)
Definition pile_valid (g : GameManager) (p : Pile) : Prop :=
  match p with
  | TableauPile i => is_Some (tableau g !! i)
  | FoundationPile k => is_Some (foundations g !! k)
  | CopyPile _ => True
  end.

(** Every foundation holds the cards of one suit, the suit of its key,
    with the ranks 1, 2, 3, ... from the bottom up. *)
Definition foundations_in_order (g : GameManager) : Prop :=
  ∀ k pile j r,
    foundations g !! k = Some pile → pile !! j = Some r →
    card_key (card_at g r) = (k, Z.of_nat j + 1).

(** [dealt_game] after the queen of diamonds of column 0 has been moved
    onto the king of clubs of column 4. *)
Definition queen_moved_game : GameManager :=
  after_move dealt_game "tableau_0" "tableau_4" (-1).

(** Whether a pile is a copy handed out by [_get_pile] for the waste or
    the stock. *)
Definition is_copy (p : Pile) : bool :=
  match p with
  | CopyPile _ => true
  | _ => false
  end.

(** The strings that match the pattern of [move_card] and for which
    [_get_pile] returns [None] in an engine with seven columns and the
    four foundations: a column number from 7 to 9, a foundation whose
    name, up to its first underscore, is not one of the four suits, and
    [waste] or [stock] followed by a newline. *)
Definition names_no_pile (s : string) : Prop :=
  (∃ d nl, d ∈ ["7"; "8"; "9"]%char ∧ nl ∈ [EmptyString; newline]
           ∧ s = "tableau_" +:+ String d nl)
  ∨ (∃ rest, s = "foundation_" +:+ rest
             ∧ nth 0 (PyStr.split "_" rest) EmptyString ∉ SUITS)
  ∨ s = "waste" +:+ newline
  ∨ s = "stock" +:+ newline.

(** The card a call addresses: the one at [card_index], or the last card
    of the source when the index is [-1]. *)
Definition addresses (g : GameManager) (from_pile : Pile) (card_index : Z)
    (i : nat) (card : Ref) : Prop :=
  pile_cards g from_pile !! i = Some card
  ∧ (card_index = Z.of_nat i
     ∨ (card_index = -1 ∧ S i = length (pile_cards g from_pile))).

(** ** The other operations of cards and decks *)

(** An assignment to attributes of a card through a reference. *)
Definition assign_card (f : Card → Card) (r : Ref) (h : Store) : Store :=
  {| objects := alter f r (objects h); next_ref := next_ref h |}.

Definition set_suit (s : string) (c : Card) : Card :=
  {| suit := s; value := value c; face_up := face_up c |}.

Definition set_value (v : Z) (c : Card) : Card :=
  {| suit := suit c; value := v; face_up := face_up c |}.

(** [Card.flip] *)
Definition flip (r : Ref) (h : Store) : Store :=
  assign_card (λ c, set_face_up (negb (face_up c)) c) r h.

(** A card the constructor accepts. *)
Definition valid_card (c : Card) : Prop :=
  suit c ∈ SUITS ∧ 1 ≤ value c ≤ 13.

(** The dict [Card.from_dict] reads, with values of the types
    [Card.to_dict] writes; a key may be missing. *)
Record CardData : Type := mkCardData {
  data_suit : option string;
  data_value : option Z;
  data_face_up : option bool
}.

(** The dict [Card.to_dict] builds: the three keys are present. *)
Definition card_data (c : Card) : CardData :=
  {| data_suit := Some (suit (card_to_dict c));
     data_value := Some (value (card_to_dict c));
     data_face_up := Some (face_up (card_to_dict c)) |}.

(** [Card.from_dict]: [data['suit']] and [data['value']] raise [KeyError]
    when the key is missing, [data.get('face_up', False)] does not. *)
Definition card_from_dict (data : CardData) : Result Card :=
  match data_suit data with
  | None => Raise KeyError
  | Some s =>
      match data_value data with
      | None => Raise KeyError
      | Some v => new_card s v (default false (data_face_up data))
      end
  end.

(** [Deck.peek_top] *)
Definition peek_top (d : Deck) : option Ref :=
  match deck_cards d with
  | r :: _ => Some r
  | [] => None
  end.

(** [Deck.get_all_cards] *)
Definition get_all_cards (d : Deck) : list Ref := deck_cards d.

(** [Deck.__len__] *)
Definition deck_len (d : Deck) : Z := Z.of_nat (length (deck_cards d)).

(** [0 <= index < len(self.__cards)] *)
Definition in_deck (index : Z) (d : Deck) : bool :=
  (0 <=? index) && (index <? Z.of_nat (length (deck_cards d))).

(** [Deck.create_card] *)
Definition create_card (s : string) (v : Z) (up : bool) (d : Deck) (h : Store)
  : Result (Ref * Deck * Store) :=
  match new_card s v up with
  | Raise e => Raise e
  | Ok c =>
      let '(r, h') := alloc c h in
      let cs := deck_cards d ++ [r] in
      Ok (r, {| deck_cards := cs; shuffled := shuffled d;
                size := Z.of_nat (length cs) |}, h')
  end.

(** [Deck.read_card] *)
Definition read_card (index : Z) (d : Deck) : option Ref :=
  if in_deck index d then deck_cards d !! Z.to_nat index else None.

(** [Deck.update_card]; [None] stands for an argument left out. *)
Definition update_card (index : Z) (s : option string) (v : option Z)
    (up : option bool) (d : Deck) (h : Store) : bool * Store :=
  if in_deck index d then
    match deck_cards d !! Z.to_nat index with
    | Some card =>
        let h := match s with
                 | Some s => assign_card (set_suit s) card h
                 | None => h
                 end in
        let h := match v with
                 | Some v => assign_card (set_value v) card h
                 | None => h
                 end in
        let h := match up with
                 | Some b => assign_card (set_face_up b) card h
                 | None => h
                 end in
        (true, h)
    | None => (false, h)
    end
  else (false, h).

(** [Deck.delete_card] *)
Definition delete_card (index : Z) (d : Deck) : option Ref * Deck :=
  if in_deck index d then
    let cs := delete (Z.to_nat index) (deck_cards d) in
    (deck_cards d !! Z.to_nat index,
     {| deck_cards := cs; shuffled := shuffled d; size := Z.of_nat (length cs) |})
  else (None, d).

(** The dict [Deck.from_dict] reads; [deck_id] and [created_at] are left
    out as in [Deck]. *)
Record DeckData : Type := mkDeckData {
  data_shuffled : option bool;
  data_size : option Z;
  data_cards : option (list CardData)
}.

(** [Deck.to_dict] *)
Definition deck_to_dict (d : Deck) (h : Store) : DeckData :=
  {| data_shuffled := Some (shuffled d);
     data_size := Some (size d);
     data_cards := Some ((λ r, card_data (objects h r)) <$> deck_cards d) |}.

(** [for card_data in cards_data: card = Card.from_dict(card_data);
     deck.__cards.append(card)]: one new object per entry, in order. *)
Fixpoint load_cards (cards_data : list CardData) (h : Store)
  : Result (list Ref * Store) :=
  match cards_data with
  | [] => Ok ([], h)
  | data :: rest =>
      match card_from_dict data with
      | Raise e => Raise e
      | Ok c =>
          let '(r, h1) := alloc c h in
          match load_cards rest h1 with
          | Raise e => Raise e
          | Ok (rs, h2) => Ok (r :: rs, h2)
          end
      end
  end.

(** [Deck.from_dict]: [size] is taken from the dict, not from the cards. *)
Definition deck_from_dict (data : DeckData) (h : Store) : Result (Deck * Store) :=
  match load_cards (default [] (data_cards data)) h with
  | Raise e => Raise e
  | Ok (rs, h') =>
      Ok ({| deck_cards := rs;
             shuffled := default false (data_shuffled data);
             size := default 0 (data_size data) |}, h')
  end.

(** [n] calls of [draw_card] in a row, with the cards they return. *)
Fixpoint draw_cards (n : nat) (d : Deck) : list (option Ref) * Deck :=
  match n with
  | O => ([], d)
  | S n' =>
      let '(card, d1) := draw_card d in
      let '(cards, d2) := draw_cards n' d1 in
      (card :: cards, d2)
  end.

(** [add_card] for each card of a list, in order. *)
Definition add_cards (rs : list Ref) (d : Deck) : Deck :=
  foldl (λ d r, add_card r d) d rs.

(** ** Saving and loading a game *)

(** The dict [GameManager.from_dict] reads; [game_id] is left out as in
    [GameManager].  [gd_foundations] holds the items of the dict of
    foundations in the order of the dict. *)
Record GameData : Type := mkGameData {
  gd_deck : option DeckData;
  gd_tableau : option (list (list CardData));
  gd_foundations : option (list (string * list CardData));
  gd_stock : option (list CardData);
  gd_waste : option (list CardData);
  gd_moves_count : option Z;
  gd_game_won : option bool
}.

(** [[card.to_dict() for card in pile]] as a list of dicts to read. *)
Definition pile_data (h : Store) (pile : list Ref) : list CardData :=
  (λ r, card_data (objects h r)) <$> pile.

(** [GameManager.to_dict]; [keys] are the keys of [self.foundations] in
    the order of the dict. *)
Definition game_to_dict (keys : list string) (g : GameManager) : GameData :=
  {| gd_deck := Some (deck_to_dict (deck g) (store g));
     gd_tableau := Some (pile_data (store g) <$> tableau g);
     gd_foundations :=
       Some ((λ k, (k, pile_data (store g) (default [] (foundations g !! k))))
               <$> keys);
     gd_stock := Some (pile_data (store g) (stock g));
     gd_waste := Some (pile_data (store g) (waste g));
     gd_moves_count := Some (moves_count g);
     gd_game_won := Some (game_won g) |}.

(** [[[Card.from_dict(card_data) for card_data in pile] for pile in ...]] *)
Fixpoint load_piles (piles : list (list CardData)) (h : Store)
  : Result (list (list Ref) * Store) :=
  match piles with
  | [] => Ok ([], h)
  | pile :: rest =>
      match load_cards pile h with
      | Raise e => Raise e
      | Ok (rs, h1) =>
          match load_piles rest h1 with
          | Raise e => Raise e
          | Ok (ps, h2) => Ok (rs :: ps, h2)
          end
      end
  end.

(** [{suit: [Card.from_dict(card_data) for card_data in pile]
      for suit, pile in ....items()}] *)
Fixpoint load_foundations (items : list (string * list CardData))
    (acc : gmap string (list Ref)) (h : Store)
  : Result (gmap string (list Ref) * Store) :=
  match items with
  | [] => Ok (acc, h)
  | (k, pile) :: rest =>
      match load_cards pile h with
      | Raise e => Raise e
      | Ok (rs, h1) => load_foundations rest (<[k := rs]> acc) h1
      end
  end.

(** [GameManager.from_dict]; [h] holds the objects that exist when it is
    called. *)
Definition game_from_dict (data : GameData) (h : Store) : Result GameManager :=
  match
    match gd_deck data with
    | Some deck_data => deck_from_dict deck_data h
    | None => Ok ({| deck_cards := []; shuffled := false; size := 0 |}, h)
    end
  with
  | Raise e => Raise e
  | Ok (d, h) =>
      match load_piles (default (replicate 7 []) (gd_tableau data)) h with
      | Raise e => Raise e
      | Ok (t, h) =>
          match load_foundations (default [] (gd_foundations data)) ∅ h with
          | Raise e => Raise e
          | Ok (f, h) =>
              match load_cards (default [] (gd_stock data)) h with
              | Raise e => Raise e
              | Ok (s, h) =>
                  match load_cards (default [] (gd_waste data)) h with
                  | Raise e => Raise e
                  | Ok (w, h) =>
                      Ok {| store := h; deck := d; tableau := t;
                            foundations := f; stock := s; waste := w;
                            moves_count := default 0 (gd_moves_count data);
                            game_won := default false (gd_game_won data) |}
                  end
              end
          end
      end
  end.

(** A store [h'] that has the objects of [h] and possibly more. *)
Definition extends (h h' : Store) : Prop :=
  (next_ref h ≤ next_ref h')%nat
  ∧ ∀ r, (r < next_ref h)%nat → objects h' r = objects h r.

(** Every card of the engine, the deck included. *)
Definition engine_cards (g : GameManager) : list Ref :=
  deck_cards (deck g) ++ all_cards g.

Global Instance valid_card_dec c : Decision (valid_card c).
Proof. unfold valid_card. apply _. Defined.

(** The references a load creates between two stores. *)
Definition created (h h' : Store) (r : Ref) : Prop :=
  (next_ref h ≤ r < next_ref h')%nat.

(** A saved game with three empty columns and nothing else. *)
Definition three_column_data : GameData :=
  {| gd_deck := None; gd_tableau := Some [[]; []; []]; gd_foundations := None;
     gd_stock := None; gd_waste := None; gd_moves_count := None;
     gd_game_won := None |}.

(** The engine [from_dict] builds from [three_column_data]. *)
Definition three_column_game : GameManager :=
  {| store := empty_store;
     deck := {| deck_cards := []; shuffled := false; size := 0 |};
     tableau := [[]; []; []]; foundations := ∅; stock := []; waste := [];
     moves_count := 0; game_won := false |}.
(** ** The matcher decides the language *)

Module ReFacts.
Import Re.

Lemma lang_void_inv w : lang Void w → False.
Proof. inversion 1. Qed.

Lemma lang_eps_inv w : lang Eps w → w = [].
Proof. by inversion 1. Qed.

Lemma lang_class_inv p w : lang (Class p) w → ∃ c, w = [c] ∧ p c = true.
Proof. inversion 1; subst; eauto. Qed.

Lemma lang_cat_inv r1 r2 w :
  lang (Cat r1 r2) w → ∃ w1 w2, w = w1 ++ w2 ∧ lang r1 w1 ∧ lang r2 w2.
Proof. inversion 1; subst; eauto. Qed.

Lemma lang_alt_inv r1 r2 w : lang (Alt r1 r2) w → lang r1 w ∨ lang r2 w.
Proof. inversion 1; subst; auto. Qed.

Lemma nullable_lang r : nullable r = true ↔ lang r [].
Proof.
  split.
  - induction r; simpl; intros Hn; try discriminate.
    + constructor.
    + apply andb_prop in Hn as [H1 H2].
      change (@nil ascii) with (@nil ascii ++ []). constructor; auto.
    + apply orb_prop in Hn as [H|H]; [apply lang_alt_l | apply lang_alt_r]; auto.
    + constructor.
  - intros H. remember [] as w eqn:Hw. induction H; simpl; auto; try discriminate.
    + apply app_eq_nil in Hw as [-> ->]. rewrite IHlang1, IHlang2; auto.
    + rewrite IHlang; auto.
    + rewrite IHlang; auto using orb_true_r.
Qed.

Lemma deriv_sound c r : ∀ w, lang (deriv c r) w → lang r (c :: w).
Proof.
  induction r; simpl; intros w H.
  - by apply lang_void_inv in H.
  - by apply lang_void_inv in H.
  - destruct (p c) eqn:Hp; [|by apply lang_void_inv in H].
    apply lang_eps_inv in H as ->. by constructor.
  - destruct (nullable r1) eqn:Hn.
    + apply lang_alt_inv in H as [H|H].
      * apply lang_cat_inv in H as (w1 & w2 & -> & H1 & H2).
        change (c :: w1 ++ w2) with ((c :: w1) ++ w2). constructor; auto.
      * change (c :: w) with ([] ++ c :: w). constructor; auto.
        by apply nullable_lang.
    + apply lang_cat_inv in H as (w1 & w2 & -> & H1 & H2).
      change (c :: w1 ++ w2) with ((c :: w1) ++ w2). constructor; auto.
  - apply lang_alt_inv in H as [H|H]; [apply lang_alt_l | apply lang_alt_r]; auto.
  - apply lang_cat_inv in H as (w1 & w2 & -> & H1 & H2).
    change (c :: w1 ++ w2) with ((c :: w1) ++ w2). constructor; auto.
Qed.

Lemma deriv_complete c r w0 : lang r w0 → ∀ u, w0 = c :: u → lang (deriv c r) u.
Proof.
  induction 1; intros u Hw; simpl; try discriminate.
  - injection Hw as -> <-. rewrite H. constructor.
  - destruct w1 as [|c1 w1]; simpl in Hw.
    + apply nullable_lang in H. rewrite H. apply lang_alt_r; auto.
    + injection Hw as -> <-.
      destruct (nullable r1); [apply lang_alt_l|]; constructor; auto.
  - apply lang_alt_l; auto.
  - apply lang_alt_r; auto.
  - destruct w1 as [|c1 w1]; simpl in Hw.
    + apply (IHlang2 _ Hw).
    + injection Hw as -> <-. constructor; auto.
Qed.

Lemma matches_lang w : ∀ r, matches r w = true ↔ lang r w.
Proof.
  induction w as [|c w IH]; intros r; simpl.
  - apply nullable_lang.
  - rewrite IH. split; [apply deriv_sound | intros H; by eapply deriv_complete].
Qed.

Lemma lang_lit s w : lang (lit s) w ↔ w = list_ascii_of_string s.
Proof.
  revert w. induction s as [|c s IH]; intros w; simpl.
  - split; [apply lang_eps_inv | intros ->; constructor].
  - split.
    + intros H. apply lang_cat_inv in H as (w1 & w2 & -> & H1 & H2).
      apply lang_class_inv in H1 as (c' & -> & Hc).
      apply Ascii.eqb_eq in Hc as ->. apply IH in H2 as ->. done.
    + intros ->. change (c :: list_ascii_of_string s) with ([c] ++ list_ascii_of_string s).
      constructor; [constructor; apply Ascii.eqb_refl | by apply IH].
Qed.

Lemma lang_star_class p w : lang (Star (Class p)) w ↔ forallb p w = true.
Proof.
  split.
  - intros H. remember (Star (Class p)) as r eqn:Hr.
    induction H; try discriminate; auto.
    injection Hr as ->. apply lang_class_inv in H as (c & -> & Hc). simpl.
    rewrite Hc. auto.
  - induction w as [|c w IH]; simpl; intros H; [constructor|].
    apply andb_prop in H as [H1 H2]. change (c :: w) with ([c] ++ w).
    constructor; [by constructor | auto].
Qed.

End ReFacts.

(** ** Facts about piles *)

Section piles.
Implicit Types (g : GameManager) (p : Pile) (l : list Ref).

Lemma with_tableau_id g : with_tableau (tableau g) g = g.
Proof. by destruct g. Qed.

Lemma with_foundations_id g : with_foundations (foundations g) g = g.
Proof. by destruct g. Qed.

Lemma pile_assign_game_won g p l : game_won (pile_assign g p l).1 = game_won g.
Proof. by destruct p. Qed.

Lemma pile_assign_moves_count g p l :
  moves_count (pile_assign g p l).1 = moves_count g.
Proof. by destruct p. Qed.

Lemma pile_assign_store g p l : store (pile_assign g p l).1 = store g.
Proof. by destruct p. Qed.

(** The loop that appends the moved cards one by one amounts to one
    extension of the destination. *)
Lemma append_cards_app cards : ∀ g p,
  append_cards g p cards
  = match cards with
    | [] => (g, p)
    | _ => pile_assign g p (pile_cards g p ++ cards)
    end.
Proof.
  unfold append_cards.
  induction cards as [|c cs IH]; intros g p; [done|].
  cbn [foldl]. destruct (pile_assign g p (pile_cards g p ++ [c])) as [g1 p1] eqn:E.
  rewrite IH. destruct cs as [|c' cs]; [done|].
  destruct p as [i|s|l]; simpl in *; simplify_eq; simpl.
  - destruct (decide (i < length (tableau g))%nat) as [Hlt|Hge].
    + rewrite list_lookup_insert_eq by done. simpl.
      rewrite list_insert_insert_eq, <- app_assoc. done.
    + rewrite !(list_insert_ge (tableau g)) by lia. simpl.
      rewrite ?(list_insert_ge (tableau g)) by lia. done.
  - rewrite lookup_insert_eq. simpl. rewrite insert_insert_eq, <- app_assoc. done.
  - by rewrite <- app_assoc.
Qed.

End piles.

(** ** Facts about [move_card] *)

Lemma complete_move_success g fp tp cards :
  success (complete_move g fp tp cards).1 = true.
Proof. unfold complete_move. by destruct (append_cards _ _ _). Qed.

(** When both locations resolve and the call selects a card, the outcome
    is decided by the rule of the destination. *)
Lemma move_card_selected g from_location to_location card_index fp tp i card :
  re_match from_location = true →
  re_match to_location = true →
  get_pile g from_location = Ok (Some fp) →
  get_pile g to_location = Ok (Some tp) →
  selects g fp card_index i card →
  move_card g from_location to_location card_index =
    if PyStr.contains "foundation" to_location then
      match can_move_to_foundation g card to_location with
      | Raise e => Raise e
      | Ok false => Ok (respond false NoValidoFundacion g)
      | Ok true =>
          let '(g1, fp') := pile_assign g fp (delete i (pile_cards g fp)) in
          Ok (complete_move g1 fp' tp [card])
      end
    else
      match can_move_to_tableau g (pile_cards g fp) i (pile_cards g tp) with
      | Raise e => Raise e
      | Ok false => Ok (respond false NoValidoTableau g)
      | Ok true =>
          let '(g1, fp') := pile_assign g fp (take i (pile_cards g fp)) in
          Ok (complete_move g1 fp' tp (drop i (pile_cards g fp)))
      end.
Proof.
  intros Hf Ht Hfp Htp (Hcard & Hidx & Hface).
  unfold move_card. rewrite Hf, Ht, Hfp, Htp. simpl.
  pose proof (lookup_lt_Some _ _ _ Hcard) as Hlt.
  set (len := Z.of_nat (length (pile_cards g fp))).
  assert (Hlen : (len =? 0) = false) by (apply Z.eqb_neq; unfold len; lia).
  rewrite Hlen.
  set (ci := if card_index =? -1 then len - 1 else card_index).
  assert (Hci : ci = Z.of_nat i).
  { unfold ci. destruct Hidx as [->|[-> Hlast]].
    - destruct (Z.eqb_spec (Z.of_nat i) (-1)); [lia|done].
    - simpl. unfold len. lia. }
  rewrite Hci.
  assert (Hrange : (Z.of_nat i <? 0) || (Z.of_nat i >=? len) = false).
  { apply orb_false_intro; [apply Z.ltb_ge; lia|].
    rewrite Z.geb_leb. apply Z.leb_gt. unfold len. lia. }
  rewrite Hrange, Nat2Z.id, Hcard.
  assert (Hhidden : negb (face_up (card_at g card)) && negb (Z.of_nat i =? len - 1) = false).
  { destruct Hface as [->|Hlast]; [done|].
    apply andb_false_intro2. apply negb_false_iff, Z.eqb_eq. unfold len. lia. }
  rewrite Hhidden. done.
Qed.

Lemma append_cards_fields g p cards :
  let g2 := (append_cards g p cards).1 in
  store g2 = store g ∧ deck g2 = deck g ∧ stock g2 = stock g
  ∧ waste g2 = waste g ∧ moves_count g2 = moves_count g
  ∧ game_won g2 = game_won g.
Proof. rewrite append_cards_app. destruct cards; [done|]. by destruct p. Qed.

Lemma reveal_top_fields g p :
  let g' := reveal_top g p in
  deck g' = deck g ∧ tableau g' = tableau g ∧ foundations g' = foundations g
  ∧ stock g' = stock g ∧ waste g' = waste g
  ∧ moves_count g' = moves_count g ∧ game_won g' = game_won g.
Proof. unfold reveal_top. repeat case_match; done. Qed.

(** What a completed move leaves in each field of the engine. *)
Lemma complete_move_fields g fp tp cards :
  let g2 := (append_cards g tp cards).1 in
  let g' := (complete_move g fp tp cards).2 in
  tableau g' = tableau g2 ∧ foundations g' = foundations g2
  ∧ stock g' = stock g ∧ waste g' = waste g ∧ deck g' = deck g
  ∧ moves_count g' = moves_count g + 1
  ∧ game_won g' = game_won g || (foundation_total g2 =? 52)%nat.
Proof.
  intros g2 g'. subst g2 g'. unfold complete_move.
  destruct (append_cards_fields g tp cards) as (_ & Hd & Hs & Hw & Hm & Hg).
  destruct (append_cards g tp cards) as [g2 tp2]. simpl in *.
  destruct (reveal_top_fields g2 fp) as (Hd' & Ht' & Hf' & Hs' & Hw' & Hm' & Hg').
  unfold check_win_condition, foundation_total. simpl.
  rewrite Hf'. destruct (_ =? 52)%nat; simpl;
    rewrite ?Ht', ?Hf', ?Hs', ?Hw', ?Hm', ?Hg', ?Hd', ?Hd, ?Hs, ?Hw, ?Hm, ?Hg;
    repeat split; auto using orb_true_r, orb_false_r.
Qed.

(** [_get_pile] on the three shapes of location. *)
Lemma get_pile_tableau g s k :
  PyStr.startswith s "tableau_" = true →
  PyStr.int (nth 1 (PyStr.split "_" s) EmptyString) = Some (Z.of_nat k) →
  get_pile g s =
    if (k <? 7)%nat then
      match tableau g !! k with
      | Some _ => Ok (Some (TableauPile k))
      | None => Raise IndexError
      end
    else Ok None.
Proof.
  intros Hs Hk. unfold get_pile. rewrite Hs, Hk, Nat2Z.id.
  replace (0 <=? Z.of_nat k) with true by (symmetry; apply Z.leb_le; lia).
  simpl. destruct (Nat.ltb_spec k 7).
  - by replace (Z.of_nat k <? 7) with true by (symmetry; apply Z.ltb_lt; lia).
  - by replace (Z.of_nat k <? 7) with false by (symmetry; apply Z.ltb_ge; lia).
Qed.

Lemma get_pile_foundation g s :
  PyStr.startswith s "tableau_" = false →
  PyStr.startswith s "foundation_" = true →
  get_pile g s =
    match foundations g !! nth 1 (PyStr.split "_" s) EmptyString with
    | Some _ => Ok (Some (FoundationPile (nth 1 (PyStr.split "_" s) EmptyString)))
    | None => Ok None
    end.
Proof. intros H1 H2. unfold get_pile. by rewrite H1, H2. Qed.

(** The locations of the closed grammar resolve to the engine's piles. *)
Lemma tableau_location_resolves g j dest :
  (j < 7)%nat → tableau g !! j = Some dest →
  re_match (tableau_location j) = true
  ∧ get_pile g (tableau_location j) = Ok (Some (TableauPile j))
  ∧ PyStr.contains "foundation" (tableau_location j) = false.
Proof.
  intros Hj Hdest.
  do 7 (destruct j as [|j];
        [split; [by vm_compute|split; [|by vm_compute]];
         match goal with |- get_pile _ (tableau_location ?n) = _ =>
           rewrite (get_pile_tableau g _ n); [|by vm_compute|by vm_compute] end;
         by rewrite Hdest|]).
  lia.
Qed.

Lemma foundation_location_resolves g s dest :
  s ∈ SUITS → foundations g !! s = Some dest →
  re_match (foundation_location s) = true
  ∧ get_pile g (foundation_location s) = Ok (Some (FoundationPile s))
  ∧ PyStr.contains "foundation" (foundation_location s) = true
  ∧ nth 1 (PyStr.split "_" (foundation_location s)) EmptyString = s.
Proof.
  intros Hs Hdest. unfold SUITS in Hs.
  repeat (apply elem_of_cons in Hs as [->|Hs]);
    [..|by apply elem_of_nil in Hs];
    (split; [by vm_compute|split; [|split; by vm_compute]];
     rewrite get_pile_foundation; [|by vm_compute|by vm_compute];
     match goal with |- context [nth 1 (PyStr.split ?c ?s) ?d] =>
       let v := eval vm_compute in (nth 1 (PyStr.split c s) d) in
       change (nth 1 (PyStr.split c s) d) with v end;
     by rewrite Hdest).
Qed.

(** A call that reports a failure returns the engine it was given. *)
Lemma move_card_failure_inv g from_location to_location card_index resp g' :
  move_card g from_location to_location card_index = Ok (resp, g') →
  success resp = false →
  g' = g ∧ state resp = get_game_state g.
Proof.
  unfold move_card. intros Hmove Hfail.
  repeat case_match; simplify_eq; try done;
    match goal with
    | H : complete_move ?a ?b ?c ?d = _ |- _ =>
        pose proof (complete_move_success a b c d) as Hs;
        rewrite H in Hs; simpl in Hs; congruence
    end.
Qed.

(** C3: a call of [move_card] that reports a failure leaves the engine as
    it was: the engine after the call is the engine before it, the
    snapshot returned is the snapshot of that engine, and the move counter
    has not changed. *)
Theorem move_card_failure_unchanged g from_location to_location card_index resp g' :
  move_card g from_location to_location card_index = Ok (resp, g') →
  success resp = false →
  g' = g
  ∧ state resp = get_game_state g
  ∧ get_game_state g' = get_game_state g
  ∧ moves_count g' = moves_count g.
Proof.
  intros Hmove Hfail.
  destruct (move_card_failure_inv _ _ _ _ _ _ Hmove Hfail) as [-> Hstate].
  by rewrite Hstate.
Qed.

(** [game_won] after a call: it is set when a move succeeds and leaves 52
    cards on the foundations, and is otherwise what it was. *)
Lemma move_card_game_won g from_location to_location card_index resp g' :
  move_card g from_location to_location card_index = Ok (resp, g') →
  game_won g' = game_won g || (success resp && (foundation_total g' =? 52)%nat).
Proof.
  intros Hmove. destruct (success resp) eqn:Hok.
  2:{ destruct (move_card_failure_inv _ _ _ _ _ _ Hmove Hok) as [-> _].
      by rewrite orb_false_r. }
  revert Hmove. unfold move_card.
  repeat case_match; intros; simplify_eq; simpl in Hok; try discriminate;
    match goal with
    | H : complete_move ?a ?b ?c ?d = _, A : pile_assign ?g0 ?p ?l = _ |- _ =>
        destruct (complete_move_fields a b c d) as (_ & Hfo & _ & _ & _ & _ & Hw);
        rewrite H in Hfo, Hw; simpl in Hfo, Hw;
        unfold foundation_total in *; rewrite Hfo, Hw;
        pose proof (pile_assign_game_won g0 p l) as Hg;
        rewrite A in Hg; simpl in Hg; by rewrite Hg
    end.
Qed.

(** A move that passed every check: the call returns, with success. *)
Ltac move_succeeds :=
  match goal with
  | |- context [pile_assign ?g ?p ?l] =>
      destruct (pile_assign g p l) as [?g1 ?fp']
  end;
  match goal with
  | |- context [complete_move ?a ?b ?c ?d] =>
      let Hs := fresh "Hs" in
      pose proof (complete_move_success a b c d) as Hs;
      destruct (complete_move a b c d) as [?resp ?g'];
      simpl in Hs; eexists _, _; split; [done|]; rewrite Hs;
      split; [|done]; split; [|done]; intros _
  end.

(** C4: a call of [move_card] that selects a card and whose destination is
    a tableau column succeeds exactly when the column is empty and the
    card is a king, or the column is not empty and the card is one rank
    below the column's top card and of the other colour; otherwise it
    fails with the tableau message and changes nothing. *)
Theorem tableau_move_legal_iff g from_location j card_index fp dest i card :
  re_match from_location = true →
  get_pile g from_location = Ok (Some fp) →
  (j < 7)%nat →
  tableau g !! j = Some dest →
  selects g fp card_index i card →
  ∃ resp g',
    move_card g from_location (tableau_location j) card_index = Ok (resp, g')
    ∧ (success resp = true ↔
         (dest = [] ∧ value (card_at g card) = 13)
         ∨ (∃ top, last dest = Some top
              ∧ value (card_at g card) = value (card_at g top) - 1
              ∧ is_red (card_at g card) ≠ is_red (card_at g top)))
    ∧ (success resp = false →
         message resp = NoValidoTableau ∧ g' = g
         ∧ state resp = get_game_state g).
Proof.
  intros Hf Hfp Hj Hdest Hsel.
  destruct (tableau_location_resolves g j dest Hj Hdest) as (Ht & Htp & Hnf).
  rewrite (move_card_selected _ _ _ _ _ _ _ _ Hf Ht Hfp Htp Hsel), Hnf.
  destruct Hsel as (Hcard & _ & _).
  unfold can_move_to_tableau. rewrite Hcard. simpl. rewrite Hdest. simpl.
  destruct (last dest) as [top|] eqn:Hlast.
  - unfold can_place_on.
    destruct (Z.eqb_spec (value (card_at g card)) (value (card_at g top) - 1)) as [Hv|Hv];
      destruct (eqb_spec (is_red (card_at g card)) (is_red (card_at g top))) as [Hc|Hc];
      simpl.
    2:{ move_succeeds. right. eauto. }
    all: eexists _, _; (split; [done|]); simpl; (split; [|done]);
      (split; [done|]); intros [[-> _]|(top' & ? & ? & ?)]; simplify_eq; done.
  - apply last_None in Hlast as ->.
    destruct (Z.eqb_spec (value (card_at g card)) 13) as [Hv|Hv].
    + move_succeeds. left. done.
    + eexists _, _. split; [done|]. simpl. split; [|done].
      split; [done|]. intros [[_ ?]|(top & ? & _)]; simplify_eq; done.
Qed.

(** X10: a call of [move_card] that selects a card and whose destination is
    a foundation succeeds exactly when the card has the suit of the
    foundation and is an ace on the empty foundation, or is one rank above
    the foundation's top card; on success the foundation receives that one
    card; otherwise the call fails with the foundation message and changes
    nothing. *)
Theorem foundation_move_legal_iff g from_location s card_index fp dest i card :
  re_match from_location = true →
  get_pile g from_location = Ok (Some fp) →
  s ∈ SUITS →
  foundations g !! s = Some dest →
  selects g fp card_index i card →
  ∃ resp g',
    move_card g from_location (foundation_location s) card_index = Ok (resp, g')
    ∧ (success resp = true ↔
         suit (card_at g card) = s
         ∧ ((dest = [] ∧ value (card_at g card) = 1)
            ∨ (∃ top, last dest = Some top
                 ∧ value (card_at g card) = value (card_at g top) + 1)))
    ∧ (success resp = true →
         foundations g' !! s =
           Some ((if decide (fp = FoundationPile s) then delete i dest else dest)
                 ++ [card]))
    ∧ (success resp = false →
         message resp = NoValidoFundacion ∧ g' = g
         ∧ state resp = get_game_state g).
Proof.
  intros Hf Hfp Hs Hdest Hsel.
  destruct (foundation_location_resolves g s dest Hs Hdest) as (Ht & Htp & Hc & Hsuit).
  rewrite (move_card_selected _ _ _ _ _ _ _ _ Hf Ht Hfp Htp Hsel), Hc.
  unfold can_move_to_foundation. rewrite Hsuit, Hdest.
  destruct (String.eqb_spec (suit (card_at g card)) s) as [Hsame|Hdiff]; simpl.
  2:{ eexists _, _. split; [done|]. simpl. repeat split; try done. by intros [? _]. }
  assert (Hgain : ∀ resp g', 
    (let '(g1, fp') := pile_assign g fp (delete i (pile_cards g fp)) in
     Ok (complete_move g1 fp' (FoundationPile s) [card])) = Ok (resp, g') →
    foundations g' !! s =
      Some ((if decide (fp = FoundationPile s) then delete i dest else dest) ++ [card])).
  { intros resp g' Hmove.
    destruct (pile_assign g fp _) as [g1 fp'] eqn:Hassign.
    destruct (complete_move_fields g1 fp' (FoundationPile s) [card]) as (_ & Hfo & _).
    replace (complete_move g1 fp' (FoundationPile s) [card]) with (resp, g') in Hfo
      by congruence.
    simpl in Hfo. rewrite Hfo, lookup_insert_eq.
    f_equal. f_equal.
    destruct (decide (fp = FoundationPile s)) as [->|Hp].
    - simpl in Hassign. injection Hassign as <- <-. simpl.
      rewrite lookup_insert_eq. simpl. by rewrite Hdest.
    - destruct fp as [k|s'|l]; simpl in Hassign; injection Hassign as <- <-; simpl.
      + by rewrite Hdest.
      + rewrite lookup_insert_ne, Hdest by congruence. done.
      + by rewrite Hdest. }
  destruct (last dest) as [top|] eqn:Hlast.
  - destruct (Z.eqb_spec (value (card_at g card)) (value (card_at g top) + 1)) as [Hv|Hv].
    + destruct (pile_assign g fp _) as [g1 fp'].
      pose proof (complete_move_success g1 fp' (FoundationPile s) [card]) as Hok.
      destruct (complete_move g1 fp' (FoundationPile s) [card]) as [resp g'].
      simpl in Hok. exists resp, g'. split; [done|]. rewrite Hok.
      split; [|split; [intros _; by eapply Hgain|done]].
      split; [|done]. intros _. split; [done|]. right. eauto.
    + eexists _, _. split; [done|]. simpl. split; [|done].
      split; [done|]. intros [_ [[-> _]|(top' & ? & ?)]]; simplify_eq; done.
  - apply last_None in Hlast as ->.
    destruct (Z.eqb_spec (value (card_at g card)) 1) as [Hv|Hv].
    + destruct (pile_assign g fp _) as [g1 fp'].
      pose proof (complete_move_success g1 fp' (FoundationPile s) [card]) as Hok.
      destruct (complete_move g1 fp' (FoundationPile s) [card]) as [resp g'].
      simpl in Hok. exists resp, g'. split; [done|]. rewrite Hok.
      split; [|split; [intros _; by eapply Hgain|done]].
      split; [|done]. intros _. split; [done|]. left. done.
    + eexists _, _. split; [done|]. simpl. split; [|done].
      split; [done|]. intros [_ [[_ ?]|(top & ? & _)]]; simplify_eq; done.
Qed.

(** ** The object store *)

Lemma card_at_assign g r b r' :
  card_at (with_store (assign_face_up r b (store g)) g) r'
  = if decide (r = r') then set_face_up b (card_at g r) else card_at g r'.
Proof.
  unfold card_at. simpl. case_decide as Hr.
  - subst. apply fn_lookup_alter.
  - by apply fn_lookup_alter_ne.
Qed.

Lemma card_key_set_face_up b c : card_key (set_face_up b c) = card_key c.
Proof. done. Qed.

(** ** [draw_from_stock] *)

(** The recycling loop, run for as many rounds as the waste has cards,
    empties the waste onto the stock, top card first, and turns every
    card of the waste face down. *)
Lemma recycle_spec fuel : ∀ g,
  (length (waste g) ≤ fuel)%nat →
  let g' := recycle fuel g in
  waste g' = []
  ∧ stock g' = stock g ++ rev (waste g)
  ∧ deck g' = deck g ∧ tableau g' = tableau g ∧ foundations g' = foundations g
  ∧ moves_count g' = moves_count g ∧ game_won g' = game_won g
  ∧ (∀ r, r ∈ waste g → face_up (card_at g' r) = false)
  ∧ (∀ r, r ∉ waste g → card_at g' r = card_at g r)
  ∧ (∀ r, card_key (card_at g' r) = card_key (card_at g r)).
Proof.
  induction fuel as [|fuel IH]; intros g Hlen; simpl.
  - destruct (waste g) as [|? ?] eqn:Hw; [|simpl in Hlen; lia].
    rewrite app_nil_r. repeat split; try done. intros r Hr. by apply elem_of_nil in Hr.
  - destruct (last (waste g)) as [card|] eqn:Hlast.
    + apply last_Some in Hlast as [w' Hw]. rewrite Hw, removelast_last.
      set (g2 := with_stock _ _).
      destruct (IH g2) as (H1 & H2 & H3 & H4 & H5 & H6 & H7 & H8 & H9 & H10).
      { subst g2. simpl. rewrite Hw, length_app in Hlen. simpl in Hlen. lia. }
      subst g2. simpl in *.
      split; [done|]. split.
      { rewrite H2, rev_app_distr, <- app_assoc. done. }
      repeat (split; [done|]).
      assert (Hat : ∀ r, card_at (with_stock (stock g ++ [card])
                 (with_store (assign_face_up card false (store g))
                    (with_waste w' g))) r
               = if decide (card = r) then set_face_up false (card_at g card)
                 else card_at g r).
      { intros r. apply (card_at_assign (with_waste w' g) card false r). }
      split; [|split].
      * intros r Hr. destruct (decide (r ∈ w')) as [Hin|Hnin]; [by apply H8|].
        rewrite H9, Hat by done. apply elem_of_app in Hr as [Hr|Hr]; [done|].
        apply list_elem_of_singleton in Hr as ->. by rewrite decide_True.
      * intros r Hr. rewrite H9, Hat.
        -- rewrite decide_False; [done|]. intros <-. apply Hr.
           apply elem_of_app. right. by apply list_elem_of_singleton.
        -- intros Hin. apply Hr, elem_of_app. by left.
      * intros r. rewrite H10, Hat. by case_decide; subst.
    + apply last_None in Hlast. rewrite Hlast, app_nil_r.
      repeat split; try done. intros r Hr. by apply elem_of_nil in Hr.
Qed.

(** C6: [draw_from_stock] on a stock that is not empty takes the front
    card of the stock, turns it face up, puts it on top of the waste and
    counts a move; on an empty stock it puts the waste back as the stock
    in reverse order, the top of the waste first, every card face down,
    leaves the waste empty and counts no move; both report success. *)
Theorem draw_from_stock_spec g :
  let resp := (draw_from_stock g).1 in
  let g' := (draw_from_stock g).2 in
  success resp = true
  ∧ state resp = get_game_state g'
  ∧ tableau g' = tableau g ∧ foundations g' = foundations g
  ∧ (∀ r, card_key (card_at g' r) = card_key (card_at g r))
  ∧ match stock g with
    | card :: rest =>
        stock g' = rest
        ∧ waste g' = waste g ++ [card]
        ∧ face_up (card_at g' card) = true
        ∧ (∀ r, r ≠ card → card_at g' r = card_at g r)
        ∧ moves_count g' = moves_count g + 1
    | [] =>
        stock g' = rev (waste g)
        ∧ waste g' = []
        ∧ (∀ r, r ∈ waste g → face_up (card_at g' r) = false)
        ∧ (∀ r, r ∉ waste g → card_at g' r = card_at g r)
        ∧ moves_count g' = moves_count g
    end.
Proof.
  unfold draw_from_stock. destruct (stock g) as [|card rest] eqn:Hstock; simpl.
  - destruct (recycle_spec (length (waste g)) g (le_n _))
      as (H1 & H2 & H3 & H4 & H5 & H6 & H7 & H8 & H9 & H10).
    rewrite Hstock in H2. simpl in H2. done.
  - assert (Hat : ∀ r, card_at (with_moves_count (moves_count g + 1)
               (with_waste (waste g ++ [card])
                  (with_store (assign_face_up card true (store (with_stock rest g)))
                     (with_stock rest g)))) r
             = if decide (card = r) then set_face_up true (card_at g card)
               else card_at g r).
    { intros r. apply (card_at_assign (with_stock rest g) card true r). }
    repeat split; try done.
    + intros r. rewrite Hat. by case_decide; subst.
    + rewrite Hat. by rewrite decide_True.
    + intros r Hr. rewrite Hat. by rewrite decide_False.
Qed.

(** A draw touches neither the foundations nor the win flag. *)
Lemma draw_from_stock_foundations g :
  foundations (draw_from_stock g).2 = foundations g
  ∧ game_won (draw_from_stock g).2 = game_won g.
Proof.
  unfold draw_from_stock. destruct (stock g) as [|card rest]; simpl; [|done].
  destruct (recycle_spec (length (waste g)) g (le_n _))
    as (_ & _ & _ & _ & H5 & _ & H7 & _). by split.
Qed.

(** ** [new_game] *)

Lemma new_card_standard c :
  c ∈ standard_cards → new_card (suit c) (value c) false = Ok c.
Proof.
  assert (H : Forall (λ c, new_card (suit c) (value c) false = Ok c) standard_cards)
    by (vm_compute; repeat constructor).
  intros Hc. by eapply Forall_forall in H.
Qed.

Lemma initialize_standard_deck_alloc d h :
  initialize_standard_deck d h =
    (mkDeck (alloc_all standard_cards h).1 false
            (Z.of_nat (length (alloc_all standard_cards h).1)),
     (alloc_all standard_cards h).2).
Proof. destruct h as [objs n]. vm_compute. reflexivity. Qed.

Lemma alloc_fold cards : ∀ acc h,
  let res := foldl (λ '(cs, h) c, let '(r, h') := alloc c h in (cs ++ [r], h'))
                   (acc, h) cards in
  res.1 = acc ++ seq (next_ref h) (length cards)
  ∧ next_ref res.2 = (next_ref h + length cards)%nat
  ∧ (∀ k c, cards !! k = Some c → objects res.2 (next_ref h + k)%nat = c)
  ∧ (∀ r, (r < next_ref h)%nat → objects res.2 r = objects h r).
Proof.
  induction cards as [|c cards IH]; intros acc h; simpl.
  - rewrite app_nil_r. repeat split; try done; lia.
  - destruct (IH (acc ++ [next_ref h])
               {| objects := <[next_ref h:=c]> (objects h); next_ref := S (next_ref h) |})
      as (H1 & H2 & H3 & H4). simpl in *.
    split; [by rewrite H1, <- app_assoc|]. split; [lia|]. split.
    + intros [|k] c' Hk; simpl in Hk.
      * injection Hk as <-. rewrite Nat.add_0_r, H4 by lia. apply fn_lookup_insert.
      * replace (next_ref h + S k)%nat with (S (next_ref h + k)) by lia. by apply H3.
    + intros r Hr. rewrite H4 by lia. apply fn_lookup_insert_ne. lia.
Qed.

Lemma alloc_all_spec cards h :
  (alloc_all cards h).1 = seq (next_ref h) (length cards)
  ∧ (∀ k c, cards !! k = Some c →
       objects (alloc_all cards h).2 (next_ref h + k)%nat = c).
Proof.
  destruct (alloc_fold cards [] h) as (H1 & _ & H3 & _). by split.
Qed.

(** The dealing loops on a deck of 52 cards: column [i] receives the
    [i + 1] cards that follow the cards of the columns before it, the
    last card of each column is turned up, and the other 24 cards go to
    the stock in the order of the deck. *)
Lemma deal_eval D h sh sz :
  length D = 52%nat →
  let g0 := mkGame h (mkDeck D sh sz) (replicate 7 []) empty_foundations [] [] 0 false in
  let g1 := deal_tableau g0 in
  let g2 := fill_stock (length (deck_cards (deck g1))) g1 in
  tableau g2 = (λ i, take (i + 1) (drop (column_start i) D)) <$> seq 0 7
  ∧ stock g2 = drop 28 D
  ∧ deck_cards (deck g2) = []
  ∧ store g2 = turn_up (omap last (tableau g2)) h
  ∧ foundations g2 = empty_foundations
  ∧ waste g2 = [] ∧ moves_count g2 = 0 ∧ game_won g2 = false.
Proof.
  intros Hlen.
  do 52 (destruct D as [|? D]; [discriminate Hlen|]).
  destruct D; [|discriminate Hlen]. clear Hlen.
  cbv -[assign_face_up empty_foundations].
  repeat split.
Qed.

Lemma columns_cover (D : list Ref) :
  length D = 52%nat →
  concat ((λ i, take (i + 1) (drop (column_start i) D)) <$> seq 0 7) ++ drop 28 D = D
  ∧ omap last ((λ i, take (i + 1) (drop (column_start i) D)) <$> seq 0 7)
    = omap (λ p, D !! p) top_positions.
Proof.
  intros Hlen.
  do 52 (destruct D as [|? D]; [discriminate Hlen|]).
  destruct D; [|discriminate Hlen]. by split.
Qed.

Lemma turn_up_spec rs : ∀ h r,
  objects (turn_up rs h) r
  = if bool_decide (r ∈ rs) then set_face_up true (objects h r) else objects h r.
Proof.
  unfold turn_up. induction rs as [|r0 rs IH]; intros h r; simpl; [done|].
  rewrite IH. simpl.
  destruct (decide (r0 = r)) as [->|Hne].
  - rewrite fn_lookup_alter.
    rewrite (bool_decide_eq_true_2 (r ∈ r :: rs)) by (apply elem_of_cons; by left).
    by case_bool_decide.
  - rewrite fn_lookup_alter_ne by done.
    destruct (decide (r ∈ rs)) as [Hin|Hnin].
    + rewrite (bool_decide_eq_true_2 (r ∈ r0 :: rs))
        by (apply elem_of_cons; by right).
      by rewrite (bool_decide_eq_true_2 (r ∈ rs)).
    + rewrite (bool_decide_eq_false_2 (r ∈ r0 :: rs))
        by (rewrite elem_of_cons; intros [?|?]; by subst).
      by rewrite (bool_decide_eq_false_2 (r ∈ rs)).
Qed.

(** Within column [i], only position [i] is the position of a card dealt
    last into a column; no position of the stock is one. *)
Lemma top_positions_column i j :
  (i < 7)%nat → (j ≤ i)%nat →
  bool_decide ((column_start i + j)%nat ∈ top_positions) = bool_decide (j = i).
Proof.
  intros Hi Hj.
  assert (H : Forall (λ i, Forall (λ j,
                bool_decide ((column_start i + j)%nat ∈ top_positions)
                = bool_decide (j = i)) (seq 0 (S i))) (seq 0 7))
    by (vm_compute; repeat constructor).
  rewrite Forall_forall in H. specialize (H i).
  rewrite Forall_forall in H. apply H; apply elem_of_seq; lia.
Qed.

Lemma top_positions_bound p : p ∈ top_positions → (p < 28)%nat.
Proof.
  assert (H : Forall (λ p, p < 28)%nat top_positions)
    by (vm_compute; repeat constructor).
  rewrite Forall_forall in H. apply H.
Qed.

Lemma standard_cards_face_down c : c ∈ standard_cards → face_up c = false.
Proof.
  assert (H : Forall (λ c, face_up c = false) standard_cards)
    by (vm_compute; repeat constructor).
  rewrite Forall_forall in H. apply H.
Qed.

Lemma standard_cards_keys : card_key <$> standard_cards = standard_keys.
Proof. by vm_compute. Qed.

Lemma standard_keys_NoDup : NoDup standard_keys.
Proof. apply (bool_decide_eq_true_1 (NoDup standard_keys)). by vm_compute. Qed.

Lemma standard_cards_length : length standard_cards = 52%nat.
Proof. by vm_compute. Qed.

Lemma empty_foundations_cards :
  concat (map_to_list empty_foundations).*2 = ([] : list Ref).
Proof. by vm_compute. Qed.

Lemma new_game_unfold rng g :
  new_game rng g =
    let h := (alloc_all standard_cards (store g)).2 in
    let D := rng (alloc_all standard_cards (store g)).1 in
    let g0 := mkGame h (mkDeck D true (Z.of_nat (length (alloc_all standard_cards (store g)).1)))
                (replicate 7 []) empty_foundations [] [] 0 false in
    let g1 := deal_tableau g0 in
    let g2 := fill_stock (length (deck_cards (deck g1))) g1 in
    (get_game_state g2, g2).
Proof. unfold new_game. rewrite initialize_standard_deck_alloc. reflexivity. Qed.

(** A deal leaves the foundations empty and the win flag unset. *)
Lemma new_game_foundations rng g :
  (∀ l, rng l ≡ₚ l) →
  foundations (new_game rng g).2 = empty_foundations
  ∧ game_won (new_game rng g).2 = false.
Proof.
  intros Hrng. rewrite new_game_unfold.
  destruct (alloc_all_spec standard_cards (store g)) as [Hcs _].
  rewrite standard_cards_length in Hcs. rewrite Hcs.
  set (D := rng (seq (next_ref (store g)) 52)).
  assert (Hlen : length D = 52%nat) by (unfold D; by rewrite Hrng, length_seq).
  cbv zeta.
  destruct (deal_eval D (alloc_all standard_cards (store g)).2 true
              (Z.of_nat (length (seq (next_ref (store g)) 52))) Hlen)
    as (_ & _ & _ & _ & Hfound & _ & _ & Hwon).
  split; [exact Hfound|exact Hwon].
Qed.

Lemma empty_foundations_total g :
  foundations g = empty_foundations → foundation_total g = 0%nat.
Proof. unfold foundation_total. intros ->. by vm_compute. Qed.

(** C7: for every engine and every outcome of the shuffle, [new_game]
    returns the snapshot of an engine whose piles hold exactly the 52
    (suit, rank) pairs, each once; column [i] of the tableau holds the
    [i + 1] cards dealt to it, of which only the last is face up; the
    stock holds the other 24 cards of the shuffled deck in order, face
    down; the waste and the foundations are empty and the counters are
    reset. *)
Theorem new_game_deals rng g :
  (∀ l, rng l ≡ₚ l) →
  let snap := (new_game rng g).1 in
  let g' := (new_game rng g).2 in
  let D := rng (seq (next_ref (store g)) 52) in
  snap = get_game_state g'
  ∧ card_key ∘ card_at g' <$> all_cards g' ≡ₚ standard_keys
  ∧ NoDup (card_key ∘ card_at g' <$> all_cards g')
  ∧ length (all_cards g') = 52%nat
  ∧ length (tableau g') = 7%nat
  ∧ (∀ i, (i < 7)%nat →
       ∃ pile, tableau g' !! i = Some pile
         ∧ pile = take (i + 1) (drop (column_start i) D)
         ∧ length pile = (i + 1)%nat
         ∧ ∀ j r, pile !! j = Some r →
             face_up (card_at g' r) = bool_decide (j = i))
  ∧ stock g' = drop 28 D
  ∧ length (stock g') = 24%nat
  ∧ (∀ r, r ∈ stock g' → face_up (card_at g' r) = false)
  ∧ waste g' = []
  ∧ foundations g' = empty_foundations
  ∧ moves_count g' = 0
  ∧ game_won g' = false.
Proof.
  intros Hrng snap g' D. subst snap g'. rewrite new_game_unfold.
  destruct (alloc_all_spec standard_cards (store g)) as [Hcs Hobj].
  rewrite standard_cards_length in Hcs. rewrite Hcs. fold D.
  set (h := (alloc_all standard_cards (store g)).2) in *.
  assert (HD : D ≡ₚ seq (next_ref (store g)) 52) by apply Hrng.
  assert (Hlen : length D = 52%nat) by (by rewrite HD, length_seq).
  assert (Hnd : NoDup D) by (rewrite HD; apply NoDup_seq).
  cbv zeta.
  destruct (deal_eval D h true (Z.of_nat (length (seq (next_ref (store g)) 52))) Hlen)
    as (Htab & Hstock & _ & Hstore & Hfound & Hwaste & Hmoves & Hwon).
  set (g2 := fill_stock _ _) in *. cbn [fst snd].
  destruct (columns_cover D Hlen) as [Hcover Htops].
  rewrite Htab, Htops in Hstore.
  (* the cards of the new deck, in the store of the dealt game *)
  assert (Hnew : ∀ r, r ∈ D → ∃ k c, r = (next_ref (store g) + k)%nat
                   ∧ standard_cards !! k = Some c ∧ objects h r = c).
  { intros r Hr. rewrite HD in Hr. apply elem_of_seq in Hr.
    destruct (lookup_lt_is_Some_2 standard_cards (r - next_ref (store g))) as [c Hc].
    { rewrite standard_cards_length. lia. }
    exists (r - next_ref (store g))%nat, c. split; [lia|]. split; [done|].
    rewrite <- (Hobj _ _ Hc). f_equal. lia. }
  assert (Hat : ∀ r, card_at g2 r =
            if bool_decide (r ∈ omap (λ p, D !! p) top_positions)
            then set_face_up true (objects h r) else objects h r).
  { intros r. unfold card_at. rewrite Hstore. apply turn_up_spec. }
  assert (Hface : ∀ p r, D !! p = Some r →
            face_up (card_at g2 r) = bool_decide (p ∈ top_positions)).
  { intros p r Hp. rewrite Hat.
    destruct (Hnew r) as (k & c & _ & Hc & Hcr).
    { apply list_elem_of_lookup. eauto. }
    assert (Hdown : face_up (objects h r) = false).
    { rewrite Hcr. apply standard_cards_face_down, list_elem_of_lookup. eauto. }
    destruct (decide (p ∈ top_positions)) as [Hpos|Hpos].
    - rewrite (bool_decide_eq_true_2 _ Hpos), bool_decide_eq_true_2; [reflexivity|].
      apply list_elem_of_omap. eauto.
    - rewrite (bool_decide_eq_false_2 _ Hpos), bool_decide_eq_false_2; [exact Hdown|].
      intros Hin. apply list_elem_of_omap in Hin as (q & Hq & Hqr).
      apply Hpos. by rewrite (NoDup_lookup D p q r Hnd Hp Hqr). }
  assert (Hall : all_cards g2 = D).
  { unfold all_cards. rewrite Htab, Hfound, Hstock, Hwaste, empty_foundations_cards.
    rewrite !app_nil_r. exact Hcover. }
  assert (Hkeys : card_key ∘ card_at g2 <$> D ≡ₚ standard_keys).
  { rewrite HD, <- standard_cards_keys.
    rewrite <- (Nat.add_0_r (next_ref (store g))), <- fmap_add_seq, <- list_fmap_compose.
    assert (Heq : card_key ∘ card_at g2 ∘ Nat.add (next_ref (store g)) <$> seq 0 52
                  = card_key <$> standard_cards); [|rewrite Heq; reflexivity].
    apply list_eq. intros k. rewrite !list_lookup_fmap.
    destruct (decide (k < 52)%nat) as [Hk|Hk].
    - destruct (lookup_lt_is_Some_2 standard_cards k) as [c Hc].
      { rewrite standard_cards_length. exact Hk. }
      rewrite Hc. rewrite (proj2 (lookup_seq 0 52 k k)) by (split; [reflexivity|exact Hk]).
      cbn [fmap option_fmap option_map compose]. f_equal.
      rewrite Hat, (Hobj _ _ Hc). case_bool_decide; reflexivity.
    - rewrite !lookup_ge_None_2; [reflexivity| |];
        rewrite ?standard_cards_length, ?length_seq; lia. }
  split; [reflexivity|]. rewrite Hall.
  split; [exact Hkeys|]. split; [rewrite Hkeys; apply standard_keys_NoDup|].
  split; [exact Hlen|]. rewrite Htab, Hstock, Hwaste, Hfound, Hmoves, Hwon.
  split; [reflexivity|]. 
  split.
  { intros i Hi. exists (take (i + 1) (drop (column_start i) D)).
    split; [|split; [reflexivity|split]].
    - rewrite list_lookup_fmap. rewrite (proj2 (lookup_seq 0 7 i i)) by (split; [reflexivity|exact Hi]).
      reflexivity.
    - rewrite length_take, length_drop, Hlen.
      assert (column_start i + i < 28)%nat; [|lia].
      apply top_positions_bound. unfold top_positions.
      apply list_elem_of_fmap. exists i. split; [reflexivity|]. apply elem_of_seq. lia.
    - intros j r Hj. apply lookup_take_Some in Hj as [Hj Hlt].
      rewrite lookup_drop in Hj. rewrite (Hface _ _ Hj).
      apply top_positions_column; lia. }
  split; [reflexivity|]. split; [rewrite length_drop, Hlen; reflexivity|].
  split; [|repeat split].
  intros r Hr. apply list_elem_of_lookup in Hr as [p Hp].
  rewrite lookup_drop in Hp. rewrite (Hface _ _ Hp).
  apply bool_decide_eq_false_2. intros Hin. apply top_positions_bound in Hin. lia.
Qed.


(** ** The example games are games *)

Lemma cut_24_perm l : cut_24 l ≡ₚ l.
Proof.
  unfold cut_24. rewrite Permutation_app_comm. by rewrite take_drop.
Qed.

Lemma reverse_runs_perm sizes : ∀ l, reverse_runs sizes l ≡ₚ l.
Proof.
  induction sizes as [|n sizes IH]; intros l; simpl; [done|].
  rewrite IH, <- Permutation_rev. by rewrite take_drop.
Qed.

Lemma reachable_call g c : reachable g → reachable (call g c).
Proof.
  intros Hg. destruct c as [|from_location to_location]; simpl.
  - by constructor.
  - unfold after_move.
    destruct (move_card g from_location to_location (-1)) as [[resp g']|e] eqn:E;
      [by eapply reach_move|done].
Qed.

Lemma reachable_script script : ∀ g, reachable g → reachable (foldl call g script).
Proof.
  induction script as [|c script IH]; intros g Hg; simpl; [done|].
  by apply IH, reachable_call.
Qed.

Lemma reachable_dealt_game : reachable dealt_game.
Proof. apply reach_new_game, cut_24_perm. Qed.

Lemma reachable_drawn_game : reachable drawn_game.
Proof. apply reach_draw, reachable_dealt_game. Qed.

Lemma reachable_column_game : reachable column_game.
Proof. apply reach_new_game, reverse_runs_perm. Qed.

Lemma reachable_won_game : reachable won_game.
Proof. apply reachable_script, reachable_column_game. Qed.

Lemma reachable_ace_moved_game : reachable ace_moved_game.
Proof.
  apply (reachable_call drawn_game (Move "waste" "foundation_hearts")),
    reachable_drawn_game.
Qed.

Lemma reachable_open_column_game : reachable open_column_game.
Proof. apply reachable_call, reachable_column_game. Qed.

(** The example games are evaluated as a whole, never unfolded step by
    step. *)
Opaque dealt_game drawn_game ace_moved_game column_game won_game
  open_column_game.

(** Settles a conjunction of closed equations by evaluation. *)
Ltac evaluate :=
  repeat (split; [vm_compute; reflexivity|]); vm_compute; reflexivity.

(** ** Instances of the legality theorems *)

(** In [dealt_game], an illegal move to a foundation is refused and the
    game is as before. *)
Lemma move_card_failure_unchanged_dealt :
  move_card dealt_game "tableau_0" "foundation_hearts" (-1)
    = Ok (respond false NoValidoFundacion dealt_game)
  ∧ state (respond false NoValidoFundacion dealt_game).1
    = get_game_state dealt_game.
Proof.
  assert (H : move_card dealt_game "tableau_0" "foundation_hearts" (-1)
              = Ok (respond false NoValidoFundacion dealt_game))
    by (vm_compute; reflexivity).
  split; [exact H|].
  exact (proj1 (proj2 (move_card_failure_unchanged dealt_game "tableau_0"
                         "foundation_hearts" (-1) _ _ H eq_refl))).
Defined.

(** In [dealt_game], the queen of diamonds of column 0 goes onto the king
    of clubs of column 4. *)
Lemma tableau_move_legal_dealt :
  ∃ resp g',
    move_card dealt_game "tableau_0" (tableau_location 4) (-1) = Ok (resp, g')
    ∧ success resp = true.
Proof.
  destruct (tableau_move_legal_iff dealt_game "tableau_0" 4 (-1) (TableauPile 0)
              [34; 35; 36; 37; 38]%nat 0 24%nat)
    as (resp & g' & Hmove & Hiff & _).
  - vm_compute; reflexivity.
  - vm_compute; reflexivity.
  - lia.
  - vm_compute; reflexivity.
  - unfold selects. split; [vm_compute; reflexivity|].
    split; [right|right]; vm_compute; done.
  - exists resp, g'. split; [exact Hmove|]. apply Hiff. right.
    exists 38%nat. split; [vm_compute; reflexivity|].
    split; [vm_compute; reflexivity|]. vm_compute. discriminate.
Defined.

(** In [drawn_game], the ace of hearts on the waste goes to the empty
    foundation of hearts. *)
Lemma foundation_move_legal_drawn :
  ∃ resp g',
    move_card drawn_game "waste" (foundation_location "hearts") (-1) = Ok (resp, g')
    ∧ success resp = true
    ∧ foundations g' !! "hearts"%string = Some [0%nat].
Proof.
  destruct (foundation_move_legal_iff drawn_game "waste" "hearts" (-1)
              (CopyPile [0%nat]) [] 0 0%nat)
    as (resp & g' & Hmove & Hiff & Hgain & _).
  - vm_compute; reflexivity.
  - vm_compute; reflexivity.
  - by vm_compute; left.
  - vm_compute; reflexivity.
  - unfold selects. split; [vm_compute; reflexivity|].
    split; [right|right]; vm_compute; done.
  - assert (Hok : success resp = true).
    { apply Hiff. split; [vm_compute; reflexivity|]. left.
      split; [reflexivity|vm_compute; reflexivity]. }
    exists resp, g'. split; [exact Hmove|]. split; [exact Hok|].
    exact (Hgain Hok).
Defined.

(** The deal of [dealt_game]: 24 face-down cards on the stock and no move
    counted. *)
Lemma new_game_deals_cut :
  length (stock (new_game cut_24 (init empty_store)).2) = 24%nat
  ∧ moves_count (new_game cut_24 (init empty_store)).2 = 0.
Proof.
  destruct (new_game_deals cut_24 (init empty_store) cut_24_perm)
    as (_ & _ & _ & _ & _ & _ & _ & H1 & _ & _ & _ & H2 & _).
  split; [exact H1|exact H2].
Defined.

(** ** The copies of the waste and the stock *)

(** [move_card] never changes the stock or the waste: [_get_pile] hands
    out copies of them, so a card moved from the waste stays on the waste
    and a card moved onto the waste or the stock is in no pile at all. *)
Lemma move_card_keeps_stock_and_waste g from_location to_location card_index resp g' :
  move_card g from_location to_location card_index = Ok (resp, g') →
  stock g' = stock g ∧ waste g' = waste g.
Proof.
  unfold move_card. intros Hmove.
  repeat case_match; simplify_eq; try done;
    match goal with
    | H : complete_move ?a ?b ?c ?d = _, A : pile_assign ?g0 ?p ?l = _ |- _ =>
        destruct (complete_move_fields a b c d) as (_ & _ & Hs & Hw & _);
        rewrite H in Hs, Hw; simpl in Hs, Hw; rewrite Hs, Hw;
        destruct p; simpl in A; by simplify_eq
    end.
Qed.

(** C1 (violated by the code): [ace_moved_game] is reached by a deal, a
    draw and the move of the drawn ace of hearts from the waste to its
    foundation; its piles hold 53 cards, the ace of hearts twice. *)
Theorem waste_move_duplicates_card :
  reachable ace_moved_game
  ∧ length (all_cards ace_moved_game) = 53%nat
  ∧ ¬ NoDup (card_key ∘ card_at ace_moved_game <$> all_cards ace_moved_game)
  ∧ waste ace_moved_game = [0%nat]
  ∧ foundations ace_moved_game !! "hearts"%string = Some [0%nat]
  ∧ card_key (card_at ace_moved_game 0%nat) = ("hearts"%string, 1).
Proof.
  split; [apply reachable_ace_moved_game|].
  split; [by vm_compute|]. split; [|by vm_compute].
  apply (bool_decide_eq_false_1 (NoDup _)). by vm_compute.
Qed.

(** C2 (violated by the code): the move of the ace of hearts from the
    waste of [drawn_game] to its foundation succeeds and is counted, the
    foundation receives the card, and the waste still holds it. *)
Theorem waste_move_keeps_source :
  ∃ resp g',
    move_card drawn_game "waste" "foundation_hearts" (-1) = Ok (resp, g')
    ∧ success resp = true
    ∧ moves_count g' = moves_count drawn_game + 1
    ∧ foundations g' !! "hearts"%string = Some [0%nat]
    ∧ waste drawn_game = [0%nat]
    ∧ waste g' = [0%nat].
Proof.
  exists (respond true MovimientoExitoso ace_moved_game).1, ace_moved_game.
  split; [vm_compute; reflexivity|].
  evaluate.
Qed.

(** ** The shapes of the locations the pattern lets through *)

Lemma is_digit_cases d : PyStr.is_digit d = true → d ∈ digit_chars.
Proof.
  intros H. apply list_elem_of_In.
  destruct d as [[] [] [] [] [] [] [] []]; vm_compute in H; try discriminate H;
    vm_compute; tauto.
Qed.

Lemma re_match_lang s :
  re_match s = true →
  ∃ w, Re.lang pattern w
       ∧ (list_ascii_of_string s = w ∨ list_ascii_of_string s = w ++ ["010"%char]).
Proof.
  unfold re_match, Re.fullmatch_dollar. intros H.
  apply orb_prop in H as [H|H].
  - apply ReFacts.matches_lang in H. eauto.
  - destruct (rev (list_ascii_of_string s)) as [|c w'] eqn:Hrev; [discriminate|].
    apply andb_prop in H as [Hc H]. apply Ascii.eqb_eq in Hc as ->.
    apply ReFacts.matches_lang in H. exists (rev w'). split; [done|]. right.
    rewrite <- (rev_involutive (list_ascii_of_string s)), Hrev. done.
Qed.

Lemma lang_pattern_forms w :
  Re.lang pattern w →
  (∃ d, PyStr.is_digit d = true ∧ w = list_ascii_of_string "tableau_" ++ [d])
  ∨ (∃ c u, w = list_ascii_of_string "foundation_" ++ c :: u)
  ∨ w = list_ascii_of_string "waste"
  ∨ w = list_ascii_of_string "stock".
Proof.
  unfold pattern. intros H.
  apply ReFacts.lang_alt_inv in H as [H|H].
  { apply ReFacts.lang_cat_inv in H as (w1 & w2 & -> & H1 & H2).
    apply ReFacts.lang_lit in H1 as ->.
    apply ReFacts.lang_class_inv in H2 as (d & -> & Hd). left. eauto. }
  apply ReFacts.lang_alt_inv in H as [H|H].
  { apply ReFacts.lang_cat_inv in H as (w1 & w2 & -> & H1 & H2).
    apply ReFacts.lang_lit in H1 as ->.
    apply ReFacts.lang_cat_inv in H2 as (u1 & u2 & -> & H2 & _).
    apply ReFacts.lang_class_inv in H2 as (c & -> & _). right. left. eauto. }
  apply ReFacts.lang_alt_inv in H as [H|H]; apply ReFacts.lang_lit in H as ->; auto.
Qed.

Lemma re_match_shapes s :
  re_match s = true →
  (∃ d nl, d ∈ digit_chars ∧ nl ∈ [EmptyString; newline]
           ∧ s = "tableau_" +:+ String d nl)
  ∨ (∃ rest, s = "foundation_" +:+ rest)
  ∨ s ∈ ["waste"; "stock"; "waste" +:+ newline; "stock" +:+ newline].
Proof.
  intros H. apply re_match_lang in H as (w & Hw & Hs).
  assert (Hs' : s = string_of_list_ascii w ∨ s = string_of_list_ascii (w ++ ["010"%char])).
  { destruct Hs as [<-|Hs]; [left|right; rewrite <- Hs];
      by rewrite string_of_list_ascii_of_string. }
  clear Hs.
  apply lang_pattern_forms in Hw as [(d & Hd & ->)|[(c & u & ->)|[->| ->]]].
  - left. exists d. apply is_digit_cases in Hd.
    destruct Hs' as [->| ->]; [exists EmptyString|exists newline];
      (split; [done|]); (split; [|done]);
      [apply elem_of_cons; by left|apply elem_of_cons; right; apply elem_of_cons; by left].
  - right. left. destruct Hs' as [->| ->]; simpl; eauto.
  - right. right. destruct Hs' as [->| ->]; simpl;
      repeat first [apply list_elem_of_here | apply list_elem_of_further].
  - right. right. destruct Hs' as [->| ->]; simpl;
      repeat first [apply list_elem_of_here | apply list_elem_of_further].
Qed.

Lemma prefix_append s rest : String.prefix s (s +:+ rest) = true.
Proof.
  induction s as [|c s IH]; simpl.
  - by destruct rest.
  - by destruct (ascii_dec c c).
Qed.

Lemma tableau_string_facts d nl :
  d ∈ digit_chars → nl ∈ [EmptyString; newline] →
  let s := "tableau_" +:+ String d nl in
  PyStr.startswith s "tableau_" = true
  ∧ PyStr.int (nth 1 (PyStr.split "_" s) EmptyString)
    = Some (Z.of_nat (nat_of_ascii d - 48))
  ∧ PyStr.contains "foundation" s = false.
Proof.
  intros Hd Hnl. unfold digit_chars in Hd.
  repeat (apply elem_of_cons in Hd as [->|Hd]); [..|by apply elem_of_nil in Hd];
    (repeat (apply elem_of_cons in Hnl as [->|Hnl]); [..|by apply elem_of_nil in Hnl]);
    vm_compute; repeat split.
Qed.

Lemma foundation_string_facts rest :
  let s := "foundation_" +:+ rest in
  PyStr.startswith s "tableau_" = false
  ∧ PyStr.startswith s "foundation_" = true
  ∧ PyStr.contains "foundation" s = true.
Proof.
  split; [reflexivity|]. split; [apply prefix_append|].
  change ("foundation_" +:+ rest) with ("foundation" +:+ ("_" +:+ rest)).
  unfold PyStr.contains at 1.
  change ("foundation" +:+ "_" +:+ rest)
    with (String "f" ("oundation" +:+ "_" +:+ rest)).
  cbv beta iota. fold PyStr.contains.
  change (String "f" ("oundation" +:+ "_" +:+ rest))
    with ("foundation" +:+ "_" +:+ rest).
  by rewrite prefix_append.
Qed.

(** What [_get_pile] returns for a location the pattern lets through says
    whether the location mentions a foundation. *)
Lemma get_pile_shape g s p :
  re_match s = true →
  get_pile g s = Ok (Some p) →
  match p with
  | FoundationPile k =>
      PyStr.contains "foundation" s = true
      ∧ k = nth 1 (PyStr.split "_" s) EmptyString
      ∧ is_Some (foundations g !! k)
  | TableauPile j =>
      PyStr.contains "foundation" s = false ∧ is_Some (tableau g !! j)
  | CopyPile _ => PyStr.contains "foundation" s = false
  end.
Proof.
  intros Hs Hp.
  apply re_match_shapes in Hs as [(d & nl & Hd & Hnl & ->)|[(rest & ->)|Hs]].
  - destruct (tableau_string_facts d nl Hd Hnl) as (H1 & H2 & H3).
    rewrite (get_pile_tableau g _ _ H1 H2) in Hp.
    destruct (_ <? 7)%nat; [|discriminate].
    destruct (tableau g !! _) eqn:Hlook; [|discriminate].
    injection Hp as <-. split; [done|]. eexists. exact Hlook.
  - destruct (foundation_string_facts rest) as (H1 & H2 & H3).
    rewrite (get_pile_foundation g _ H1 H2) in Hp.
    destruct (foundations g !! _) eqn:Hlook; [|discriminate].
    injection Hp as <-. split; [done|]. split; [done|]. eexists. exact Hlook.
  - repeat (apply elem_of_cons in Hs as [->|Hs]); [..|by apply elem_of_nil in Hs];
      vm_compute in Hp; try discriminate Hp; by injection Hp as <-.
Qed.

(** [_get_pile] raises no exception on a location the pattern lets
    through, in an engine with its seven columns. *)
Lemma get_pile_returns g s :
  re_match s = true → length (tableau g) = 7%nat → ∃ p, get_pile g s = Ok p.
Proof.
  intros Hs Hlen.
  apply re_match_shapes in Hs as [(d & nl & Hd & Hnl & ->)|[(rest & ->)|Hs]].
  - destruct (tableau_string_facts d nl Hd Hnl) as (H1 & H2 & H3).
    rewrite (get_pile_tableau g _ _ H1 H2).
    destruct (Nat.ltb_spec (nat_of_ascii d - 48) 7) as [Hlt|]; [|eauto].
    destruct (lookup_lt_is_Some_2 (tableau g) (nat_of_ascii d - 48)) as [pile ->];
      [lia|eauto].
  - destruct (foundation_string_facts rest) as (H1 & H2 & H3).
    rewrite (get_pile_foundation g _ H1 H2).
    destruct (foundations g !! _); eauto.
  - repeat (apply elem_of_cons in Hs as [->|Hs]); [..|by apply elem_of_nil in Hs];
      eexists; reflexivity.
Qed.

(** [move_card] reports every refusal in its result: on an engine with
    its seven columns it raises no exception. *)
Lemma move_card_returns g from_location to_location card_index :
  length (tableau g) = 7%nat →
  ∃ resp g', move_card g from_location to_location card_index = Ok (resp, g').
Proof.
  intros Hlen. unfold move_card.
  destruct (re_match from_location) eqn:Hf; [|simpl; unfold respond; eauto].
  destruct (re_match to_location) eqn:Ht; [|simpl; unfold respond; eauto].
  simpl.
  destruct (get_pile_returns g from_location Hf Hlen) as [fp Hfp].
  destruct (get_pile_returns g to_location Ht Hlen) as [tp Htp].
  rewrite Hfp, Htp.
  destruct fp as [fp|]; [|unfold respond; eauto].
  destruct tp as [tp|]; [|unfold respond; eauto].
  destruct (_ =? 0); [unfold respond; eauto|].
  set (ci := if card_index =? -1 then _ else _).
  destruct ((ci <? 0) || (ci >=? _)) eqn:Hrange; [unfold respond; eauto|].
  apply orb_false_elim in Hrange as [Hlo Hhi].
  apply Z.ltb_ge in Hlo. rewrite Z.geb_leb in Hhi. apply Z.leb_gt in Hhi.
  destruct (lookup_lt_is_Some_2 (pile_cards g fp) (Z.to_nat ci)) as [card Hcard]; [lia|].
  rewrite Hcard.
  destruct (_ && _); [unfold respond; eauto|].
  pose proof (get_pile_shape g to_location tp Ht Htp) as Hshape.
  destruct (PyStr.contains "foundation" to_location) eqn:Hc.
  - destruct tp as [j|k|l]; [by destruct Hshape|..|congruence].
    destruct Hshape as (_ & -> & [dest Hdest]).
    unfold can_move_to_foundation. rewrite Hdest.
    repeat case_match; simplify_eq; unfold respond;
      try (destruct (complete_move _ _ _ _)); eauto.
  - unfold can_move_to_tableau. rewrite Hcard.
    repeat case_match; simplify_eq; unfold respond;
      try (destruct (complete_move _ _ _ _)); eauto.
Qed.

(** ** Successful moves, step by step *)

(** A call that succeeds resolved both locations, selected a card and
    passed the rule of its destination; the engine it returns is the one
    [complete_move] builds after the cards have left the source. *)
Lemma move_card_success_inv g from_location to_location card_index resp g' :
  move_card g from_location to_location card_index = Ok (resp, g') →
  success resp = true →
  ∃ fp tp i card moved rest,
    re_match from_location = true ∧ re_match to_location = true
    ∧ get_pile g from_location = Ok (Some fp)
    ∧ get_pile g to_location = Ok (Some tp)
    ∧ selects g fp card_index i card
    ∧ ((PyStr.contains "foundation" to_location = true
        ∧ can_move_to_foundation g card to_location = Ok true
        ∧ moved = [card] ∧ rest = delete i (pile_cards g fp))
       ∨ (PyStr.contains "foundation" to_location = false
          ∧ can_move_to_tableau g (pile_cards g fp) i (pile_cards g tp) = Ok true
          ∧ moved = drop i (pile_cards g fp) ∧ rest = take i (pile_cards g fp)))
    ∧ complete_move (pile_assign g fp rest).1 (pile_assign g fp rest).2 tp moved
      = (resp, g').
Proof.
  unfold move_card. intros Hmove Hok.
  destruct (re_match from_location) eqn:Hf; [|simpl in Hmove; by simplify_eq].
  destruct (re_match to_location) eqn:Ht; [|simpl in Hmove; by simplify_eq].
  simpl in Hmove.
  destruct (get_pile g from_location) as [[fp|]|] eqn:Hfp; try discriminate;
    destruct (get_pile g to_location) as [[tp|]|] eqn:Htp; try discriminate;
    try (by simplify_eq).
  set (len := Z.of_nat (length (pile_cards g fp))) in *.
  destruct (len =? 0) eqn:Hlen; [by simplify_eq|].
  set (ci := if card_index =? -1 then len - 1 else card_index) in *.
  destruct ((ci <? 0) || (ci >=? len)) eqn:Hrange; [by simplify_eq|].
  apply orb_false_elim in Hrange as [Hlo Hhi].
  apply Z.ltb_ge in Hlo. rewrite Z.geb_leb in Hhi. apply Z.leb_gt in Hhi.
  destruct (pile_cards g fp !! Z.to_nat ci) as [card|] eqn:Hcard; [|discriminate].
  destruct (negb (face_up (card_at g card)) && negb (ci =? len - 1)) eqn:Hface;
    [by simplify_eq|].
  assert (Hsel : selects g fp card_index (Z.to_nat ci) card).
  { split; [done|]. split.
    - unfold ci in *. destruct (Z.eqb_spec card_index (-1)) as [->|Hne].
      + right. split; [done|]. unfold len in *. lia.
      + left. lia.
    - apply andb_false_iff in Hface as [Hup|Hlast].
      + left. by apply negb_false_iff in Hup.
      + right. apply negb_false_iff, Z.eqb_eq in Hlast. unfold len in *. lia. }
  exists fp, tp, (Z.to_nat ci), card.
  destruct (PyStr.contains "foundation" to_location) eqn:Hc.
  - destruct (can_move_to_foundation g card to_location) as [[|]|] eqn:Hrule;
      try discriminate; [|by simplify_eq].
    exists [card], (delete (Z.to_nat ci) (pile_cards g fp)).
    repeat (split; [done|]). split; [by left|].
    destruct (pile_assign g fp _). by simplify_eq.
  - destruct (can_move_to_tableau g _ _ _) as [[|]|] eqn:Hrule;
      try discriminate; [|by simplify_eq].
    exists (drop (Z.to_nat ci) (pile_cards g fp)), (take (Z.to_nat ci) (pile_cards g fp)).
    repeat (split; [done|]). split; [by right|].
    destruct (pile_assign g fp _). by simplify_eq.
Qed.

(** The fields of the engine after a successful move. *)
Lemma move_card_success_fields g fp tp moved rest resp g' :
  moved ≠ [] →
  complete_move (pile_assign g fp rest).1 (pile_assign g fp rest).2 tp moved
    = (resp, g') →
  let g1 := (pile_assign g fp rest).1 in
  let g2 := (pile_assign g1 tp (pile_cards g1 tp ++ moved)).1 in
  tableau g' = tableau g2 ∧ foundations g' = foundations g2
  ∧ stock g' = stock g ∧ waste g' = waste g ∧ deck g' = deck g
  ∧ moves_count g' = moves_count g + 1
  ∧ g' = check_win_condition
           (with_moves_count (moves_count g + 1)
              (reveal_top g2 (pile_assign g fp rest).2)).
Proof.
  intros Hmoved Hcm g1 g2.
  destruct (complete_move_fields g1 (pile_assign g fp rest).2 tp moved)
    as (Ht & Hf & Hs & Hw & Hd & Hm & _).
  fold g1 in Hcm. rewrite Hcm in Ht, Hf, Hs, Hw, Hd, Hm. simpl in *.
  assert (Happ : append_cards g1 tp moved
                 = pile_assign g1 tp (pile_cards g1 tp ++ moved)).
  { rewrite append_cards_app. by destruct moved. }
  rewrite Happ in Ht, Hf. fold g2 in Ht, Hf.
  assert (Hg1 : stock g1 = stock g ∧ waste g1 = waste g ∧ deck g1 = deck g
                ∧ moves_count g1 = moves_count g).
  { subst g1. by destruct fp. }
  destruct Hg1 as (Hs1 & Hw1 & Hd1 & Hm1).
  rewrite Hs1 in Hs. rewrite Hw1 in Hw. rewrite Hd1 in Hd. rewrite Hm1 in Hm.
  repeat (split; [done|]).
  unfold complete_move in Hcm. rewrite Happ in Hcm.
  destruct (pile_assign g1 tp _) as [g2' tp2] eqn:E. subst g2. simpl in *.
  injection Hcm as _ <-.
  destruct (reveal_top_fields g2' (pile_assign g fp rest).2) as (_ & _ & _ & _ & _ & Hm2 & _).
  rewrite Hm2.
  assert (moves_count g2' = moves_count g) as ->; [|done].
  pose proof (pile_assign_moves_count g1 tp (pile_cards g1 tp ++ moved)) as Hm3.
  rewrite E in Hm3. simpl in Hm3. by rewrite Hm3.
Qed.

(** ** The shape of the engine *)

Lemma get_pile_valid g s p : get_pile g s = Ok (Some p) → pile_valid g p.
Proof.
  unfold get_pile. intros H.
  repeat case_match; simplify_eq; simpl; eauto.
Qed.

Lemma pile_assign_shape g p l :
  pile_valid g p →
  length (tableau (pile_assign g p l).1) = length (tableau g)
  ∧ ∀ k, is_Some (foundations (pile_assign g p l).1 !! k)
         ↔ is_Some (foundations g !! k).
Proof.
  intros Hp. destruct p as [i|s|c]; simpl in *.
  - split; [apply length_insert|done].
  - split; [done|]. intros k. rewrite lookup_insert_is_Some'.
    split; [intros [<-|]; done|auto].
  - done.
Qed.

Lemma pile_assign_valid g p l q :
  pile_valid g p → pile_valid g q → pile_valid (pile_assign g p l).1 q.
Proof.
  intros Hp Hq. destruct q as [j|k|c]; simpl in *; [| |done].
  - destruct p as [i|s|c]; simpl; try done.
    apply lookup_lt_is_Some. rewrite length_insert. by apply lookup_lt_is_Some.
  - by apply (pile_assign_shape g p l Hp).
Qed.

(** A call of [move_card] keeps the number of columns and the keys of
    the foundations. *)
Lemma move_card_shape g from_location to_location card_index resp g' :
  move_card g from_location to_location card_index = Ok (resp, g') →
  length (tableau g') = length (tableau g)
  ∧ ∀ k, is_Some (foundations g' !! k) ↔ is_Some (foundations g !! k).
Proof.
  intros Hmove. destruct (success resp) eqn:Hok.
  2:{ by destruct (move_card_failure_inv _ _ _ _ _ _ Hmove Hok) as [-> _]. }
  destruct (move_card_success_inv _ _ _ _ _ _ Hmove Hok)
    as (fp & tp & i & card & moved & rest & _ & _ & Hfp & Htp & Hsel & Hrule & Hcm).
  apply get_pile_valid in Hfp, Htp.
  assert (Hmoved : moved ≠ []).
  { destruct Hsel as (Hcard & _). destruct Hrule as [(_ & _ & -> & _)|(_ & _ & -> & _)];
      [done|]. intros Hnil.
    apply (f_equal length) in Hnil. rewrite length_drop in Hnil. simpl in Hnil.
    apply lookup_lt_Some in Hcard. lia. }
  destruct (move_card_success_fields g fp tp moved rest resp g' Hmoved Hcm)
    as (Ht & Hf & _).
  rewrite Ht, Hf.
  destruct (pile_assign_shape g fp rest Hfp) as [Hl1 Hk1].
  destruct (pile_assign_shape (pile_assign g fp rest).1 tp
              (pile_cards (pile_assign g fp rest).1 tp ++ moved)
              (pile_assign_valid g fp rest tp Hfp Htp)) as [Hl2 Hk2].
  split; [by rewrite Hl2|]. intros k. by rewrite Hk2.
Qed.

Lemma empty_foundations_keys k :
  is_Some (empty_foundations !! k) ↔ k ∈ SUITS.
Proof.
  unfold empty_foundations, SUITS.
  rewrite !lookup_insert_is_Some', lookup_empty, !elem_of_cons, elem_of_nil.
  split; [intros [?|[?|[?|[?|[? ?]]]]]|intros [?|[?|[?|[?|[]]]]]]; auto; done.
Qed.

Lemma new_game_tableau_length rng g :
  (∀ l, rng l ≡ₚ l) → length (tableau (new_game rng g).2) = 7%nat.
Proof.
  intros Hrng. rewrite new_game_unfold.
  destruct (alloc_all_spec standard_cards (store g)) as [Hcs _].
  rewrite standard_cards_length in Hcs. rewrite Hcs.
  set (D := rng (seq (next_ref (store g)) 52)).
  assert (Hlen : length D = 52%nat) by (unfold D; by rewrite Hrng, length_seq).
  cbv zeta.
  destruct (deal_eval D (alloc_all standard_cards (store g)).2 true
              (Z.of_nat (length (seq (next_ref (store g)) 52))) Hlen)
    as (Htab & _).
  apply (f_equal length) in Htab. rewrite length_fmap, length_seq in Htab.
  exact Htab.
Qed.

Lemma draw_from_stock_tableau g : tableau (draw_from_stock g).2 = tableau g.
Proof.
  unfold draw_from_stock. destruct (stock g) as [|card rest]; simpl; [|done].
  by destruct (recycle_spec (length (waste g)) g (le_n _)) as (_ & _ & _ & H & _).
Qed.

(** Every state of a game has seven columns and the four foundations. *)
Lemma reachable_shape g :
  reachable g →
  length (tableau g) = 7%nat
  ∧ ∀ k, is_Some (foundations g !! k) ↔ k ∈ SUITS.
Proof.
  induction 1 as [rng g Hrng|g Hg [IHt IHf]|g fl tl ci resp g' Hg [IHt IHf] Hmove].
  - split; [by apply new_game_tableau_length|].
    destruct (new_game_foundations rng g Hrng) as [-> _].
    apply empty_foundations_keys.
  - rewrite draw_from_stock_tableau.
    destruct (draw_from_stock_foundations g) as [-> _]. done.
  - destruct (move_card_shape _ _ _ _ _ _ Hmove) as [-> Hk].
    split; [done|]. intros k. by rewrite Hk.
Qed.

(** X1: in every state of a game, [move_card] returns a result for every
    pair of location strings and every index: each refusal is reported in
    the result and no exception is raised. *)
Theorem move_card_never_raises g from_location to_location card_index :
  reachable g →
  ∃ resp g', move_card g from_location to_location card_index = Ok (resp, g').
Proof.
  intros Hg. apply move_card_returns. by apply reachable_shape.
Qed.

Lemma move_card_never_raises_dealt :
  ∃ resp g', move_card dealt_game "tableau_9" "foundation_" 7 = Ok (resp, g').
Proof. apply move_card_never_raises, reachable_dealt_game. Defined.

(** X2: a call of [move_card] adds one to the move counter when it
    succeeds and leaves the counter alone when it fails. *)
Theorem move_card_counts_successes g from_location to_location card_index resp g' :
  move_card g from_location to_location card_index = Ok (resp, g') →
  moves_count g' = moves_count g + (if success resp then 1 else 0).
Proof.
  intros Hmove. destruct (success resp) eqn:Hok.
  2:{ destruct (move_card_failure_inv _ _ _ _ _ _ Hmove Hok) as [-> _]. lia. }
  destruct (move_card_success_inv _ _ _ _ _ _ Hmove Hok)
    as (fp & tp & i & card & moved & rest & _ & _ & _ & _ & Hsel & Hrule & Hcm).
  assert (Hmoved : moved ≠ []).
  { destruct Hsel as (Hcard & _). destruct Hrule as [(_ & _ & -> & _)|(_ & _ & -> & _)];
      [done|]. intros Hnil.
    apply (f_equal length) in Hnil. rewrite length_drop in Hnil. simpl in Hnil.
    apply lookup_lt_Some in Hcard. lia. }
  by destruct (move_card_success_fields g fp tp moved rest resp g' Hmoved Hcm)
    as (_ & _ & _ & _ & _ & Hm & _).
Qed.

Lemma move_card_counts_successes_drawn :
  moves_count ace_moved_game = moves_count drawn_game + 1.
Proof.
  apply (move_card_counts_successes drawn_game "waste" "foundation_hearts" (-1)
           (respond true MovimientoExitoso ace_moved_game).1 ace_moved_game).
  vm_compute. reflexivity.
Defined.

(** ** The cards of the piles *)

Lemma concat_Permutation {A} (l1 l2 : list (list A)) :
  l1 ≡ₚ l2 → concat l1 ≡ₚ concat l2.
Proof.
  induction 1 as [|x l1 l2 _ IH|x y l|l1 l2 l3 _ IH1 _ IH2]; simpl.
  - done.
  - by rewrite IH.
  - solve_Permutation.
  - by rewrite IH1.
Qed.

Lemma tableau_assign_cards (t : list (list Ref)) i old new :
  t !! i = Some old →
  concat (<[i:=new]> t) ++ old ≡ₚ concat t ++ new.
Proof.
  intros Hi. rewrite insert_take_drop by (by eapply lookup_lt_Some).
  rewrite <- (take_drop_middle t i old Hi) at 3.
  rewrite !concat_app. simpl. solve_Permutation.
Qed.

Lemma foundations_assign_cards (f : gmap string (list Ref)) k old new :
  f !! k = Some old →
  concat (map_to_list (<[k:=new]> f)).*2 ++ old
  ≡ₚ concat (map_to_list f).*2 ++ new.
Proof.
  intros Hk.
  assert (H1 : concat (map_to_list (<[k:=new]> f)).*2
               ≡ₚ new ++ concat (map_to_list (delete k f)).*2).
  { rewrite <- insert_delete_eq.
    change (new ++ concat (map_to_list (delete k f)).*2)
      with (concat (((k, new) :: map_to_list (delete k f)).*2)).
    apply concat_Permutation, fmap_Permutation, map_to_list_insert, lookup_delete_eq. }
  assert (H2 : concat (map_to_list f).*2
               ≡ₚ old ++ concat (map_to_list (delete k f)).*2).
  { change (old ++ concat (map_to_list (delete k f)).*2)
      with (concat (((k, old) :: map_to_list (delete k f)).*2)).
    apply concat_Permutation, fmap_Permutation. symmetry.
    by apply map_to_list_delete. }
  rewrite H1, H2. solve_Permutation.
Qed.

(** Replacing the contents of one of the engine's piles exchanges the old
    cards of the pile for the new ones. *)
Lemma pile_assign_cards g p new :
  engine_pile p → pile_valid g p →
  all_cards (pile_assign g p new).1 ++ pile_cards g p ≡ₚ all_cards g ++ new.
Proof.
  intros Hp Hv. destruct p as [i|k|l]; simpl in *; [| |done].
  - destruct Hv as [old Hold]. rewrite Hold. simpl. unfold all_cards. simpl.
    pose proof (tableau_assign_cards (tableau g) i old new Hold) as H.
    set (T' := concat (<[i:=new]> (tableau g))) in *.
    set (T := concat (tableau g)) in *.
    set (F := concat (map_to_list (foundations g)).*2).
    transitivity ((T' ++ old) ++ F ++ stock g ++ waste g);
      [solve_Permutation|].
    rewrite H. solve_Permutation.
  - destruct Hv as [old Hold]. rewrite Hold. simpl. unfold all_cards. simpl.
    pose proof (foundations_assign_cards (foundations g) k old new Hold) as H.
    set (F' := concat (map_to_list (<[k:=new]> (foundations g))).*2) in *.
    set (F := concat (map_to_list (foundations g)).*2) in *.
    transitivity (concat (tableau g) ++ (F' ++ old) ++ stock g ++ waste g);
      [solve_Permutation|].
    rewrite H. solve_Permutation.
Qed.

Lemma get_pile_copy g s l :
  get_pile g s = Ok (Some (CopyPile l)) → s = "waste"%string ∨ s = "stock"%string.
Proof.
  unfold get_pile. intros H.
  repeat case_match; simplify_eq;
    match goal with
    | H : String.eqb _ _ = true |- _ => apply String.eqb_eq in H; auto
    end.
Qed.

Lemma reveal_top_card_key g p r :
  card_key (card_at (reveal_top g p) r) = card_key (card_at g r).
Proof.
  unfold reveal_top. repeat case_match; try done.
  rewrite card_at_assign. by case_decide; subst.
Qed.

Lemma pile_assign_card_at g p l r :
  card_at (pile_assign g p l).1 r = card_at g r.
Proof. by destruct p. Qed.

(** A call of [move_card] changes no suit and no rank. *)
Lemma move_card_card_key g from_location to_location card_index resp g' r :
  move_card g from_location to_location card_index = Ok (resp, g') →
  card_key (card_at g' r) = card_key (card_at g r).
Proof.
  intros Hmove. destruct (success resp) eqn:Hok.
  2:{ by destruct (move_card_failure_inv _ _ _ _ _ _ Hmove Hok) as [-> _]. }
  destruct (move_card_success_inv _ _ _ _ _ _ Hmove Hok)
    as (fp & tp & i & card & moved & rest & _ & _ & _ & _ & Hsel & Hrule & Hcm).
  assert (Hmoved : moved ≠ []).
  { destruct Hsel as (Hcard & _). destruct Hrule as [(_ & _ & -> & _)|(_ & _ & -> & _)];
      [done|]. intros Hnil.
    apply (f_equal length) in Hnil. rewrite length_drop in Hnil. simpl in Hnil.
    apply lookup_lt_Some in Hcard. lia. }
  destruct (move_card_success_fields g fp tp moved rest resp g' Hmoved Hcm)
    as (_ & _ & _ & _ & _ & _ & ->).
  unfold check_win_condition.
  assert (∀ g0 b, card_at (with_game_won b g0) r = card_at g0 r) as Hw by done.
  assert (∀ g0 n, card_at (with_moves_count n g0) r = card_at g0 r) as Hm by done.
  destruct (_ =? 52)%nat; rewrite ?Hw, Hm, reveal_top_card_key, !pile_assign_card_at;
    done.
Qed.

(** X5: a successful or failed call of [move_card] whose two locations
    are neither the waste nor the stock keeps the cards of the game: the
    piles afterwards hold the same cards as before, each as often as
    before, and no card changes its suit or rank. *)
Theorem move_between_engine_piles_keeps_cards
    g from_location to_location card_index resp g' :
  move_card g from_location to_location card_index = Ok (resp, g') →
  from_location ≠ "waste"%string → from_location ≠ "stock"%string →
  to_location ≠ "waste"%string → to_location ≠ "stock"%string →
  all_cards g' ≡ₚ all_cards g
  ∧ card_key ∘ card_at g' <$> all_cards g' ≡ₚ card_key ∘ card_at g <$> all_cards g.
Proof.
  intros Hmove Hf1 Hf2 Ht1 Ht2.
  assert (Hcards : all_cards g' ≡ₚ all_cards g).
  { destruct (success resp) eqn:Hok.
    2:{ by destruct (move_card_failure_inv _ _ _ _ _ _ Hmove Hok) as [-> _]. }
    destruct (move_card_success_inv _ _ _ _ _ _ Hmove Hok)
      as (fp & tp & i & card & moved & rest & _ & _ & Hfp & Htp & Hsel & Hrule & Hcm).
    assert (Hefp : engine_pile fp).
    { destruct fp; try done. by destruct (get_pile_copy _ _ _ Hfp). }
    assert (Hetp : engine_pile tp).
    { destruct tp; try done. by destruct (get_pile_copy _ _ _ Htp). }
    apply get_pile_valid in Hfp, Htp.
    destruct Hsel as (Hcard & _).
    assert (Hsplit : pile_cards g fp ≡ₚ rest ++ moved ∧ moved ≠ []).
    { destruct Hrule as [(_ & _ & -> & ->)|(_ & _ & -> & ->)].
      - split; [|done].
        transitivity (card :: delete i (pile_cards g fp));
          [by apply delete_Permutation|solve_Permutation].
      - split; [by rewrite take_drop|]. intros Hnil.
        apply (f_equal length) in Hnil. rewrite length_drop in Hnil. simpl in Hnil.
        apply lookup_lt_Some in Hcard. lia. }
    destruct Hsplit as [Hsplit Hmoved].
    destruct (move_card_success_fields g fp tp moved rest resp g' Hmoved Hcm)
      as (Ht & Hfo & Hs & Hw & _).
    set (g1 := (pile_assign g fp rest).1) in *.
    set (g2 := (pile_assign g1 tp (pile_cards g1 tp ++ moved)).1) in *.
    pose proof (pile_assign_cards g fp rest Hefp Hfp) as H1. fold g1 in H1.
    pose proof (pile_assign_cards g1 tp (pile_cards g1 tp ++ moved) Hetp
                  (pile_assign_valid g fp rest tp Hfp Htp)) as H2. fold g2 in H2.
    assert (Hg2 : all_cards g' = all_cards g2).
    { unfold all_cards. rewrite Ht, Hfo, Hs, Hw.
      assert (stock g2 = stock g ∧ waste g2 = waste g) as [-> ->]; [|done].
      subst g2 g1. by destruct fp, tp. }
    rewrite Hg2.
    assert (H3 : all_cards g2 ≡ₚ all_cards g1 ++ moved).
    { apply (Permutation_app_inv_r (pile_cards g1 tp)). rewrite H2. solve_Permutation. }
    rewrite H3. apply (Permutation_app_inv_r rest).
    rewrite <- H1, Hsplit. solve_Permutation. }
  split; [done|].
  rewrite Hcards.
  assert (Heq : card_key ∘ card_at g' <$> all_cards g
                = card_key ∘ card_at g <$> all_cards g); [|by rewrite Heq].
  apply list_fmap_ext. intros _ r _.
  apply (move_card_card_key _ _ _ _ _ _ r Hmove).
Qed.

(** ** The effect of a move between two piles of the engine *)

Lemma selects_unique g fp card_index i card i' card' :
  selects g fp card_index i card → selects g fp card_index i' card' →
  i = i' ∧ card = card'.
Proof.
  intros (Hc & Hi & _) (Hc' & Hi' & _).
  assert (i = i') as <- by (destruct Hi as [?|[? ?]], Hi' as [?|[? ?]]; lia).
  split; [done|congruence].
Qed.

Lemma pile_cards_assign_eq g p l :
  engine_pile p → pile_valid g p → pile_cards (pile_assign g p l).1 p = l.
Proof.
  intros Hp Hv. destruct p as [i|k|c]; simpl in *; [| |done].
  - rewrite list_lookup_insert_eq; [done|]. by apply lookup_lt_is_Some.
  - by rewrite lookup_insert_eq.
Qed.

Lemma pile_cards_assign_ne g p q l :
  engine_pile q → p ≠ q → pile_cards (pile_assign g p l).1 q = pile_cards g q.
Proof.
  intros Hq Hne. destruct p as [i|k|c], q as [j|k'|c']; simpl in *; try done.
  - rewrite list_lookup_insert_ne; [done|congruence].
  - rewrite lookup_insert_ne; [done|congruence].
Qed.

Lemma pile_assign_handle g p l : engine_pile p → (pile_assign g p l).2 = p.
Proof. by destruct p. Qed.

Lemma is_copy_engine_pile p : is_copy p = false ↔ engine_pile p.
Proof. by destruct p. Qed.

Lemma pile_assign_copy g p new : is_copy p = true → (pile_assign g p new).1 = g.
Proof. by destruct p. Qed.

(** [reveal_top] leaves the top card of the pile face up and touches no
    other card. *)
Lemma reveal_top_spec g p :
  (∀ top, last (pile_cards g p) = Some top →
     face_up (card_at (reveal_top g p) top) = true)
  ∧ (∀ r, last (pile_cards g p) ≠ Some r →
       card_at (reveal_top g p) r = card_at g r).
Proof.
  unfold reveal_top. destruct (last (pile_cards g p)) as [top|]; [|done].
  destruct (face_up (card_at g top)) eqn:Hup; simpl.
  - split; [|done]. by intros ? [= <-].
  - split.
    + intros ? [= <-]. rewrite card_at_assign. by rewrite decide_True.
    + intros r Hr. rewrite card_at_assign. rewrite decide_False; [done|congruence].
Qed.

(** X8: a successful move between two different piles of the engine
    (tableau columns or foundations) takes the selected card to a
    foundation, or the selected card and the cards above it to a column:
    the source keeps the cards that did not move, the destination
    receives the moved cards on top in their order, the card left on top
    of the source is face up, and no other card changes. *)
Theorem move_between_engine_piles_effect
    g from_location to_location card_index resp g' fp tp i card :
  move_card g from_location to_location card_index = Ok (resp, g') →
  success resp = true →
  get_pile g from_location = Ok (Some fp) →
  get_pile g to_location = Ok (Some tp) →
  engine_pile fp → engine_pile tp → fp ≠ tp →
  selects g fp card_index i card →
  let cards := pile_cards g fp in
  let to_foundation := PyStr.contains "foundation" to_location in
  let moved := if to_foundation then [card] else drop i cards in
  let rest := if to_foundation then delete i cards else take i cards in
  pile_cards g' fp = rest
  ∧ pile_cards g' tp = pile_cards g tp ++ moved
  ∧ (∀ top, last rest = Some top → face_up (card_at g' top) = true)
  ∧ (∀ r, last rest ≠ Some r → card_at g' r = card_at g r).
Proof.
  intros Hmove Hok Hfp Htp Hefp Hetp Hne Hsel cards tof moved rest.
  destruct (move_card_success_inv _ _ _ _ _ _ Hmove Hok)
    as (fp' & tp' & i' & card' & moved' & rest' & _ & _ & Hfp' & Htp' & Hsel'
        & Hrule & Hcm).
  assert (fp' = fp) as -> by congruence.
  assert (tp' = tp) as -> by congruence.
  destruct (selects_unique _ _ _ _ _ _ _ Hsel' Hsel) as [-> ->].
  assert (moved' = moved ∧ rest' = rest) as [-> ->].
  { subst moved rest tof cards.
    by destruct Hrule as [(-> & _ & -> & ->)|(-> & _ & -> & ->)]. }
  assert (Hmoved : moved ≠ []).
  { subst moved. destruct tof; [done|]. intros Hnil.
    apply (f_equal length) in Hnil. rewrite length_drop in Hnil. simpl in Hnil.
    destruct Hsel as (Hcard & _). apply lookup_lt_Some in Hcard.
    subst cards. lia. }
  apply get_pile_valid in Hfp, Htp.
  destruct (move_card_success_fields g fp tp moved rest resp g' Hmoved Hcm)
    as (Ht & Hfo & _ & _ & _ & _ & Hg').
  set (g1 := (pile_assign g fp rest).1) in *.
  set (g2 := (pile_assign g1 tp (pile_cards g1 tp ++ moved)).1) in *.
  assert (Hpiles : ∀ p, pile_cards g' p = pile_cards g2 p).
  { intros [j|k|c]; simpl; by rewrite ?Ht, ?Hfo. }
  assert (Hv1 : pile_valid g1 tp) by (by apply pile_assign_valid).
  assert (H1 : pile_cards g1 fp = rest) by (by apply pile_cards_assign_eq).
  assert (H2 : pile_cards g1 tp = pile_cards g tp)
    by (by apply pile_cards_assign_ne).
  assert (H3 : pile_cards g2 tp = pile_cards g tp ++ moved).
  { subst g2. rewrite pile_cards_assign_eq by done. by rewrite H2. }
  assert (H4 : pile_cards g2 fp = rest).
  { subst g2. rewrite pile_cards_assign_ne by done. exact H1. }
  split; [by rewrite Hpiles|]. split; [by rewrite Hpiles|].
  rewrite pile_assign_handle in Hg' by done.
  assert (Hat : ∀ r, card_at g' r = card_at (reveal_top g2 fp) r).
  { intros r. rewrite Hg'. unfold check_win_condition. by destruct (_ =? 52)%nat. }
  assert (Hat2 : ∀ r, card_at g2 r = card_at g r).
  { intros r. subst g2 g1. by rewrite !pile_assign_card_at. }
  destruct (reveal_top_spec g2 fp) as [Hup Hsame]. rewrite H4 in Hup, Hsame.
  split.
  - intros top Htop. rewrite Hat. by apply Hup.
  - intros r Hr. rewrite Hat, Hsame by done. apply Hat2.
Qed.

(** ** The win flag *)

(** C8 (as the claim states it, refuted): [king_taken_game] is a state of
    a game, reached from the won game by one more move; the win flag is
    set and the foundations hold 51 cards. *)
Lemma game_won_without_52_cards :
  reachable king_taken_game
  ∧ ¬ (game_won king_taken_game = true ↔ foundation_total king_taken_game = 52%nat).
Proof.
  split; [apply reachable_call, reachable_won_game|].
  assert (Hw : game_won king_taken_game = true) by (vm_compute; reflexivity).
  assert (Ht : foundation_total king_taken_game = 51%nat) by (vm_compute; reflexivity).
  rewrite Hw, Ht. intros [H _]. specialize (H eq_refl). discriminate H.
Qed.

(** C8 (amended): in every state of a game, the win flag is set whenever
    the foundations hold 52 cards; a call of [move_card] sets it when the
    move succeeds and leaves 52 cards on the foundations and otherwise
    keeps it, and a draw keeps it: once set, it stays set until the next
    deal. *)
Theorem game_won_latches g :
  reachable g →
  (foundation_total g = 52%nat → game_won g = true)
  ∧ (∀ from_location to_location card_index resp g',
       move_card g from_location to_location card_index = Ok (resp, g') →
       game_won g' = game_won g || (success resp && (foundation_total g' =? 52)%nat))
  ∧ game_won (draw_from_stock g).2 = game_won g
  ∧ (∀ rng, (∀ l, rng l ≡ₚ l) → game_won (new_game rng g).2 = false).
Proof.
  intros Hg. split; [|split; [|split]].
  - induction Hg as [rng g Hrng|g Hg IH|g fl tl ci resp g' Hg IH Hmove].
    + destruct (new_game_foundations rng g Hrng) as [Hf _].
      rewrite (empty_foundations_total _ Hf). discriminate.
    + destruct (draw_from_stock_foundations g) as [Hf Hw].
      unfold foundation_total in *. rewrite Hf, Hw. exact IH.
    + intros Ht. rewrite (move_card_game_won _ _ _ _ _ _ Hmove).
      destruct (success resp) eqn:Hok.
      * rewrite Ht. simpl. apply orb_true_r.
      * destruct (move_card_failure_inv _ _ _ _ _ _ Hmove Hok) as [-> _].
        rewrite (IH Ht). reflexivity.
  - intros fl tl ci resp g'. apply move_card_game_won.
  - apply draw_from_stock_foundations.
  - intros rng Hrng. apply (new_game_foundations rng g Hrng).
Qed.

(** The won game: the foundations hold 52 cards and the flag is set; the
    move that takes the king of spades off its foundation keeps the
    flag. *)
Lemma game_won_latches_won_game :
  game_won won_game = true
  ∧ game_won king_taken_game = true.
Proof.
  destruct (game_won_latches won_game reachable_won_game) as (H52 & Hmove & _).
  assert (Hw : game_won won_game = true).
  { apply H52. vm_compute. reflexivity. }
  split; [exact Hw|].
  assert (Hcall : move_card won_game "foundation_spades" "tableau_0" (-1)
                  = Ok (respond true MovimientoExitoso king_taken_game))
    by (vm_compute; reflexivity).
  rewrite (Hmove _ _ _ _ _ Hcall), Hw. reflexivity.
Defined.

(** ** The location pattern *)

Lemma complete_move_message g fp tp cards :
  message (complete_move g fp tp cards).1 = MovimientoExitoso.
Proof. unfold complete_move. by destruct (append_cards _ _ _). Qed.

Lemma closed_grammar_re_match s : in_closed_grammar s = true → re_match s = true.
Proof.
  unfold in_closed_grammar, re_match, Re.fullmatch_dollar. intros H.
  apply orb_true_intro. left. apply ReFacts.matches_lang.
  apply ReFacts.matches_lang in H. revert H. generalize (list_ascii_of_string s).
  intros w H. unfold closed_grammar in H. unfold pattern.
  apply ReFacts.lang_alt_inv in H as [H|H].
  { apply ReFacts.lang_cat_inv in H as (w1 & w2 & -> & H1 & H2).
    apply Re.lang_alt_l. constructor; [done|].
    apply ReFacts.lang_class_inv in H2 as (d & -> & Hd). constructor.
    apply andb_prop in Hd as [Hlo Hhi]. unfold PyStr.is_digit.
    apply Nat.leb_le in Hhi. rewrite Hlo. simpl. apply Nat.leb_le. lia. }
  apply Re.lang_alt_r.
  apply ReFacts.lang_alt_inv in H as [H|H].
  { apply ReFacts.lang_cat_inv in H as (w1 & w2 & -> & H1 & H2).
    apply Re.lang_alt_l. constructor; [done|].
    repeat (apply ReFacts.lang_alt_inv in H2 as [H2|H2]);
      apply ReFacts.lang_lit in H2 as ->;
      apply ReFacts.matches_lang; by vm_compute. }
  by apply Re.lang_alt_r.
Qed.

Lemma get_pile_none_iff g s :
  length (tableau g) = 7%nat →
  (∀ k, is_Some (foundations g !! k) ↔ k ∈ SUITS) →
  re_match s = true →
  get_pile g s = Ok None ↔ names_no_pile s.
Proof.
  intros Hlen Hkeys Hs.
  apply re_match_shapes in Hs as [(d & nl & Hd & Hnl & ->)|[(rest & ->)|Hs]].
  - destruct (tableau_string_facts d nl Hd Hnl) as (H1 & H2 & _).
    rewrite (get_pile_tableau g _ _ H1 H2).
    assert (Hsome : ∀ k, (k < 7)%nat →
              match tableau g !! k with
              | Some _ => Ok (Some (TableauPile k))
              | None => Raise IndexError
              end ≠ Ok None).
    { intros k Hk. destruct (lookup_lt_is_Some_2 (tableau g) k) as [pile ->];
        [lia|discriminate]. }
    assert (Hshape : names_no_pile ("tableau_" +:+ String d nl)
                     ↔ d ∈ ["7"; "8"; "9"]%char).
    { split.
      - intros [(d' & nl' & Hd' & _ & Heq)|[(rest & Heq & _)|[Heq|Heq]]];
          simpl in Heq; try discriminate Heq.
        by injection Heq as -> _.
      - intros Hd'. left. eauto. }
    rewrite Hshape. unfold digit_chars in Hd.
    repeat (apply elem_of_cons in Hd as [->|Hd]);
      [..|by apply elem_of_nil in Hd]; simpl;
      (split; [intros H; try (by apply Hsome in H; [|lia]);
               repeat (try (by apply list_elem_of_here); apply list_elem_of_further)
              |intros H; repeat (apply elem_of_cons in H as [H|H];
                                 [discriminate H|]); try (by apply elem_of_nil in H);
               try reflexivity]).
  - destruct (foundation_string_facts rest) as (H1 & H2 & _).
    rewrite (get_pile_foundation g _ H1 H2).
    change (nth 1 (PyStr.split "_" ("foundation_" +:+ rest)) EmptyString)
      with (nth 0 (PyStr.split "_" rest) EmptyString).
    assert (Hshape : names_no_pile ("foundation_" +:+ rest)
                     ↔ nth 0 (PyStr.split "_" rest) EmptyString ∉ SUITS).
    { split.
      - intros [(d' & nl' & _ & _ & Heq)|[(rest' & Heq & Hseg)|[Heq|Heq]]];
          simpl in Heq; try discriminate Heq.
        injection Heq as Heq. change (rest = rest') in Heq. by subst rest'.
      - intros Hseg. right. left. eauto. }
    set (seg := nth 0 (PyStr.split "_" rest) EmptyString) in *.
    rewrite Hshape, <- Hkeys.
    destruct (foundations g !! seg) as [pile|].
    + split; [discriminate|]. intros H. destruct H. eauto.
    + split; [|reflexivity]. intros _ [? ?]. discriminate.
  - assert (Hno : ∀ u, u ∈ ["waste"; "stock"]%string → ¬ names_no_pile u).
    { intros u Hu.
      repeat (apply elem_of_cons in Hu as [->|Hu]); [..|by apply elem_of_nil in Hu];
        intros [(d' & nl' & _ & _ & Heq)|[(rest' & Heq & _)|[Heq|Heq]]];
        simpl in Heq; discriminate Heq. }
    repeat (apply elem_of_cons in Hs as [->|Hs]); [..|by apply elem_of_nil in Hs].
    + split; [discriminate|]. intros H. destruct (Hno "waste"%string); [|done].
      apply list_elem_of_here.
    + split; [discriminate|]. intros H. destruct (Hno "stock"%string); [|done].
      apply list_elem_of_further, list_elem_of_here.
    + split; [|reflexivity]. intros _. right. right. by left.
    + split; [|reflexivity]. intros _. right. right. by right.
Qed.

(** A call whose two locations resolve to piles goes on to the checks of
    the source and of the rule: it is not answered with the message of a
    location that was not found. *)
Lemma move_card_found g from_location to_location card_index fp tp resp g' :
  re_match from_location = true →
  re_match to_location = true →
  get_pile g from_location = Ok (Some fp) →
  get_pile g to_location = Ok (Some tp) →
  move_card g from_location to_location card_index = Ok (resp, g') →
  message resp ≠ UbicacionNoEncontrada.
Proof.
  intros Hf Ht Hfp Htp. unfold move_card. rewrite Hf, Ht, Hfp, Htp. simpl.
  repeat case_match; intros; simplify_eq; simpl; try discriminate;
    match goal with
    | H : complete_move ?a ?b ?c ?d = _ |- _ =>
        pose proof (complete_move_message a b c d) as Hm;
        rewrite H in Hm; simpl in Hm; congruence
    end.
Qed.

Lemma move_card_not_found g from_location to_location card_index :
  re_match from_location = true →
  re_match to_location = true →
  (∃ p, get_pile g from_location = Ok p) →
  (∃ p, get_pile g to_location = Ok p) →
  get_pile g from_location = Ok None ∨ get_pile g to_location = Ok None →
  move_card g from_location to_location card_index
  = Ok (respond false UbicacionNoEncontrada g).
Proof.
  intros Hf Ht [p Hp] [q Hq] Hnone. unfold move_card.
  rewrite Hf, Ht, Hp, Hq. simpl.
  destruct Hnone as [H|H]; rewrite H in *; simplify_eq; [done|].
  by destruct p.
Qed.

(** C9 (as the claim states it, refuted): [tableau_7] and
    [foundation_xyz] are outside the closed grammar, and a call with one
    of them fails with the message of a location that was not found, not
    with the message of an invalid location. *)
Lemma tableau_7_is_not_found :
  in_closed_grammar "tableau_7" = false
  ∧ in_closed_grammar "foundation_xyz" = false
  ∧ move_card dealt_game "tableau_7" "waste" (-1)
    = Ok (respond false UbicacionNoEncontrada dealt_game)
  ∧ move_card dealt_game "tableau_0" "foundation_xyz" (-1)
    = Ok (respond false UbicacionNoEncontrada dealt_game).
Proof. evaluate. Qed.

(** C9 (amended): a call of [move_card] fails with the message of an
    invalid location, before any change, exactly when one of its two
    locations does not match the pattern
    [^(tableau_\d|foundation_\w+|waste|stock)$]; every location of the
    closed grammar matches that pattern; and in every state of a game a
    call whose two locations match the pattern fails with the message of
    a location that was not found, before any change, exactly when one
    of them names no pile. *)
Theorem invalid_location_iff g from_location to_location card_index :
  ((∃ resp g',
      move_card g from_location to_location card_index = Ok (resp, g')
      ∧ message resp = FormatoInvalido)
   ↔ re_match from_location = false ∨ re_match to_location = false)
  ∧ (re_match from_location = false ∨ re_match to_location = false →
     move_card g from_location to_location card_index
     = Ok (respond false FormatoInvalido g))
  ∧ (in_closed_grammar from_location = true →
     in_closed_grammar to_location = true →
     re_match from_location = true ∧ re_match to_location = true)
  ∧ (reachable g →
     re_match from_location = true → re_match to_location = true →
     ((∃ resp g',
         move_card g from_location to_location card_index = Ok (resp, g')
         ∧ message resp = UbicacionNoEncontrada)
      ↔ names_no_pile from_location ∨ names_no_pile to_location)
     ∧ (names_no_pile from_location ∨ names_no_pile to_location →
        move_card g from_location to_location card_index
        = Ok (respond false UbicacionNoEncontrada g))).
Proof.
  assert (Hbad : re_match from_location = false ∨ re_match to_location = false →
                 move_card g from_location to_location card_index
                 = Ok (respond false FormatoInvalido g)).
  { intros H. unfold move_card.
    destruct H as [-> | ->]; [done|]. by rewrite orb_true_r. }
  split; [|split; [exact Hbad|split]].
  - split.
    + intros (resp & g' & Hmove & Hmsg).
      destruct (re_match from_location) eqn:Hf; [|by left].
      destruct (re_match to_location) eqn:Ht; [|by right].
      exfalso. revert Hmove. unfold move_card. rewrite Hf, Ht. simpl.
      repeat case_match; intros; simplify_eq; simpl in Hmsg; try discriminate;
        match goal with
        | H : complete_move ?a ?b ?c ?d = _ |- _ =>
            pose proof (complete_move_message a b c d) as Hm;
            rewrite H in Hm; simpl in Hm; congruence
        end.
    + intros H. rewrite (Hbad H). unfold respond. eauto.
  - intros Hf Ht. split; by apply closed_grammar_re_match.
  - intros Hg Hf Ht. destruct (reachable_shape g Hg) as [Hlen Hkeys].
    pose proof (get_pile_none_iff g from_location Hlen Hkeys Hf) as Hnf.
    pose proof (get_pile_none_iff g to_location Hlen Hkeys Ht) as Hnt.
    assert (Hnone : names_no_pile from_location ∨ names_no_pile to_location →
                    move_card g from_location to_location card_index
                    = Ok (respond false UbicacionNoEncontrada g)).
    { intros H. apply move_card_not_found; try done.
      - by apply get_pile_returns.
      - by apply get_pile_returns.
      - rewrite Hnf, Hnt. exact H. }
    split; [|exact Hnone]. split.
    + intros (resp & g' & Hmove & Hmsg).
      destruct (get_pile_returns g from_location Hf Hlen) as [[fp|] Hfp];
        [|left; by apply Hnf].
      destruct (get_pile_returns g to_location Ht Hlen) as [[tp|] Htp];
        [|right; by apply Hnt].
      by destruct (move_card_found _ _ _ _ _ _ _ _ Hf Ht Hfp Htp Hmove).
    + intros H. rewrite (Hnone H). unfold respond. eauto.
Qed.

(** [tableau_x] does not match the pattern: the call is refused at once;
    [tableau_7] matches it and names no column: the call is refused
    because the location is not found. *)
Lemma invalid_location_iff_tableau_x :
  move_card dealt_game "tableau_x" "waste" (-1)
  = Ok (respond false FormatoInvalido dealt_game)
  ∧ move_card dealt_game "tableau_7" "waste" (-1)
    = Ok (respond false UbicacionNoEncontrada dealt_game).
Proof.
  split.
  - apply (proj1 (proj2 (invalid_location_iff dealt_game "tableau_x" "waste" (-1)))).
    left. vm_compute. reflexivity.
  - assert (H7 : re_match "tableau_7" = true) by (vm_compute; reflexivity).
    assert (Hw : re_match "waste" = true) by (vm_compute; reflexivity).
    apply (proj2 (proj2 (proj2 (proj2
             (invalid_location_iff dealt_game "tableau_7" "waste" (-1))))
             reachable_dealt_game H7 Hw)).
    left. left. exists "7"%char, EmptyString.
    split; [apply list_elem_of_here|]. split; [apply list_elem_of_here|].
    reflexivity.
Defined.

(** ** Face-down cards *)

(** The two rules, as propositions; neither looks at the face of the
    card. *)
Lemma can_move_to_foundation_rule g card to_location dest :
  foundations g !! nth 1 (PyStr.split "_" to_location) EmptyString = Some dest →
  ∃ b, can_move_to_foundation g card to_location = Ok b
    ∧ (b = true ↔
         suit (card_at g card) = nth 1 (PyStr.split "_" to_location) EmptyString
         ∧ ((dest = [] ∧ value (card_at g card) = 1)
            ∨ (∃ top, last dest = Some top
                 ∧ value (card_at g card) = value (card_at g top) + 1))).
Proof.
  intros Hdest. unfold can_move_to_foundation. rewrite Hdest.
  destruct (String.eqb_spec (suit (card_at g card))
              (nth 1 (PyStr.split "_" to_location) EmptyString)) as [Hs|Hs]; simpl.
  2:{ eexists. split; [done|]. split; [done|]. by intros [? _]. }
  destruct (last dest) as [top|] eqn:Hlast.
  - eexists. split; [done|]. rewrite Z.eqb_eq. split.
    + intros Hv. split; [done|]. right. eauto.
    + intros [_ [[-> _]|(top' & ? & ?)]]; simplify_eq; done.
  - apply last_None in Hlast as ->.
    eexists. split; [done|]. rewrite Z.eqb_eq. split.
    + intros Hv. split; [done|]. by left.
    + intros [_ [[_ ?]|(top' & ? & _)]]; simplify_eq; done.
Qed.

Lemma can_move_to_tableau_rule g cards i card dest :
  cards !! i = Some card →
  ∃ b, can_move_to_tableau g cards i dest = Ok b
    ∧ (b = true ↔
         (dest = [] ∧ value (card_at g card) = 13)
         ∨ (∃ top, last dest = Some top
              ∧ value (card_at g card) = value (card_at g top) - 1
              ∧ is_red (card_at g card) ≠ is_red (card_at g top))).
Proof.
  intros Hcard. unfold can_move_to_tableau. rewrite Hcard.
  destruct (last dest) as [top|] eqn:Hlast.
  - eexists. split; [done|]. unfold can_place_on.
    rewrite andb_true_iff, Z.eqb_eq, negb_true_iff, eqb_false_iff. split.
    + intros [Hv Hc]. right. eauto.
    + intros [[-> _]|(top' & ? & ? & ?)]; simplify_eq; done.
  - apply last_None in Hlast as ->.
    eexists. split; [done|]. rewrite Z.eqb_eq. split.
    + intros Hv. by left.
    + intros [[_ ?]|(top' & ? & _)]; simplify_eq; done.
Qed.

(** C10 (as the claim states it, refuted): in [open_column_game], a state
    of a game, the last card of the stock is the king of spades, face
    down; the call that selects it succeeds and puts it, still face down,
    on the empty first column. *)
Lemma face_down_king_moves :
  reachable open_column_game
  ∧ last (stock open_column_game) = Some 51%nat
  ∧ face_up (card_at open_column_game 51%nat) = false
  ∧ move_card open_column_game "stock" "tableau_0" (-1)
    = Ok (respond true MovimientoExitoso hidden_king_game)
  ∧ tableau open_column_game !! 0%nat = Some []
  ∧ tableau hidden_king_game !! 0%nat = Some [51%nat]
  ∧ card_at hidden_king_game 51%nat = mkCard "spades" 13 false.
Proof.
  split; [apply reachable_open_column_game|].
  evaluate.
Qed.

(** A face-down card that [move_card] selects is the last card of its
    pile, and the call is decided by the rule of the destination. *)
Lemma face_down_last_card_by_rule
    g from_location to_location card_index fp tp i card :
  re_match from_location = true →
  re_match to_location = true →
  get_pile g from_location = Ok (Some fp) →
  get_pile g to_location = Ok (Some tp) →
  selects g fp card_index i card →
  face_up (card_at g card) = false →
  last (pile_cards g fp) = Some card
  ∧ ∃ resp g',
      move_card g from_location to_location card_index = Ok (resp, g')
      ∧ message resp ≠ CartaBocaAbajo
      ∧ (success resp = true ↔
           match tp with
           | FoundationPile s =>
               suit (card_at g card) = s
               ∧ ((pile_cards g tp = [] ∧ value (card_at g card) = 1)
                  ∨ (∃ top, last (pile_cards g tp) = Some top
                       ∧ value (card_at g card) = value (card_at g top) + 1))
           | _ =>
               (pile_cards g tp = [] ∧ value (card_at g card) = 13)
               ∨ (∃ top, last (pile_cards g tp) = Some top
                    ∧ value (card_at g card) = value (card_at g top) - 1
                    ∧ is_red (card_at g card) ≠ is_red (card_at g top))
           end).
Proof.
  intros Hf Ht Hfp Htp Hsel Hdown.
  rewrite (move_card_selected _ _ _ _ _ _ _ _ Hf Ht Hfp Htp Hsel).
  destruct Hsel as (Hcard & _ & [Hup|Hlast]); [congruence|].
  split.
  { rewrite last_lookup, <- Hlast. exact Hcard. }
  pose proof (get_pile_shape g to_location tp Ht Htp) as Hshape.
  assert (Hyes : ∀ (P : Prop) g1 fp' cards, P →
            ∃ resp g',
              Ok (complete_move g1 fp' tp cards) = Ok (resp, g')
              ∧ message resp ≠ CartaBocaAbajo ∧ (success resp = true ↔ P)).
  { intros P g1 fp' cards HP.
    pose proof (complete_move_success g1 fp' tp cards) as Hs.
    pose proof (complete_move_message g1 fp' tp cards) as Hmsg.
    destruct (complete_move g1 fp' tp cards) as [resp g']. simpl in *.
    exists resp, g'. split; [reflexivity|]. split; [by rewrite Hmsg|].
    rewrite Hs. by split. }
  assert (Hno : ∀ (P : Prop) m, ¬ P → m ≠ CartaBocaAbajo →
            ∃ resp g',
              Ok (respond false m g) = Ok (resp, g')
              ∧ message resp ≠ CartaBocaAbajo ∧ (success resp = true ↔ P)).
  { intros P m HP Hm. eexists _, _. split; [reflexivity|]. split; [exact Hm|].
    simpl. split; [discriminate|]. intros HP'. by destruct HP. }
  destruct tp as [j|s|l].
  - destruct Hshape as [-> _].
    destruct (can_move_to_tableau_rule g (pile_cards g fp) i card
                (pile_cards g (TableauPile j)) Hcard) as (b & -> & Hb).
    destruct (pile_assign g fp _) as [g1 fp'].
    destruct b.
    + apply Hyes. by apply Hb.
    + apply Hno; [|discriminate]. intros HP. apply Hb in HP. discriminate HP.
  - destruct Hshape as (-> & -> & [dest Hdest]).
    destruct (can_move_to_foundation_rule g card to_location dest Hdest)
      as (b & -> & Hb).
    cbn [pile_cards]. rewrite Hdest. cbn [default from_option].
    destruct (pile_assign g fp _) as [g1 fp'].
    destruct b.
    + apply Hyes. by apply Hb.
    + apply Hno; [|discriminate]. intros HP. apply Hb in HP. discriminate HP.
  - rewrite Hshape.
    destruct (can_move_to_tableau_rule g (pile_cards g fp) i card
                (pile_cards g (CopyPile l)) Hcard) as (b & -> & Hb).
    destruct (pile_assign g fp _) as [g1 fp'].
    destruct b.
    + apply Hyes. by apply Hb.
    + apply Hno; [|discriminate]. intros HP. apply Hb in HP. discriminate HP.
Qed.


(** C10 (amended): a call of [move_card] that addresses a face-down card
    is refused for the face of the card, before any change, exactly when
    the card is not the last card of the source pile.  When it is the
    last card, the call succeeds exactly when the card satisfies the rule
    of the destination, which does not look at the face of the card, and
    a successful call changes the game: the move is counted and the card
    is the new top card of the destination. *)
Theorem face_down_top_card_moves_by_rule
    g from_location to_location card_index fp tp i card :
  re_match from_location = true →
  re_match to_location = true →
  get_pile g from_location = Ok (Some fp) →
  get_pile g to_location = Ok (Some tp) →
  addresses g fp card_index i card →
  face_up (card_at g card) = false →
  ∃ resp g',
    move_card g from_location to_location card_index = Ok (resp, g')
    ∧ (message resp = CartaBocaAbajo ↔ S i ≠ length (pile_cards g fp))
    ∧ (S i ≠ length (pile_cards g fp) → success resp = false ∧ g' = g)
    ∧ (S i = length (pile_cards g fp) →
       last (pile_cards g fp) = Some card
       ∧ (success resp = true ↔
            match tp with
            | FoundationPile s =>
                suit (card_at g card) = s
                ∧ ((pile_cards g tp = [] ∧ value (card_at g card) = 1)
                   ∨ (∃ top, last (pile_cards g tp) = Some top
                        ∧ value (card_at g card) = value (card_at g top) + 1))
            | _ =>
                (pile_cards g tp = [] ∧ value (card_at g card) = 13)
                ∨ (∃ top, last (pile_cards g tp) = Some top
                     ∧ value (card_at g card) = value (card_at g top) - 1
                     ∧ is_red (card_at g card) ≠ is_red (card_at g top))
            end)
       ∧ (success resp = true →
          moves_count g' = moves_count g + 1
          ∧ g' ≠ g
          ∧ (is_copy tp = false → last (pile_cards g' tp) = Some card))).
Proof.
  intros Hf Ht Hfp Htp (Hcard & Hidx) Hdown.
  destruct (decide (S i = length (pile_cards g fp))) as [Hlast|Hnot].
  - assert (Hsel : selects g fp card_index i card).
    { split; [done|]. split; [done|]. by right. }
    destruct (face_down_last_card_by_rule _ _ _ _ _ _ _ _ Hf Ht Hfp Htp Hsel Hdown)
      as (Hl & resp & g' & Hmove & Hmsg & Hiff).
    exists resp, g'. split; [done|]. split; [by split|].
    split; [done|]. intros _. split; [done|]. split; [done|].
    intros Hok.
    destruct (move_card_success_inv _ _ _ _ _ _ Hmove Hok)
      as (fp' & tp' & i' & card' & moved & rest & _ & _ & Hfp' & Htp' & Hsel'
          & Hrule & Hcm).
    assert (fp' = fp) as -> by congruence.
    assert (tp' = tp) as -> by congruence.
    destruct (selects_unique _ _ _ _ _ _ _ Hsel' Hsel) as [-> ->].
    assert (Hmoved : moved = [card]).
    { destruct Hrule as [(_ & _ & -> & _)|(_ & _ & -> & _)]; [done|].
      rewrite (drop_S _ _ _ Hcard), drop_ge by lia. done. }
    subst moved.
    destruct (move_card_success_fields g fp tp [card] rest resp g'
                ltac:(done) Hcm) as (Htab & Hfo & _ & _ & _ & Hcount & _).
    split; [done|]. split; [intros ->; lia|].
    intros Hcopy. apply is_copy_engine_pile in Hcopy.
    apply get_pile_valid in Hfp, Htp.
    set (g1 := (pile_assign g fp rest).1) in *.
    assert (Hpile : pile_cards g' tp = pile_cards g1 tp ++ [card]).
    { transitivity
        (pile_cards (pile_assign g1 tp (pile_cards g1 tp ++ [card])).1 tp).
      - destruct tp; simpl; by rewrite ?Htab, ?Hfo.
      - apply pile_cards_assign_eq; [done|]. by apply pile_assign_valid. }
    by rewrite Hpile, last_snoc.
  - assert (Hi : card_index = Z.of_nat i) by (destruct Hidx as [?|[_ ?]]; done).
    assert (Hlen : (i < length (pile_cards g fp))%nat)
      by (by eapply lookup_lt_Some).
    exists (respond false CartaBocaAbajo g).1, g.
    split; [|by repeat split].
    unfold move_card. rewrite Hf, Ht, Hfp, Htp. simpl.
    replace (Z.of_nat (length (pile_cards g fp)) =? 0) with false
      by (symmetry; apply Z.eqb_neq; lia).
    replace (card_index =? -1) with false by (symmetry; apply Z.eqb_neq; lia).
    replace ((card_index <? 0)
             || (card_index >=? Z.of_nat (length (pile_cards g fp))))
      with false.
    2:{ symmetry. apply orb_false_intro; [apply Z.ltb_ge; lia|].
        rewrite Z.geb_leb. apply Z.leb_gt. lia. }
    rewrite Hi, Nat2Z.id, Hcard, Hdown. simpl.
    replace (Z.of_nat i =? Z.of_nat (length (pile_cards g fp)) - 1) with false
      by (symmetry; apply Z.eqb_neq; lia).
    reflexivity.
Qed.

(** The face-down king of [open_column_game] and the empty column. *)
Lemma face_down_king_moves_by_rule :
  ∃ resp g',
    move_card open_column_game "stock" "tableau_0" (-1) = Ok (resp, g')
    ∧ success resp = true
    ∧ moves_count g' = moves_count open_column_game + 1.
Proof.
  destruct (face_down_top_card_moves_by_rule open_column_game "stock" "tableau_0"
              (-1) (CopyPile (stock open_column_game)) (TableauPile 0) 23 51%nat)
    as (resp & g' & Hmove & _ & _ & Hlast).
  - vm_compute; reflexivity.
  - vm_compute; reflexivity.
  - vm_compute; reflexivity.
  - vm_compute; reflexivity.
  - unfold addresses. split; [vm_compute; reflexivity|].
    right. vm_compute. split; reflexivity.
  - vm_compute; reflexivity.
  - assert (Hlen : 24%nat = length (pile_cards open_column_game
                                      (CopyPile (stock open_column_game))))
      by (vm_compute; reflexivity).
    destruct (Hlast Hlen) as (_ & Hiff & Hchange).
    assert (Hok : success resp = true).
    { apply Hiff. left. split; vm_compute; reflexivity. }
    exists resp, g'. split; [exact Hmove|]. split; [exact Hok|].
    exact (proj1 (Hchange Hok)).
Defined.

(** ** Location strings *)

Lemma list_ascii_of_string_app s1 s2 :
  list_ascii_of_string (s1 +:+ s2)
  = list_ascii_of_string s1 ++ list_ascii_of_string s2.
Proof. induction s1 as [|c s1 IH]; simpl; [done|by rewrite IH]. Qed.

Lemma string_of_list_ascii_app l1 l2 :
  string_of_list_ascii (l1 ++ l2)
  = string_of_list_ascii l1 +:+ string_of_list_ascii l2.
Proof. induction l1 as [|c l1 IH]; simpl; [done|by rewrite IH]. Qed.

Lemma append_empty_r s : s +:+ EmptyString = s.
Proof.
  induction s as [|c s IH]; [done|].
  change (String c (s +:+ EmptyString) = String c s). by rewrite IH.
Qed.

(** The words of the pattern. *)
Lemma lang_pattern_iff w :
  Re.lang pattern w ↔
    (∃ d, PyStr.is_digit d = true ∧ w = list_ascii_of_string "tableau_" ++ [d])
    ∨ (∃ c u, PyStr.is_word c = true ∧ forallb PyStr.is_word u = true
              ∧ w = list_ascii_of_string "foundation_" ++ c :: u)
    ∨ w = list_ascii_of_string "waste"
    ∨ w = list_ascii_of_string "stock".
Proof.
  unfold pattern. split.
  - intros H. apply ReFacts.lang_alt_inv in H as [H|H].
    { apply ReFacts.lang_cat_inv in H as (w1 & w2 & -> & H1 & H2).
      apply ReFacts.lang_lit in H1 as ->.
      apply ReFacts.lang_class_inv in H2 as (d & -> & Hd). left. eauto. }
    apply ReFacts.lang_alt_inv in H as [H|H].
    { apply ReFacts.lang_cat_inv in H as (w1 & w2 & -> & H1 & H2).
      apply ReFacts.lang_lit in H1 as ->.
      apply ReFacts.lang_cat_inv in H2 as (u1 & u2 & -> & H2 & H3).
      apply ReFacts.lang_class_inv in H2 as (c & -> & Hc).
      apply ReFacts.lang_star_class in H3. right. left. eauto. }
    apply ReFacts.lang_alt_inv in H as [H|H]; apply ReFacts.lang_lit in H as ->; auto.
  - intros [(d & Hd & ->)|[(c & u & Hc & Hu & ->)|[->| ->]]].
    + apply Re.lang_alt_l. constructor; [by apply ReFacts.lang_lit|by constructor].
    + apply Re.lang_alt_r, Re.lang_alt_l. constructor; [by apply ReFacts.lang_lit|].
      change (c :: u) with ([c] ++ u). constructor; [by constructor|].
      by apply ReFacts.lang_star_class.
    + apply Re.lang_alt_r, Re.lang_alt_r, Re.lang_alt_l. by apply ReFacts.lang_lit.
    + apply Re.lang_alt_r, Re.lang_alt_r, Re.lang_alt_r. by apply ReFacts.lang_lit.
Qed.

(** X3: the location strings [move_card] lets through are exactly
    [tableau_] followed by one digit, [foundation_] followed by one or
    more word characters (underscores included), [waste] and [stock],
    each of them also with one newline at its end. *)
Theorem re_match_iff s :
  re_match s = true ↔
  ∃ core nl,
    s = core +:+ nl
    ∧ (nl = EmptyString ∨ nl = newline)
    ∧ ((∃ d, PyStr.is_digit d = true ∧ core = "tableau_" +:+ String d EmptyString)
       ∨ (∃ c rest, PyStr.is_word c = true
            ∧ forallb PyStr.is_word (list_ascii_of_string rest) = true
            ∧ core = "foundation_" +:+ String c rest)
       ∨ core = "waste"%string
       ∨ core = "stock"%string).
Proof.
  split.
  - intros H. apply re_match_lang in H as (w & Hw & Hs).
    exists (string_of_list_ascii w).
    assert (Hcore : (∃ d, PyStr.is_digit d = true
                       ∧ string_of_list_ascii w = "tableau_" +:+ String d EmptyString)
              ∨ (∃ c rest, PyStr.is_word c = true
                   ∧ forallb PyStr.is_word (list_ascii_of_string rest) = true
                   ∧ string_of_list_ascii w = "foundation_" +:+ String c rest)
              ∨ string_of_list_ascii w = "waste"%string
              ∨ string_of_list_ascii w = "stock"%string).
    { apply lang_pattern_iff in Hw as [(d & Hd & ->)|[(c & u & Hc & Hu & ->)|[->| ->]]].
      - left. exists d. by split.
      - right. left. exists c, (string_of_list_ascii u). split; [done|].
        rewrite list_ascii_of_string_of_list_ascii. by split.
      - by right; right; left.
      - by right; right; right. }
    destruct Hs as [Hs|Hs].
    + exists EmptyString. split; [|by split; [left|]].
      by rewrite <- Hs, string_of_list_ascii_of_string, append_empty_r.
    + exists newline. split; [|by split; [right|]].
      rewrite <- (string_of_list_ascii_of_string s), Hs.
      by rewrite string_of_list_ascii_app.
  - intros (core & nl & -> & Hnl & Hcore).
    assert (Hlang : Re.lang pattern (list_ascii_of_string core)).
    { apply lang_pattern_iff.
      destruct Hcore as [(d & Hd & ->)|[(c & rest & Hc & Hrest & ->)|[->| ->]]].
      - left. exists d. by split.
      - right. left. exists c, (list_ascii_of_string rest). by repeat split.
      - by right; right; left.
      - by right; right; right. }
    apply ReFacts.matches_lang in Hlang.
    unfold re_match, Re.fullmatch_dollar. rewrite list_ascii_of_string_app.
    destruct Hnl as [-> | ->]; simpl.
    + rewrite app_nil_r, Hlang. done.
    + rewrite rev_app_distr. simpl. rewrite rev_involutive, Hlang.
      apply orb_true_r.
Qed.

Lemma closed_grammar_cases s :
  in_closed_grammar s = true →
  (∃ j, (j < 7)%nat ∧ s = tableau_location j)
  ∨ (∃ k, k ∈ SUITS ∧ s = foundation_location k)
  ∨ s = "waste"%string ∨ s = "stock"%string.
Proof.
  unfold in_closed_grammar. intros H. apply ReFacts.matches_lang in H.
  rewrite <- (string_of_list_ascii_of_string s).
  revert H. generalize (list_ascii_of_string s). intros w H.
  unfold closed_grammar in H.
  apply ReFacts.lang_alt_inv in H as [H|H].
  { apply ReFacts.lang_cat_inv in H as (w1 & w2 & -> & H1 & H2).
    apply ReFacts.lang_lit in H1 as ->.
    apply ReFacts.lang_class_inv in H2 as (d & -> & Hd).
    apply andb_prop in Hd as [Hlo Hhi].
    apply Nat.leb_le in Hlo, Hhi.
    left. exists (nat_of_ascii d - 48)%nat. split; [lia|].
    unfold tableau_location.
    replace (48 + (nat_of_ascii d - 48))%nat with (nat_of_ascii d) by lia.
    by rewrite ascii_nat_embedding. }
  apply ReFacts.lang_alt_inv in H as [H|H].
  { apply ReFacts.lang_cat_inv in H as (w1 & w2 & -> & H1 & H2).
    apply ReFacts.lang_lit in H1 as ->. right. left.
    repeat (apply ReFacts.lang_alt_inv in H2 as [H2|H2]);
      apply ReFacts.lang_lit in H2 as ->.
    - exists "hearts"%string. split; [|done]. apply elem_of_cons. by left.
    - exists "diamonds"%string. split; [|done].
      apply elem_of_cons. right. apply elem_of_cons. by left.
    - exists "clubs"%string. split; [|done]. unfold SUITS.
      do 2 (apply elem_of_cons; right). apply elem_of_cons. by left.
    - exists "spades"%string. split; [|done]. unfold SUITS.
      do 3 (apply elem_of_cons; right). apply elem_of_cons. by left. }
  apply ReFacts.lang_alt_inv in H as [H|H]; apply ReFacts.lang_lit in H as ->; auto.
Qed.

(** X4: in every state of a game, each location of the closed grammar
    resolves to a pile: a tableau location to that column, a foundation
    location to the foundation of that suit, [waste] and [stock] to a
    copy of the waste and of the stock. *)
Theorem closed_grammar_resolves g s :
  reachable g →
  in_closed_grammar s = true →
  ∃ p, get_pile g s = Ok (Some p)
    ∧ ((∃ j, (j < 7)%nat ∧ s = tableau_location j ∧ p = TableauPile j)
       ∨ (∃ k, k ∈ SUITS ∧ s = foundation_location k ∧ p = FoundationPile k)
       ∨ (s = "waste"%string ∧ p = CopyPile (waste g))
       ∨ (s = "stock"%string ∧ p = CopyPile (stock g))).
Proof.
  intros Hg Hs. destruct (reachable_shape g Hg) as [Hlen Hkeys].
  apply closed_grammar_cases in Hs as [(j & Hj & ->)|[(k & Hk & ->)|[->| ->]]].
  - destruct (lookup_lt_is_Some_2 (tableau g) j) as [dest Hdest]; [lia|].
    destruct (tableau_location_resolves g j dest Hj Hdest) as (_ & Hp & _).
    eexists. split; [exact Hp|]. left. eauto.
  - destruct (proj2 (Hkeys k) Hk) as [dest Hdest].
    destruct (foundation_location_resolves g k dest Hk Hdest) as (_ & Hp & _).
    eexists. split; [exact Hp|]. right. left. eauto.
  - eexists. split; [reflexivity|]. right. right. left. done.
  - eexists. split; [reflexivity|]. right. right. right. done.
Qed.

Lemma closed_grammar_resolves_dealt :
  ∃ p, get_pile dealt_game "tableau_6" = Ok (Some p).
Proof.
  destruct (closed_grammar_resolves dealt_game "tableau_6" reachable_dealt_game)
    as (p & Hp & _).
  - vm_compute. reflexivity.
  - exists p. exact Hp.
Defined.

(** ** Draws *)

Lemma draw_from_stock_card_key g r :
  card_key (card_at (draw_from_stock g).2 r) = card_key (card_at g r).
Proof.
  unfold draw_from_stock. destruct (stock g) as [|card rest]; simpl.
  - by destruct (recycle_spec (length (waste g)) g (le_n _))
      as (_ & _ & _ & _ & _ & _ & _ & _ & _ & Hk).
  - change (card_key (card_at (with_store
               (assign_face_up card true (store (with_stock rest g)))
               (with_stock rest g)) r) = card_key (card_at g r)).
    rewrite card_at_assign. by case_decide; subst.
Qed.

Lemma draw_from_stock_all_cards g :
  all_cards (draw_from_stock g).2 ≡ₚ all_cards g.
Proof.
  unfold draw_from_stock. destruct (stock g) as [|card rest] eqn:Hstock; simpl.
  - destruct (recycle_spec (length (waste g)) g (le_n _))
      as (Hw & Hs & _ & Ht & Hf & _).
    unfold all_cards. rewrite Hw, Hs, Ht, Hf, Hstock. simpl.
    rewrite app_nil_r, <- Permutation_rev. done.
  - unfold all_cards. simpl. rewrite Hstock. solve_Permutation.
Qed.

(** X6: a call of [draw_from_stock], whether it draws or recycles, keeps
    the cards of the game: the piles afterwards hold the same cards as
    before, each as often as before, and no card changes its suit or
    rank. *)
Theorem draw_keeps_cards g :
  all_cards (draw_from_stock g).2 ≡ₚ all_cards g
  ∧ ∀ r, card_key (card_at (draw_from_stock g).2 r) = card_key (card_at g r).
Proof.
  split; [apply draw_from_stock_all_cards|apply draw_from_stock_card_key].
Qed.

Lemma draws_succ_r n g : draws (S n) g = draws n (draw_from_stock g).2.
Proof. unfold draws. by rewrite Nat.iter_succ_r. Qed.

Lemma draws_add n m g : draws (n + m) g = draws n (draws m g).
Proof. unfold draws. by rewrite Nat.iter_add. Qed.

(** Drawing as many times as the stock has cards moves the whole stock
    onto the waste, in order. *)
Lemma draws_empty_stock n : ∀ g,
  length (stock g) = n →
  stock (draws n g) = []
  ∧ waste (draws n g) = waste g ++ stock g
  ∧ moves_count (draws n g) = moves_count g + Z.of_nat n
  ∧ tableau (draws n g) = tableau g
  ∧ foundations (draws n g) = foundations g.
Proof.
  induction n as [|n IH]; intros g Hlen.
  - destruct (stock g) eqn:Hstock; [|discriminate]. unfold draws. simpl.
    rewrite Hstock, app_nil_r. repeat split; try done. lia.
  - rewrite draws_succ_r.
    destruct (stock g) as [|card rest] eqn:Hstock; [discriminate|].
    injection Hlen as Hlen.
    assert (Hdraw : (draw_from_stock g).2
                    = with_moves_count (moves_count g + 1)
                        (with_waste (waste g ++ [card])
                           (with_store (assign_face_up card true (store g))
                              (with_stock rest g)))).
    { unfold draw_from_stock. by rewrite Hstock. }
    rewrite Hdraw.
    destruct (IH (with_moves_count (moves_count g + 1)
                    (with_waste (waste g ++ [card])
                       (with_store (assign_face_up card true (store g))
                          (with_stock rest g)))) Hlen)
      as (H1 & H2 & H3 & H4 & H5).
    simpl in *. rewrite H1, H2, H3, H4, H5, <- app_assoc.
    repeat split; try done. lia.
Qed.

(** X7: drawing once more than the stock has cards goes through the whole
    stock and recycles it: the stock is then the former waste and stock
    in reverse order, the last card drawn first, every one of these cards
    face down, the waste is empty, and each draw but the recycling one
    has been counted.  A second such round restores the order of a stock
    that was started with an empty waste. *)
Theorem draw_round g :
  let n := length (stock g) in
  let g' := draws (S n) g in
  stock g' = rev (waste g ++ stock g)
  ∧ waste g' = []
  ∧ moves_count g' = moves_count g + Z.of_nat n
  ∧ (∀ r, r ∈ waste g ++ stock g → face_up (card_at g' r) = false)
  ∧ (waste g = [] →
     stock (draws (S n + S n) g) = stock g
     ∧ waste (draws (S n + S n) g) = []
     ∧ moves_count (draws (S n + S n) g) = moves_count g + 2 * Z.of_nat n).
Proof.
  assert (Hround : ∀ g,
    stock (draws (S (length (stock g))) g) = rev (waste g ++ stock g)
    ∧ waste (draws (S (length (stock g))) g) = []
    ∧ moves_count (draws (S (length (stock g))) g)
      = moves_count g + Z.of_nat (length (stock g))
    ∧ (∀ r, r ∈ waste g ++ stock g →
         face_up (card_at (draws (S (length (stock g))) g) r) = false)).
  { clear g. intros g.
    destruct (draws_empty_stock (length (stock g)) g eq_refl)
      as (Hs & Hw & Hm & _).
    change (draws (S (length (stock g))) g)
      with ((draw_from_stock (draws (length (stock g)) g)).2).
    set (g1 := draws (length (stock g)) g) in *.
    unfold draw_from_stock. rewrite Hs. simpl.
    destruct (recycle_spec (length (waste g1)) g1 (le_n _))
      as (R1 & R2 & _ & _ & _ & R6 & _ & R8 & _).
    split; [by rewrite R2, Hs, Hw|]. split; [done|].
    split; [by rewrite R6, Hm|].
    intros r Hr. apply R8. by rewrite Hw. }
  intros n g'. subst g' n.
  destruct (Hround g) as (H1 & H2 & H3 & H4).
  repeat (split; [done|]).
  intros Hwaste. rewrite draws_add.
  rewrite Hwaste, app_nil_l in H1.
  destruct (Hround (draws (S (length (stock g))) g)) as (K1 & K2 & K3 & _).
  rewrite H1, length_rev in K1, K2, K3.
  rewrite K1, K2, K3, H2, H3, app_nil_l, rev_involutive.
  repeat split; try done. lia.
Qed.

(** ** The order of the foundations *)

Lemma empty_foundations_lookup k pile :
  empty_foundations !! k = Some pile → pile = [].
Proof.
  unfold empty_foundations. intros H.
  repeat (apply lookup_insert_Some in H as [[_ <-]|[_ H]]; [done|]).
  by rewrite lookup_empty in H.
Qed.

(** X9: in every state of a game, each foundation holds cards of the suit
    of its key only, with the ranks 1, 2, 3, ... from the bottom up: the
    foundations are built in suit, ascending from the ace, whatever moves
    are tried. *)
Theorem foundations_stay_in_order g : reachable g → foundations_in_order g.
Proof.
  induction 1 as [rng g Hrng|g Hg IH|g fl tl ci resp g' Hg IH Hmove].
  - intros k pile j r Hk Hj.
    destruct (new_game_foundations rng g Hrng) as [Hf _]. rewrite Hf in Hk.
    apply empty_foundations_lookup in Hk as ->. rewrite lookup_nil in Hj.
    discriminate Hj.
  - intros k pile j r Hk Hj. rewrite draw_from_stock_card_key.
    destruct (draw_from_stock_foundations g) as [Hf _]. rewrite Hf in Hk.
    by eapply IH.
  - destruct (success resp) eqn:Hok.
    2:{ by destruct (move_card_failure_inv _ _ _ _ _ _ Hmove Hok) as [-> _]. }
    intros k pile j r Hk Hj.
    rewrite (move_card_card_key _ _ _ _ _ _ r Hmove).
    destruct (move_card_success_inv _ _ _ _ _ _ Hmove Hok)
      as (fp & tp & i & card & moved & rest & _ & Hre & Hfp & Htp & Hsel
          & Hrule & Hcm).
    pose proof (get_pile_shape g tl tp Hre Htp) as Hshape.
    apply get_pile_valid in Hfp, Htp.
    destruct Hsel as (Hcard & _).
    assert (Hmoved : moved ≠ []).
    { destruct Hrule as [(_ & _ & -> & _)|(_ & _ & -> & _)]; [done|].
      intros Hnil. apply (f_equal length) in Hnil.
      rewrite length_drop in Hnil. simpl in Hnil.
      apply lookup_lt_Some in Hcard. lia. }
    destruct (move_card_success_fields g fp tp moved rest resp g' Hmoved Hcm)
      as (_ & Hfo & _).
    rewrite Hfo in Hk. clear Hfo Hcm Hmove.
    destruct Hrule as [(Hc & Hrule & -> & ->)|(Hc & _ & -> & ->)].
    + (* onto a foundation *)
      destruct tp as [?|k0|?]; [destruct Hshape; congruence| |congruence].
      destruct Hshape as (_ & Hk0 & [dest Hdest]).
      destruct (can_move_to_foundation_rule g card tl dest) as (b & Hb & Hiff);
        [by rewrite <- Hk0|].
      rewrite Hrule in Hb. injection Hb as <-.
      destruct (proj1 Hiff eq_refl) as [Hsuit Hrank]. rewrite <- Hk0 in Hsuit.
      assert (Hnotf : ∀ k1, fp ≠ FoundationPile k1).
      { intros k1 ->. simpl in Hcard, Hfp. destruct Hfp as [cards Hcards].
        rewrite Hcards in Hcard. simpl in Hcard.
        pose proof (IH k1 cards i card Hcards Hcard) as Hkey.
        unfold card_key in Hkey. injection Hkey as Hs Hv.
        assert (k1 = k0) as -> by congruence.
        assert (dest = cards) as -> by congruence.
        destruct Hrank as [[-> _]|(top & Htop & Hval)];
          [by rewrite lookup_nil in Hcard|].
        rewrite last_lookup in Htop.
        pose proof (IH k0 cards _ top Hcards Htop) as Hkey.
        unfold card_key in Hkey. injection Hkey as _ Hv'.
        apply lookup_lt_Some in Hcard. lia. }
      assert (Hf1 : foundations (pile_assign g fp (delete i (pile_cards g fp))).1
                    = foundations g).
      { destruct fp as [?|k1|?]; [done| |done]. by destruct (Hnotf k1). }
      simpl in Hk. rewrite Hf1, Hdest in Hk. simpl in Hk.
      destruct (decide (k = k0)) as [->|Hne].
      * rewrite lookup_insert_eq in Hk. injection Hk as <-.
        apply lookup_app_Some in Hj as [Hj|[Hlen Hj]]; [by eapply IH|].
        apply list_lookup_singleton_Some in Hj as [Hj <-].
        unfold card_key. rewrite Hsuit. f_equal.
        destruct Hrank as [[-> Hv]|(top & Htop & Hval)].
        -- simpl in *. lia.
        -- rewrite last_lookup in Htop.
           pose proof (IH k0 dest _ top Hdest Htop) as Hkey.
           unfold card_key in Hkey. injection Hkey as _ Hv'.
           apply lookup_lt_Some in Htop. lia.
      * rewrite lookup_insert_ne in Hk by done. by eapply IH.
    + (* onto a column, or onto a copy of the waste or the stock *)
      assert (Hf2 : ∀ g0, pile_valid g0 tp →
                foundations (pile_assign g0 tp (pile_cards g0 tp ++ drop i (pile_cards g fp))).1
                = foundations g0).
      { intros g0 _. destruct tp as [?|k0|?]; [done| |done].
        destruct Hshape as (Hc' & _). congruence. }
      rewrite Hf2 in Hk by (by apply pile_assign_valid).
      destruct fp as [?|k1|?]; simpl in Hk; [by eapply IH| |by eapply IH].
      destruct Hfp as [cards Hcards]. simpl in Hcard. rewrite Hcards in Hk, Hcard.
      simpl in Hk, Hcard.
      destruct (decide (k = k1)) as [->|Hne].
      * rewrite lookup_insert_eq in Hk. injection Hk as <-.
        apply lookup_take_Some in Hj as [Hj _]. by eapply IH.
      * rewrite lookup_insert_ne in Hk by done. by eapply IH.
Qed.

(** The thirteenth card of the spades foundation of the won game is the
    king of spades. *)
Lemma foundations_stay_in_order_won :
  card_key (card_at won_game 51%nat) = ("spades"%string, 13).
Proof.
  apply (foundations_stay_in_order won_game reachable_won_game "spades"
           (seq 39 13) 12%nat 51%nat); vm_compute; reflexivity.
Defined.

(** ** Instances on the example games *)

Lemma queen_move_succeeds :
  move_card dealt_game "tableau_0" "tableau_4" (-1)
  = Ok (respond true MovimientoExitoso queen_moved_game).
Proof. vm_compute. reflexivity. Qed.

(** The move of the queen of diamonds keeps the cards of [dealt_game]. *)
Lemma move_between_engine_piles_keeps_cards_dealt :
  all_cards queen_moved_game ≡ₚ all_cards dealt_game.
Proof.
  apply (move_between_engine_piles_keeps_cards dealt_game "tableau_0" "tableau_4"
           (-1) _ _ queen_move_succeeds); discriminate.
Defined.

(** The move of the queen of diamonds empties column 0 and puts the queen
    on top of column 4. *)
Lemma move_between_engine_piles_effect_dealt :
  pile_cards queen_moved_game (TableauPile 0) = []
  ∧ pile_cards queen_moved_game (TableauPile 4) = [34; 35; 36; 37; 38; 24]%nat.
Proof.
  destruct (move_between_engine_piles_effect dealt_game "tableau_0" "tableau_4"
              (-1) _ _ (TableauPile 0) (TableauPile 4) 0 24%nat queen_move_succeeds)
    as (H1 & H2 & _).
  - reflexivity.
  - vm_compute. reflexivity.
  - vm_compute. reflexivity.
  - exact I.
  - exact I.
  - discriminate.
  - unfold selects. split; [vm_compute; reflexivity|].
    split; right; vm_compute; [split; reflexivity|reflexivity].
  - split.
    + rewrite H1. vm_compute. reflexivity.
    + rewrite H2. vm_compute. reflexivity.
Defined.

(** ** What a move does to the cards of the game *)

(** The cards of the game before and after a successful move. *)
Lemma move_card_accounting
    g from_location to_location card_index resp g' fp tp i card :
  move_card g from_location to_location card_index = Ok (resp, g') →
  success resp = true →
  get_pile g from_location = Ok (Some fp) →
  get_pile g to_location = Ok (Some tp) →
  selects g fp card_index i card →
  let moved := if PyStr.contains "foundation" to_location
               then [card] else drop i (pile_cards g fp) in
  all_cards g' ++ (if is_copy fp then [] else moved)
  ≡ₚ all_cards g ++ (if is_copy tp then [] else moved).
Proof.
  intros Hmove Hok Hfp Htp Hsel moved.
  destruct (move_card_success_inv _ _ _ _ _ _ Hmove Hok)
    as (fp' & tp' & i' & card' & moved' & rest & _ & _ & Hfp' & Htp' & Hsel'
        & Hrule & Hcm).
  assert (fp' = fp) as -> by congruence.
  assert (tp' = tp) as -> by congruence.
  destruct (selects_unique _ _ _ _ _ _ _ Hsel' Hsel) as [-> ->].
  assert (moved' = moved) as ->.
  { subst moved. by destruct Hrule as [(-> & _ & -> & _)|(-> & _ & -> & _)]. }
  destruct Hsel as (Hcard & _).
  assert (Hsplit : pile_cards g fp ≡ₚ rest ++ moved ∧ moved ≠ []).
  { subst moved.
    destruct Hrule as [(-> & _ & _ & ->)|(-> & _ & _ & ->)].
    - split; [|done].
      transitivity (card :: delete i (pile_cards g fp));
        [by apply delete_Permutation|solve_Permutation].
    - split; [by rewrite take_drop|]. intros Hnil.
      apply (f_equal length) in Hnil. rewrite length_drop in Hnil. simpl in Hnil.
      apply lookup_lt_Some in Hcard. lia. }
  destruct Hsplit as [Hsplit Hmoved]. clearbody moved.
  apply get_pile_valid in Hfp, Htp.
  destruct (move_card_success_fields g fp tp moved rest resp g' Hmoved Hcm)
    as (Ht & Hfo & Hs & Hw & _).
  set (g1 := (pile_assign g fp rest).1) in *.
  set (g2 := (pile_assign g1 tp (pile_cards g1 tp ++ moved)).1) in *.
  assert (Hg2 : all_cards g' = all_cards g2).
  { unfold all_cards. rewrite Ht, Hfo, Hs, Hw.
    assert (stock g2 = stock g ∧ waste g2 = waste g) as [-> ->]; [|done].
    subst g2 g1. by destruct fp, tp. }
  rewrite Hg2.
  assert (H1 : all_cards g1 ++ (if is_copy fp then [] else moved) ≡ₚ all_cards g).
  { destruct (is_copy fp) eqn:Hcf.
    - subst g1. by rewrite pile_assign_copy, app_nil_r.
    - apply is_copy_engine_pile in Hcf.
      pose proof (pile_assign_cards g fp rest Hcf Hfp) as H. fold g1 in H.
      apply (Permutation_app_inv_r rest).
      rewrite <- H, Hsplit. solve_Permutation. }
  assert (H2 : all_cards g2 ≡ₚ all_cards g1 ++ (if is_copy tp then [] else moved)).
  { destruct (is_copy tp) eqn:Hct.
    - subst g2. by rewrite pile_assign_copy, app_nil_r.
    - apply is_copy_engine_pile in Hct.
      pose proof (pile_assign_cards g1 tp (pile_cards g1 tp ++ moved) Hct
                    (pile_assign_valid g fp rest tp Hfp Htp)) as H. fold g2 in H.
      apply (Permutation_app_inv_r (pile_cards g1 tp)). rewrite H.
      solve_Permutation. }
  rewrite H2, <- H1. solve_Permutation.
Qed.

(** X11: the cards of the game after a successful move, counted over all
    piles.  The moved cards leave the game only when the source is a
    tableau column or a foundation, and enter it only when the
    destination is one: a move out of the waste or the stock leaves the
    moved cards in their source as well (the game gains them), a move
    onto the waste or the stock puts them in no pile (the game loses
    them). *)
Theorem move_card_accounts_for_cards
    g from_location to_location card_index resp g' fp tp i card :
  move_card g from_location to_location card_index = Ok (resp, g') →
  success resp = true →
  get_pile g from_location = Ok (Some fp) →
  get_pile g to_location = Ok (Some tp) →
  selects g fp card_index i card →
  let moved := if PyStr.contains "foundation" to_location
               then [card] else drop i (pile_cards g fp) in
  all_cards g' ++ (if is_copy fp then [] else moved)
  ≡ₚ all_cards g ++ (if is_copy tp then [] else moved).
Proof.
  intros Hmove Hok Hfp Htp Hsel.
  exact (move_card_accounting _ _ _ _ _ _ _ _ _ _ Hmove Hok Hfp Htp Hsel).
Qed.

(** The ace of hearts moved from the waste of [drawn_game] to its
    foundation is in the game twice afterwards. *)
Lemma move_card_accounts_for_cards_drawn :
  all_cards ace_moved_game ++ [] ≡ₚ all_cards drawn_game ++ [0%nat].
Proof.
  assert (Hmove : move_card drawn_game "waste" "foundation_hearts" (-1)
                  = Ok ((respond true MovimientoExitoso ace_moved_game).1,
                        ace_moved_game)) by (vm_compute; reflexivity).
  assert (Hfp : get_pile drawn_game "waste" = Ok (Some (CopyPile [0%nat])))
    by (vm_compute; reflexivity).
  assert (Htp : get_pile drawn_game "foundation_hearts"
                = Ok (Some (FoundationPile "hearts")))
    by (vm_compute; reflexivity).
  assert (Hsel : selects drawn_game (CopyPile [0%nat]) (-1) 0%nat 0%nat).
  { unfold selects. split; [reflexivity|].
    split; right; [split; reflexivity|reflexivity]. }
  exact (move_card_accounts_for_cards drawn_game "waste" "foundation_hearts" (-1)
           _ _ (CopyPile [0%nat]) (FoundationPile "hearts") 0%nat 0%nat
           Hmove eq_refl Hfp Htp Hsel).
Defined.



(** ** Foundation moves out of the waste *)

(** C5 (violated by the code): in [drawn_game], a state of a game, the
    waste holds the ace of hearts and the hearts foundation is empty; the
    call that moves the ace to its foundation succeeds, and the
    foundation receives the ace, but no card has moved: the waste still
    holds the ace, every other pile is as before, and the game has one
    card more than before. *)
Theorem foundation_move_copies_waste_card :
  reachable drawn_game
  ∧ waste drawn_game = [0%nat]
  ∧ card_key (card_at drawn_game 0%nat) = ("hearts"%string, 1)
  ∧ foundations drawn_game !! "hearts"%string = Some []
  ∧ move_card drawn_game "waste" "foundation_hearts" (-1)
    = Ok (respond true MovimientoExitoso ace_moved_game)
  ∧ foundations ace_moved_game !! "hearts"%string = Some [0%nat]
  ∧ waste ace_moved_game = waste drawn_game
  ∧ stock ace_moved_game = stock drawn_game
  ∧ tableau ace_moved_game = tableau drawn_game
  ∧ length (all_cards drawn_game) = 52%nat
  ∧ length (all_cards ace_moved_game) = 53%nat.
Proof.
  split; [apply reachable_drawn_game|].
  evaluate.
Qed.

(** ** Cards and decks *)

Lemma valid_card_new_card c :
  valid_card c → new_card (suit c) (value c) (face_up c) = Ok c.
Proof.
  intros [Hs [Hlo Hhi]]. unfold new_card.
  rewrite (bool_decide_eq_true_2 _ Hs). simpl.
  replace (value c <? 1) with false by (symmetry; apply Z.ltb_ge; lia).
  replace (value c >? 13) with false
    by (symmetry; rewrite Z.gtb_ltb; apply Z.ltb_ge; lia).
  simpl. by destruct c.
Qed.

Lemma new_card_inv s v up c :
  new_card s v up = Ok c → c = mkCard s v up ∧ valid_card c.
Proof.
  unfold new_card. case_bool_decide as Hs; simpl; [|discriminate].
  destruct (v <? 1) eqn:Hlo; simpl; [discriminate|].
  destruct (v >? 13) eqn:Hhi; simpl; [discriminate|].
  intros [= <-]. split; [done|]. split; [done|]. simpl.
  apply Z.ltb_ge in Hlo. rewrite Z.gtb_ltb in Hhi. apply Z.ltb_ge in Hhi. lia.
Qed.

Lemma new_card_raises s v up e : new_card s v up = Raise e → e = ValueError.
Proof.
  unfold new_card. case_bool_decide; simpl; [|congruence].
  destruct ((v <? 1) || (v >? 13)); [congruence|discriminate].
Qed.

Lemma invalid_card_new_card c :
  ¬ valid_card c → new_card (suit c) (value c) (face_up c) = Raise ValueError.
Proof.
  intros Hc. destruct (new_card (suit c) (value c) (face_up c)) as [c'|e] eqn:Hnew.
  - apply new_card_inv in Hnew as [-> Hv]. destruct Hc. by destruct c.
  - by apply new_card_raises in Hnew as ->.
Qed.

(** X13: [Card.from_dict] reads back the dict of [Card.to_dict] exactly
    for the cards the constructor accepts and raises [ValueError] for
    every other card; on any dict, it raises [KeyError] exactly when the
    suit or the value is missing, a missing [face_up] gives a face-down
    card, and every card it returns is valid and has the suit and the
    value of the dict. *)
Theorem card_dict_round_trip c data :
  (valid_card c → card_from_dict (card_data c) = Ok c)
  ∧ (¬ valid_card c → card_from_dict (card_data c) = Raise ValueError)
  ∧ (card_from_dict data = Raise KeyError
     ↔ data_suit data = None ∨ data_value data = None)
  ∧ (∀ c', card_from_dict data = Ok c' →
       valid_card c'
       ∧ data_suit data = Some (suit c') ∧ data_value data = Some (value c')
       ∧ face_up c' = default false (data_face_up data)).
Proof.
  split; [apply valid_card_new_card|]. split; [apply invalid_card_new_card|].
  unfold card_from_dict.
  destruct (data_suit data) as [s|]; [|split; [by split; auto|done]].
  destruct (data_value data) as [v|]; [|split; [by split; auto|done]].
  split.
  - split; [|by intros [?|?]].
    intros H. by apply new_card_raises in H.
  - intros c' H. apply new_card_inv in H as [-> Hv]. done.
Qed.

(** *** The operations by index *)

Lemma in_deck_lookup index d :
  in_deck index d = true → is_Some (deck_cards d !! Z.to_nat index).
Proof.
  unfold in_deck. intros H. apply andb_prop in H as [Hlo Hhi].
  apply Z.leb_le in Hlo. apply Z.ltb_lt in Hhi.
  apply lookup_lt_is_Some. lia.
Qed.

(** X14: [delete_card] with an index inside the deck removes and returns
    the card [read_card] finds at that index: the deck is one card
    shorter, [size] is its new length, the cards before the index keep
    their positions and the cards after it move down by one.  With any
    other index, a negative one included, it returns [None] and leaves
    the deck as it is. *)
Theorem delete_card_shifts index d :
  let removed := (delete_card index d).1 in
  let d' := (delete_card index d).2 in
  (in_deck index d = true →
     is_Some removed ∧ removed = read_card index d
     ∧ deck_len d' = deck_len d - 1
     ∧ size d' = deck_len d'
     ∧ shuffled d' = shuffled d
     ∧ ∀ j, read_card j d' = read_card (if j <? index then j else j + 1) d)
  ∧ (in_deck index d = false →
     removed = None ∧ read_card index d = None ∧ d' = d).
Proof.
  unfold delete_card, read_card. destruct (in_deck index d) eqn:Hin; simpl.
  2:{ split; [discriminate|done]. }
  split; [|discriminate]. intros _.
  pose proof (in_deck_lookup _ _ Hin) as Hsome.
  unfold in_deck in Hin. apply andb_prop in Hin as [Hlo Hhi].
  apply Z.leb_le in Hlo. apply Z.ltb_lt in Hhi.
  assert (Hlen : length (delete (Z.to_nat index) (deck_cards d))
                 = (length (deck_cards d) - 1)%nat).
  { by apply length_delete. }
  split; [done|]. split; [done|].
  split; [unfold deck_len; simpl; lia|].
  split; [done|]. split; [done|].
  intros j. unfold in_deck. simpl. rewrite Hlen.
  destruct (Z.ltb_spec j index) as [Hj|Hj].
  - destruct (Z.leb_spec 0 j) as [Hj0|Hj0]; simpl; [|done].
    replace (j <? Z.of_nat (length (deck_cards d) - 1)) with true
      by (symmetry; apply Z.ltb_lt; lia).
    replace (j <? Z.of_nat (length (deck_cards d))) with true
      by (symmetry; apply Z.ltb_lt; lia).
    apply list_lookup_delete_lt. lia.
  - replace (0 <=? j) with true by (symmetry; apply Z.leb_le; lia).
    replace (0 <=? j + 1) with true by (symmetry; apply Z.leb_le; lia).
    simpl.
    destruct (Z.ltb_spec j (Z.of_nat (length (deck_cards d) - 1))) as [Hj1|Hj1].
    + replace (j + 1 <? Z.of_nat (length (deck_cards d))) with true
        by (symmetry; apply Z.ltb_lt; lia).
      rewrite list_lookup_delete_ge by lia.
      f_equal. lia.
    + replace (j + 1 <? Z.of_nat (length (deck_cards d))) with false
        by (symmetry; apply Z.ltb_ge; lia).
      done.
Qed.

(** X15: [update_card] with an index inside the deck returns [True] and
    assigns the given attributes to the card at that index, keeping the
    attributes left out and every other card; with any other index it
    returns [False] and changes nothing.  It does not validate: whatever
    suit and value it is given are stored, and when they are not those of
    a valid card, the dict of the card can no longer be read back. *)
Theorem update_card_assigns index s v up d h :
  let ok := (update_card index s v up d h).1 in
  let h' := (update_card index s v up d h).2 in
  ok = in_deck index d
  ∧ next_ref h' = next_ref h
  ∧ (ok = false → h' = h)
  ∧ (∀ card, read_card index d = Some card →
       objects h' card
       = {| suit := default (suit (objects h card)) s;
            value := default (value (objects h card)) v;
            face_up := default (face_up (objects h card)) up |}
       ∧ (∀ r, r ≠ card → objects h' r = objects h r)
       ∧ (¬ valid_card (objects h' card) →
          card_from_dict (card_data (objects h' card)) = Raise ValueError)).
Proof.
  unfold update_card, read_card. destruct (in_deck index d) eqn:Hin; simpl.
  2:{ repeat split; try done. }
  destruct (in_deck_lookup _ _ Hin) as [card Hcard]. rewrite Hcard. simpl.
  split; [done|]. split; [by destruct s, v, up|]. split; [discriminate|].
  intros ? [= <-].
  split; [|split].
  - destruct s, v, up; simpl; rewrite ?fn_lookup_alter;
      by destruct (objects h card).
  - intros r Hr.
    destruct s, v, up; simpl; rewrite ?fn_lookup_alter_ne by congruence; done.
  - apply invalid_card_new_card.
Qed.

(** *** The deck as a queue *)

Lemma add_cards_spec rs : ∀ d,
  deck_cards (add_cards rs d) = deck_cards d ++ rs
  ∧ shuffled (add_cards rs d) = shuffled d
  ∧ (rs ≠ [] → size (add_cards rs d) = Z.of_nat (length (deck_cards d ++ rs))).
Proof.
  unfold add_cards. induction rs as [|r rs IH]; intros d; simpl.
  - by rewrite app_nil_r.
  - destruct (IH (add_card r d)) as (H1 & H2 & H3). simpl in *.
    rewrite H1, H2, <- app_assoc. split; [done|]. split; [done|]. intros _.
    destruct rs as [|r' rs]; [done|].
    rewrite H3 by done. by rewrite <- app_assoc.
Qed.

Lemma draw_cards_spec n : ∀ d,
  (n ≤ length (deck_cards d))%nat →
  (draw_cards n d).1 = Some <$> take n (deck_cards d)
  ∧ deck_cards (draw_cards n d).2 = drop n (deck_cards d)
  ∧ shuffled (draw_cards n d).2 = shuffled d
  ∧ (n ≠ 0%nat →
     size (draw_cards n d).2 = Z.of_nat (length (drop n (deck_cards d)))).
Proof.
  induction n as [|n IH]; intros d Hn; simpl.
  - rewrite drop_0. repeat (split; [done|]). intros H. by destruct H.
  - unfold draw_card. destruct (deck_cards d) as [|r rest] eqn:Hd;
      [simpl in Hn; lia|].
    simpl in Hn.
    destruct (IH {| deck_cards := rest; shuffled := shuffled d;
                    size := Z.of_nat (length rest) |}) as (H1 & H2 & H3 & H4);
      [simpl; lia|].
    assert (H5 : size (draw_cards n {| deck_cards := rest; shuffled := shuffled d;
                                       size := Z.of_nat (length rest) |}).2
                 = Z.of_nat (length (drop n rest))).
    { destruct n as [|n]; [simpl; by rewrite drop_0|by apply H4]. }
    destruct (draw_cards n _) as [cards d2]. simpl in *.
    by rewrite H1, H2, H3.
Qed.

Lemma draw_cards_empty k : ∀ d,
  deck_cards d = [] → draw_cards k d = (replicate k None, d).
Proof.
  induction k as [|k IH]; intros d Hd; simpl; [done|].
  unfold draw_card. rewrite Hd. by rewrite (IH d Hd).
Qed.

Lemma draw_cards_add n k : ∀ d,
  draw_cards (n + k) d
  = ((draw_cards n d).1 ++ (draw_cards k (draw_cards n d).2).1,
     (draw_cards k (draw_cards n d).2).2).
Proof.
  induction n as [|n IH]; intros d; simpl.
  - by destruct (draw_cards k d).
  - destruct (draw_card d) as [card d1]. rewrite (IH d1).
    destruct (draw_cards n d1) as [cards d2]. simpl.
    by destruct (draw_cards k d2).
Qed.

(** X16: the deck is a queue.  After [add_card] for each card of a
    list, as many calls of [draw_card] as the deck has cards return the
    cards that were in the deck and then the added cards, each once and
    in that order, and leave the deck empty with [size] 0; every further
    call returns [None] and changes nothing. *)
Theorem deck_is_fifo rs d k :
  let d1 := add_cards rs d in
  let n := length (deck_cards d ++ rs) in
  deck_cards d1 = deck_cards d ++ rs
  ∧ (draw_cards n d1).1 = Some <$> (deck_cards d ++ rs)
  ∧ is_empty (draw_cards n d1).2 = true
  ∧ (n ≠ 0%nat → size (draw_cards n d1).2 = 0)
  ∧ (draw_cards (n + k) d1).1 = (Some <$> (deck_cards d ++ rs)) ++ replicate k None
  ∧ (draw_cards (n + k) d1).2 = (draw_cards n d1).2.
Proof.
  intros d1 n. subst d1 n.
  destruct (add_cards_spec rs d) as (Hc & _ & _).
  destruct (draw_cards_spec (length (deck_cards d ++ rs)) (add_cards rs d))
    as (H1 & H2 & _ & H4); [by rewrite Hc|].
  rewrite Hc in H1, H2, H4. rewrite firstn_all in H1.
  rewrite drop_all in H2, H4.
  split; [done|]. split; [done|].
  split; [unfold is_empty; rewrite H2; done|].
  split; [done|].
  rewrite draw_cards_add, (draw_cards_empty k _ H2), H1. done.
Qed.

(** *** The dict of a deck *)

Lemma load_cards_spec cards : ∀ h,
  Forall valid_card cards →
  ∃ h', load_cards (card_data <$> cards) h
        = Ok (seq (next_ref h) (length cards), h')
    ∧ next_ref h' = (next_ref h + length cards)%nat
    ∧ (∀ k c, cards !! k = Some c → objects h' (next_ref h + k)%nat = c)
    ∧ (∀ r, (r < next_ref h)%nat → objects h' r = objects h r).
Proof.
  induction cards as [|c cards IH]; intros h Hv.
  - simpl. exists h. split; [done|]. split; [lia|]. split; [|done].
    intros k c Hk. by rewrite lookup_nil in Hk.
  - apply Forall_cons in Hv as [Hc Hv].
    rewrite fmap_cons. cbn [load_cards].
    change (card_from_dict (card_data c))
      with (new_card (suit c) (value c) (face_up c)).
    rewrite (valid_card_new_card c Hc).
    destruct (alloc c h) as [r h1] eqn:Halloc.
    destruct (IH h1 Hv) as (h' & Hload & Hnext & Hnew & Hold).
    rewrite Hload.
    unfold alloc in Halloc. injection Halloc as <- <-. simpl in *.
    exists h'. split; [done|]. split; [lia|]. split.
    + intros [|k] c' Hk; simpl in Hk.
      * injection Hk as <-. rewrite Nat.add_0_r, Hold by lia.
        by rewrite fn_lookup_insert.
      * rewrite <- (Hnew k c' Hk). f_equal. lia.
    + intros r Hr. rewrite Hold by lia. rewrite fn_lookup_insert_ne by lia. done.
Qed.

Lemma load_cards_invalid cards : ∀ h,
  ¬ Forall valid_card cards →
  load_cards (card_data <$> cards) h = Raise ValueError.
Proof.
  induction cards as [|c cards IH]; intros h Hv.
  - destruct Hv. constructor.
  - rewrite fmap_cons. cbn [load_cards].
    change (card_from_dict (card_data c))
      with (new_card (suit c) (value c) (face_up c)).
    destruct (new_card (suit c) (value c) (face_up c)) as [c'|e] eqn:Hnew.
    + apply new_card_inv in Hnew as [-> Hc].
      destruct (alloc _ h) as [r h1].
      rewrite (IH h1); [done|].
      intros Hrest. apply Hv. constructor; [|done]. by destruct c.
    + by apply new_card_raises in Hnew as ->.
Qed.

(** X17: [Deck.from_dict] on the dict of [Deck.to_dict] rebuilds the
    deck when every card of the deck is valid: the new deck has the
    flag and the size of the old one and as many cards, its cards are
    new objects with the suits, values and faces of the old cards in the
    same order, so that its dict is the dict it was read from, and no
    existing card is changed.  When some card of the deck is not valid,
    it raises [ValueError]. *)
Theorem deck_dict_round_trip d h :
  (Forall (λ r, valid_card (objects h r)) (deck_cards d) →
   ∃ d' h',
     deck_from_dict (deck_to_dict d h) h = Ok (d', h')
     ∧ deck_cards d' = seq (next_ref h) (length (deck_cards d))
     ∧ shuffled d' = shuffled d ∧ size d' = size d
     ∧ (∀ k r, deck_cards d !! k = Some r →
          objects h' (next_ref h + k)%nat = objects h r)
     ∧ (∀ r, (r < next_ref h)%nat → objects h' r = objects h r)
     ∧ deck_to_dict d' h' = deck_to_dict d h)
  ∧ (¬ Forall (λ r, valid_card (objects h r)) (deck_cards d) →
     deck_from_dict (deck_to_dict d h) h = Raise ValueError).
Proof.
  unfold deck_from_dict, deck_to_dict.
  cbn [data_cards data_shuffled data_size default from_option]. unfold id.
  assert (Hdata : (λ r, card_data (objects h r)) <$> deck_cards d
                  = card_data <$> (objects h <$> deck_cards d))
    by (by rewrite <- list_fmap_compose).
  rewrite Hdata.
  split.
  - intros Hv.
    destruct (load_cards_spec (objects h <$> deck_cards d) h)
      as (h' & Hload & Hnext & Hnew & Hold).
    { by apply Forall_fmap. }
    rewrite length_fmap in Hload. rewrite Hload.
    eexists _, h'. split; [reflexivity|]. cbn [deck_cards shuffled size].
    assert (Hobj : ∀ k r, deck_cards d !! k = Some r →
                     objects h' (next_ref h + k)%nat = objects h r).
    { intros k r Hk. apply Hnew. by rewrite list_lookup_fmap, Hk. }
    repeat (split; [done|]).
    f_equal. f_equal. rewrite <- Hdata.
    apply list_eq. intros k. rewrite !list_lookup_fmap.
    destruct (deck_cards d !! k) as [r|] eqn:Hk.
    + rewrite lookup_seq_lt by (by eapply lookup_lt_Some). simpl.
      by rewrite (Hobj k r Hk).
    + rewrite lookup_seq_ge by (by apply lookup_ge_None). done.
  - intros Hv. rewrite (load_cards_invalid (objects h <$> deck_cards d)); [done|].
    intros H. apply Hv. rewrite Forall_fmap in H. exact H.
Qed.

(** ** Saving and loading *)

Lemma extends_refl h : extends h h.
Proof. split; [lia|done]. Qed.

Lemma extends_trans h1 h2 h3 : extends h1 h2 → extends h2 h3 → extends h1 h3.
Proof.
  intros [Hn1 Ho1] [Hn2 Ho2]. split; [lia|].
  intros r Hr. rewrite Ho2 by lia. by apply Ho1.
Qed.

Lemma created_mono h1 h2 h3 h4 rs :
  extends h1 h2 → extends h3 h4 →
  Forall (created h2 h3) rs → Forall (created h1 h4) rs.
Proof.
  intros [Hn1 _] [Hn2 _] Hrs. eapply Forall_impl; [exact Hrs|].
  unfold created. intros r. simpl. lia.
Qed.

Lemma objects_extends h1 h2 h3 rs :
  extends h2 h3 → Forall (created h1 h2) rs →
  objects h3 <$> rs = objects h2 <$> rs.
Proof.
  intros [_ Ho] Hrs. apply list_fmap_ext. intros i r Hr.
  apply Ho. by destruct (proj1 (Forall_lookup _ _) Hrs i r Hr).
Qed.

Lemma pile_data_objects h pile : pile_data h pile = card_data <$> (objects h <$> pile).
Proof. unfold pile_data. by rewrite <- list_fmap_compose. Qed.

Lemma load_cards_ok cards h :
  Forall valid_card cards →
  ∃ rs h', load_cards (card_data <$> cards) h = Ok (rs, h')
    ∧ extends h h' ∧ Forall (created h h') rs ∧ objects h' <$> rs = cards.
Proof.
  intros Hv.
  destruct (load_cards_spec cards h Hv) as (h' & Hload & Hnext & Hnew & Hold).
  exists (seq (next_ref h) (length cards)), h'.
  split; [done|]. split; [split; [lia|done]|]. split.
  - apply Forall_forall. intros r Hr. apply elem_of_seq in Hr.
    unfold created. lia.
  - apply list_eq. intros k. rewrite list_lookup_fmap.
    destruct (cards !! k) as [c|] eqn:Hk.
    + rewrite lookup_seq_lt by (by eapply lookup_lt_Some). simpl.
      by rewrite (Hnew k c Hk).
    + rewrite lookup_seq_ge by (by apply lookup_ge_None). done.
Qed.

Lemma load_piles_ok piles : ∀ h,
  Forall (Forall valid_card) piles →
  ∃ ps h', load_piles ((λ pile : list Card, card_data <$> pile) <$> piles) h = Ok (ps, h')
    ∧ extends h h' ∧ Forall (Forall (created h h')) ps
    ∧ (λ pile : list Ref, objects h' <$> pile) <$> ps = piles.
Proof.
  induction piles as [|pile piles IH]; intros h Hv.
  - exists [], h. split; [done|]. split; [apply extends_refl|]. by split.
  - apply Forall_cons in Hv as [Hpile Hv].
    rewrite fmap_cons. cbn [load_piles].
    destruct (load_cards_ok pile h Hpile) as (rs & h1 & -> & He1 & Hr1 & Ho1).
    destruct (IH h1 Hv) as (ps & h2 & -> & He2 & Hr2 & Ho2).
    exists (rs :: ps), h2. split; [done|].
    split; [by eapply extends_trans|]. split.
    + constructor.
      * by apply (created_mono h h h1 h2); [apply extends_refl|..].
      * eapply Forall_impl; [exact Hr2|]. intros p Hp.
        by apply (created_mono h h1 h2 h2); [|apply extends_refl|].
    + rewrite fmap_cons, Ho2. f_equal.
      by rewrite (objects_extends h h1 h2).
Qed.

Lemma load_piles_invalid piles : ∀ h,
  ¬ Forall (Forall valid_card) piles →
  load_piles ((λ pile : list Card, card_data <$> pile) <$> piles) h = Raise ValueError.
Proof.
  induction piles as [|pile piles IH]; intros h Hv.
  - destruct Hv. constructor.
  - rewrite fmap_cons. cbn [load_piles].
    destruct (decide (Forall valid_card pile)) as [Hpile|Hpile].
    + destruct (load_cards_ok pile h Hpile) as (rs & h1 & -> & _).
      rewrite (IH h1); [done|]. intros Hrest. apply Hv. by constructor.
    + by rewrite (load_cards_invalid pile h Hpile).
Qed.

Lemma load_foundations_ok (items : list (string * list Card)) : ∀ acc h,
  NoDup items.*1 →
  Forall (λ item, Forall valid_card item.2) items →
  ∃ f h',
    load_foundations
      ((λ item : string * list Card, (item.1, card_data <$> item.2)) <$> items)
      acc h = Ok (f, h')
    ∧ extends h h'
    ∧ (∀ k, k ∉ items.*1 → f !! k = acc !! k)
    ∧ (∀ k cards, (k, cards) ∈ items →
         ∃ rs, f !! k = Some rs ∧ Forall (created h h') rs
               ∧ objects h' <$> rs = cards).
Proof.
  induction items as [|[k cards] items IH]; intros acc h Hnd Hv.
  - exists acc, h. split; [done|]. split; [apply extends_refl|].
    split; [done|]. intros k cards Hk. by apply elem_of_nil in Hk.
  - apply Forall_cons in Hv as [Hcards Hv]. simpl in Hcards.
    rewrite fmap_cons in Hnd. apply NoDup_cons in Hnd as [Hk Hnd].
    rewrite fmap_cons. cbn [load_foundations fst snd].
    destruct (load_cards_ok cards h Hcards) as (rs & h1 & -> & He1 & Hr1 & Ho1).
    destruct (IH (<[k:=rs]> acc) h1 Hnd Hv) as (f & h2 & -> & He2 & Hout & Hin).
    exists f, h2. split; [done|]. split; [by eapply extends_trans|]. split.
    + intros k' Hk'. rewrite fmap_cons in Hk'. apply not_elem_of_cons in Hk' as [Hne Hk'].
      rewrite (Hout k' Hk'). by rewrite lookup_insert_ne.
    + intros k' cards' Hitem. apply elem_of_cons in Hitem as [[= -> ->]|Hitem].
      * exists rs. split; [by rewrite (Hout k Hk), lookup_insert_eq|]. split.
        -- by apply (created_mono h h h1 h2); [apply extends_refl|..].
        -- by rewrite (objects_extends h h1 h2).
      * destruct (Hin k' cards' Hitem) as (rs' & Hf & Hr & Ho).
        exists rs'. split; [done|]. split; [|done].
        by apply (created_mono h h1 h2 h2); [|apply extends_refl|].
Qed.

Lemma load_foundations_invalid (items : list (string * list Card)) : ∀ acc h,
  ¬ Forall (λ item, Forall valid_card item.2) items →
  load_foundations
      ((λ item : string * list Card, (item.1, card_data <$> item.2)) <$> items)
      acc h
  = Raise ValueError.
Proof.
  induction items as [|[k cards] items IH]; intros acc h Hv.
  - destruct Hv. constructor.
  - rewrite fmap_cons. cbn [load_foundations fst snd].
    destruct (decide (Forall valid_card cards)) as [Hcards|Hcards].
    + destruct (load_cards_ok cards h Hcards) as (rs & h1 & -> & _).
      apply IH. intros Hrest. apply Hv. by constructor.
    + by rewrite (load_cards_invalid cards h Hcards).
Qed.

Lemma Forall_engine_cards (P : Ref → Prop) g :
  Forall P (engine_cards g)
  ↔ Forall P (deck_cards (deck g))
    ∧ Forall (Forall P) (tableau g)
    ∧ (∀ k pile, foundations g !! k = Some pile → Forall P pile)
    ∧ Forall P (stock g) ∧ Forall P (waste g).
Proof.
  unfold engine_cards, all_cards. rewrite !Forall_app, !Forall_concat.
  assert (Hf : Forall (Forall P) (map_to_list (foundations g)).*2
               ↔ ∀ k pile, foundations g !! k = Some pile → Forall P pile).
  { rewrite Forall_fmap, Forall_forall. split.
    - intros H k pile Hk. apply (H (k, pile)). by apply elem_of_map_to_list.
    - intros H [k pile] Hk. apply elem_of_map_to_list in Hk. by apply (H k). }
  rewrite Hf. tauto.
Qed.

(** The dict of a saved game, read by [from_dict] stage by stage. *)
Lemma game_from_dict_saved keys g :
  let h0 := store g in
  game_from_dict (game_to_dict keys g) h0 =
    match load_cards (card_data <$> (objects h0 <$> deck_cards (deck g))) h0 with
    | Raise e => Raise e
    | Ok (rs_d, h1) =>
        match load_piles
                ((λ pile : list Card, card_data <$> pile)
                   <$> ((λ pile : list Ref, objects h0 <$> pile) <$> tableau g))
                h1 with
        | Raise e => Raise e
        | Ok (t, h2) =>
            match load_foundations
                    ((λ item : string * list Card, (item.1, card_data <$> item.2))
                       <$> ((λ k, (k, objects h0 <$> default [] (foundations g !! k)))
                              <$> keys))
                    ∅ h2 with
            | Raise e => Raise e
            | Ok (f, h3) =>
                match load_cards (card_data <$> (objects h0 <$> stock g)) h3 with
                | Raise e => Raise e
                | Ok (s, h4) =>
                    match load_cards (card_data <$> (objects h0 <$> waste g)) h4 with
                    | Raise e => Raise e
                    | Ok (w, h5) =>
                        Ok {| store := h5;
                              deck := {| deck_cards := rs_d;
                                         shuffled := shuffled (deck g);
                                         size := size (deck g) |};
                              tableau := t; foundations := f;
                              stock := s; waste := w;
                              moves_count := moves_count g;
                              game_won := game_won g |}
                    end
                end
            end
        end
    end.
Proof.
  intros h0. unfold game_to_dict, deck_to_dict. fold h0.
  change ((λ r, card_data (objects h0 r)) <$> deck_cards (deck g))
    with (pile_data h0 (deck_cards (deck g))).
  rewrite !pile_data_objects.
  assert (Ht : pile_data h0 <$> tableau g
               = (λ pile : list Card, card_data <$> pile)
                   <$> ((λ pile : list Ref, objects h0 <$> pile) <$> tableau g)).
  { rewrite <- list_fmap_compose. apply list_fmap_ext. intros _ pile _.
    apply pile_data_objects. }
  assert (Hf : (λ k, (k, pile_data h0 (default [] (foundations g !! k)))) <$> keys
               = (λ item : string * list Card, (item.1, card_data <$> item.2))
                   <$> ((λ k, (k, objects h0 <$> default [] (foundations g !! k)))
                          <$> keys)).
  { rewrite <- list_fmap_compose. apply list_fmap_ext. intros _ k _. simpl.
    by rewrite pile_data_objects. }
  rewrite Ht, Hf. clear Ht Hf.
  set (Dd := card_data <$> (objects h0 <$> deck_cards (deck g))).
  set (Dt := (λ pile : list Card, card_data <$> pile) <$> _).
  set (Df := (λ item : string * list Card, (item.1, card_data <$> item.2)) <$> _).
  set (Ds := card_data <$> (objects h0 <$> stock g)).
  set (Dw := card_data <$> (objects h0 <$> waste g)).
  unfold game_from_dict, deck_from_dict.
  cbn [gd_deck gd_tableau gd_foundations gd_stock gd_waste gd_moves_count
       gd_game_won data_cards data_shuffled data_size default from_option].
  unfold id.
  destruct (load_cards Dd h0) as [[rs_d h1]|e]; [|done].
  done.
Qed.

Lemma pile_to_dicts_objects g pile : pile_to_dicts g pile = objects (store g) <$> pile.
Proof. reflexivity. Qed.

(** Loading the dict of a saved game. *)
Lemma game_from_dict_to_dict keys g :
  NoDup keys →
  (∀ k, k ∈ keys ↔ is_Some (foundations g !! k)) →
  (Forall (λ r, valid_card (card_at g r)) (engine_cards g) →
   ∃ g',
     game_from_dict (game_to_dict keys g) (store g) = Ok g'
     ∧ game_to_dict keys g' = game_to_dict keys g
     ∧ get_game_state g' = get_game_state g
     ∧ extends (store g) (store g')
     ∧ Forall (created (store g) (store g')) (engine_cards g'))
  ∧ (¬ Forall (λ r, valid_card (card_at g r)) (engine_cards g) →
     game_from_dict (game_to_dict keys g) (store g) = Raise ValueError).
Proof.
  intros Hnd Hkeys. rewrite game_from_dict_saved. cbv zeta.
  set (h0 := store g).
  set (F := λ k, default [] (foundations g !! k)).
  set (items := (λ k, (k, objects h0 <$> default [] (foundations g !! k)))
                  <$> keys).
  assert (Hvalid : Forall (λ r, valid_card (card_at g r)) (engine_cards g)
            ↔ Forall valid_card (objects h0 <$> deck_cards (deck g))
              ∧ Forall (Forall valid_card)
                  ((λ pile : list Ref, objects h0 <$> pile) <$> tableau g)
              ∧ Forall (λ item : string * list Card, Forall valid_card item.2) items
              ∧ Forall valid_card (objects h0 <$> stock g)
              ∧ Forall valid_card (objects h0 <$> waste g)).
  { rewrite Forall_engine_cards, !Forall_fmap.
    assert (Hf : (∀ k pile, foundations g !! k = Some pile →
                    Forall (λ r, valid_card (card_at g r)) pile)
                 ↔ Forall (λ item : string * list Card, Forall valid_card item.2)
                     items).
    { unfold items. rewrite Forall_fmap, Forall_forall. simpl. split.
      - intros H k Hk. apply Hkeys in Hk as [pile Hpile].
        rewrite Forall_fmap. unfold F. rewrite Hpile. simpl. by apply (H k).
      - intros H k pile Hpile.
        assert (Hk : k ∈ keys) by (apply Hkeys; eauto).
        specialize (H k Hk). rewrite Forall_fmap in H. unfold F in H.
        by rewrite Hpile in H. }
    rewrite Hf.
    assert (Ht : Forall (Forall (λ r, valid_card (card_at g r))) (tableau g)
                 ↔ Forall (Forall valid_card ∘ (λ pile : list Ref, objects h0 <$> pile))
                     (tableau g)).
    { split; intros H; (eapply Forall_impl; [exact H|]); intros pile Hp;
        simpl in *; [rewrite Forall_fmap|rewrite Forall_fmap in Hp]; exact Hp. }
    rewrite Ht. done. }
  assert (Hfst : items.*1 = keys).
  { unfold items. rewrite <- list_fmap_compose.
    transitivity (id <$> keys); [|apply list_fmap_id].
    apply list_fmap_ext. by intros. }
  assert (Hitems : NoDup items.*1) by (by rewrite Hfst).
  destruct (decide (Forall valid_card (objects h0 <$> deck_cards (deck g))))
    as [Vd|Vd].
  2:{ rewrite (load_cards_invalid _ h0 Vd). split; [|done].
      intros H. apply Hvalid in H. tauto. }
  destruct (load_cards_ok _ h0 Vd) as (rs_d & h1 & -> & E1 & C1 & O1).
  destruct (decide (Forall (Forall valid_card)
              ((λ pile : list Ref, objects h0 <$> pile) <$> tableau g))) as [Vt|Vt].
  2:{ rewrite (load_piles_invalid _ h1 Vt). split; [|done].
      intros H. apply Hvalid in H. tauto. }
  destruct (load_piles_ok _ h1 Vt) as (t & h2 & -> & E2 & C2 & O2).
  destruct (decide (Forall (λ item : string * list Card, Forall valid_card item.2)
              items)) as [Vf|Vf].
  2:{ rewrite (load_foundations_invalid items ∅ h2 Vf). split; [|done].
      intros H. apply Hvalid in H. tauto. }
  destruct (load_foundations_ok items ∅ h2 Hitems Vf)
    as (f & h3 & -> & E3 & Fout & Fin).
  destruct (decide (Forall valid_card (objects h0 <$> stock g))) as [Vs|Vs].
  2:{ rewrite (load_cards_invalid _ h3 Vs). split; [|done].
      intros H. apply Hvalid in H. tauto. }
  destruct (load_cards_ok _ h3 Vs) as (s & h4 & -> & E4 & C4 & O4).
  destruct (decide (Forall valid_card (objects h0 <$> waste g))) as [Vw|Vw].
  2:{ rewrite (load_cards_invalid _ h4 Vw). split; [|done].
      intros H. apply Hvalid in H. tauto. }
  destruct (load_cards_ok _ h4 Vw) as (w & h5 & -> & E5 & C5 & O5).
  split; [|intros H; destruct H; apply Hvalid; done].
  intros _. eexists. split; [reflexivity|].
  (* the stores of the five stages *)
  pose proof (extends_trans h3 h4 h5 E4 E5) as E35.
  pose proof (extends_trans h2 h3 h5 E3 E35) as E25.
  pose proof (extends_trans h1 h2 h5 E2 E25) as E15.
  pose proof (extends_trans h0 h1 h5 E1 E15) as E05.
  pose proof (extends_trans h0 h1 h2 E1 E2) as E02.
  pose proof (extends_trans h0 h2 h3 E02 E3) as E03.
  pose proof (extends_trans h0 h3 h4 E03 E4) as E04.
  (* the cards of each pile, read in the last store *)
  assert (Od : objects h5 <$> rs_d = objects h0 <$> deck_cards (deck g)).
  { by rewrite (objects_extends h0 h1 h5). }
  assert (Ot : (λ pile : list Ref, objects h5 <$> pile) <$> t
               = (λ pile : list Ref, objects h0 <$> pile) <$> tableau g).
  { rewrite <- O2. apply list_fmap_ext. intros i pile Hpile.
    apply (objects_extends h1 h2 h5); [done|].
    by apply (proj1 (Forall_lookup _ _) C2 i pile). }
  assert (Of : ∀ k, k ∈ keys →
            ∃ rs, f !! k = Some rs ∧ Forall (created h0 h5) rs
                  ∧ objects h5 <$> rs = objects h0 <$> F k).
  { intros k Hk.
    destruct (Fin k (objects h0 <$> F k)) as (rs & Hrs & Cr & Or).
    { unfold items. apply list_elem_of_fmap. by exists k. }
    exists rs. split; [done|]. split.
    - by apply (created_mono h0 h2 h3 h5).
    - by rewrite (objects_extends h2 h3 h5). }
  assert (Fnone : ∀ k, k ∉ keys → f !! k = None).
  { intros k Hk. rewrite Fout; [done|]. by rewrite Hfst. }
  assert (Os : objects h5 <$> s = objects h0 <$> stock g).
  { by rewrite (objects_extends h3 h4 h5). }
  split; [|split; [|split; [done|]]].
  - unfold game_to_dict, deck_to_dict. cbn [store deck tableau foundations stock
      waste moves_count game_won deck_cards shuffled size]. fold h0.
    change ((λ r, card_data (objects h5 r)) <$> rs_d) with (pile_data h5 rs_d).
    change ((λ r, card_data (objects h0 r)) <$> deck_cards (deck g))
      with (pile_data h0 (deck_cards (deck g))).
    rewrite !pile_data_objects, Od, Os, O5.
    assert (Ht : pile_data h5 <$> t = pile_data h0 <$> tableau g).
    { transitivity ((λ pile : list Card, card_data <$> pile)
                      <$> ((λ pile : list Ref, objects h5 <$> pile) <$> t)).
      - rewrite <- list_fmap_compose. apply list_fmap_ext. intros _ pile _.
        apply pile_data_objects.
      - rewrite Ot, <- list_fmap_compose. apply list_fmap_ext. intros _ pile _.
        simpl. by rewrite pile_data_objects. }
    assert (Hf : (λ k, (k, pile_data h5 (default [] (f !! k)))) <$> keys
                 = (λ k, (k, pile_data h0 (default [] (foundations g !! k))))
                     <$> keys).
    { apply list_fmap_ext. intros i k Hk.
      destruct (Of k) as (rs & -> & _ & Or); [by eapply list_elem_of_lookup_2|].
      simpl. by rewrite !pile_data_objects, Or. }
    by rewrite Ht, Hf.
  - unfold get_game_state. cbn [store deck tableau foundations stock waste
      moves_count game_won]. fold h0.
    rewrite !pile_to_dicts_objects. cbn [store]. fold h0.
    assert (Ht : pile_to_dicts
                   {| store := h5;
                      deck := {| deck_cards := rs_d; shuffled := shuffled (deck g);
                                 size := size (deck g) |};
                      tableau := t; foundations := f; stock := s; waste := w;
                      moves_count := moves_count g; game_won := game_won g |} <$> t
                 = pile_to_dicts g <$> tableau g) by exact Ot.
    assert (Hf : pile_to_dicts
                   {| store := h5;
                      deck := {| deck_cards := rs_d; shuffled := shuffled (deck g);
                                 size := size (deck g) |};
                      tableau := t; foundations := f; stock := s; waste := w;
                      moves_count := moves_count g; game_won := game_won g |} <$> f
                 = pile_to_dicts g <$> foundations g).
    { apply map_eq. intros k. rewrite !lookup_fmap.
      destruct (decide (k ∈ keys)) as [Hk|Hk].
      - destruct (Of k Hk) as (rs & -> & _ & Or).
        apply Hkeys in Hk as [pile Hpile]. rewrite Hpile. simpl. f_equal.
        unfold F in Or. rewrite Hpile in Or. exact Or.
      - rewrite (Fnone k Hk).
        destruct (foundations g !! k) as [pile|] eqn:Hpile; [|done].
        destruct Hk. apply Hkeys. eauto. }
    assert (Hlen : length s = length (stock g)).
    { apply (f_equal length) in Os. by rewrite !length_fmap in Os. }
    by rewrite Ht, Hf, O5, Hlen.
  - apply Forall_engine_cards. cbn [store deck tableau foundations stock waste
      deck_cards]. fold h0.
    split; [by apply (created_mono h0 h0 h1 h5); [apply extends_refl|..]|].
    split.
    { eapply Forall_impl; [exact C2|]. intros pile Hpile.
      by apply (created_mono h0 h1 h2 h5). }
    split.
    { intros k pile Hpile. destruct (decide (k ∈ keys)) as [Hk|Hk].
      - destruct (Of k Hk) as (rs & Hrs & Cr & _). congruence.
      - rewrite (Fnone k Hk) in Hpile. discriminate Hpile. }
    split; [by apply (created_mono h0 h3 h4 h5)|].
    by apply (created_mono h0 h4 h5 h5); [|apply extends_refl|].
Qed.

(** X18: [GameManager.from_dict] on the dict of [GameManager.to_dict]
    rebuilds the game when every card of the game is valid: the new
    engine has the dict it was read from and shows the same state, every
    one of its cards is a new object, and no existing card is changed.
    When some card of the game is not valid, it raises [ValueError]. *)
Theorem game_dict_round_trip keys g :
  NoDup keys →
  (∀ k, k ∈ keys ↔ is_Some (foundations g !! k)) →
  (Forall (λ r, valid_card (card_at g r)) (engine_cards g) →
   ∃ g',
     game_from_dict (game_to_dict keys g) (store g) = Ok g'
     ∧ game_to_dict keys g' = game_to_dict keys g
     ∧ get_game_state g' = get_game_state g
     ∧ extends (store g) (store g')
     ∧ Forall (created (store g) (store g')) (engine_cards g'))
  ∧ (¬ Forall (λ r, valid_card (card_at g r)) (engine_cards g) →
     game_from_dict (game_to_dict keys g) (store g) = Raise ValueError).
Proof. apply game_from_dict_to_dict. Qed.

(** The dealt game is read back from its dict. *)
Lemma game_dict_round_trip_dealt :
  ∃ g',
    game_from_dict (game_to_dict SUITS dealt_game) (store dealt_game) = Ok g'
    ∧ get_game_state g' = get_game_state dealt_game.
Proof.
  destruct (game_dict_round_trip SUITS dealt_game) as [Hok _].
  - apply (bool_decide_eq_true_1 (NoDup SUITS)). vm_compute. reflexivity.
  - intros k. symmetry. apply reachable_shape, reachable_dealt_game.
  - destruct Hok as (g' & Hload & _ & Hstate & _).
    + apply (bool_decide_eq_true_1
               (Forall (λ r, valid_card (card_at dealt_game r))
                  (engine_cards dealt_game))).
      vm_compute. reflexivity.
    + exists g'. split; [exact Hload|exact Hstate].
Defined.

(** ** The shape of a loaded game *)

Lemma load_piles_length piles : ∀ h ps h',
  load_piles piles h = Ok (ps, h') → length ps = length piles.
Proof.
  induction piles as [|pile piles IH]; intros h ps h' Hload; simpl in Hload.
  - by injection Hload as <- _.
  - destruct (load_cards pile h) as [[rs h1]|e]; [|discriminate].
    destruct (load_piles piles h1) as [[ps' h2]|e] eqn:Hrest; [|discriminate].
    injection Hload as <- _. simpl. by rewrite (IH h1 ps' h2 Hrest).
Qed.

Lemma load_foundations_keys items : ∀ acc h f h',
  load_foundations items acc h = Ok (f, h') →
  ∀ k, is_Some (f !! k) ↔ k ∈ items.*1 ∨ is_Some (acc !! k).
Proof.
  induction items as [|[k0 pile] items IH]; intros acc h f h' Hload k;
    simpl in Hload.
  - injection Hload as <- _. split; [by right|].
    intros [Hk|Hk]; [by apply elem_of_nil in Hk|done].
  - destruct (load_cards pile h) as [[rs h1]|e]; [|discriminate].
    rewrite (IH _ _ _ _ Hload k), fmap_cons, elem_of_cons. simpl.
    destruct (decide (k = k0)) as [->|Hne].
    + rewrite lookup_insert_eq. split; [by left; left|]. intros _. right. eauto.
    + rewrite lookup_insert_ne by done. tauto.
Qed.

Lemma game_from_dict_inv data h g :
  game_from_dict data h = Ok g →
  ∃ h1 h2 h3 h4,
    load_piles (default (replicate 7 []) (gd_tableau data)) h1 = Ok (tableau g, h2)
    ∧ load_foundations (default [] (gd_foundations data)) ∅ h3
      = Ok (foundations g, h4)
    ∧ moves_count g = default 0 (gd_moves_count data)
    ∧ game_won g = default false (gd_game_won data).
Proof.
  unfold game_from_dict. intros Hload.
  destruct (match gd_deck data with
            | Some deck_data => deck_from_dict deck_data h
            | None => Ok ({| deck_cards := []; shuffled := false; size := 0 |}, h)
            end) as [[d h1]|e]; [|discriminate].
  destruct (load_piles _ h1) as [[t h2]|e] eqn:Ht; [|discriminate].
  destruct (load_foundations _ ∅ h2) as [[f h3]|e] eqn:Hf; [|discriminate].
  destruct (load_cards _ h3) as [[s h4]|e]; [|discriminate].
  destruct (load_cards _ h4) as [[w h5]|e]; [|discriminate].
  injection Hload as <-. simpl. eauto 10.
Qed.

Lemma missing_column_raises g j to_location card_index :
  (length (tableau g) ≤ j < 7)%nat →
  re_match to_location = true →
  move_card g (tableau_location j) to_location card_index = Raise IndexError.
Proof.
  intros [Hlo Hhi] Ht.
  assert (Hnone : tableau g !! j = None) by (by apply lookup_ge_None).
  assert (Hfacts : re_match (tableau_location j) = true
                   ∧ get_pile g (tableau_location j) = Raise IndexError).
  { clear Hlo. revert Hnone.
    do 7 (destruct j as [|j];
          [intros Hnone; split; [by vm_compute|];
           match goal with |- get_pile _ (tableau_location ?n) = _ =>
             rewrite (get_pile_tableau g _ n); [|by vm_compute|by vm_compute] end;
           by rewrite Hnone|]).
    lia. }
  destruct Hfacts as [Hf Hp]. unfold move_card. by rewrite Hf, Ht, Hp.
Qed.

Lemma missing_foundation_not_found g from_location s card_index fp :
  s ∈ SUITS → foundations g !! s = None →
  re_match from_location = true →
  get_pile g from_location = Ok fp →
  move_card g from_location (foundation_location s) card_index
  = Ok (respond false UbicacionNoEncontrada g).
Proof.
  intros Hs Hnone Hf Hfp.
  assert (Hfacts : re_match (foundation_location s) = true
                   ∧ get_pile g (foundation_location s) = Ok None).
  { unfold SUITS in Hs.
    repeat (apply elem_of_cons in Hs as [->|Hs]); [..|by apply elem_of_nil in Hs];
      (split; [by vm_compute|]);
      rewrite get_pile_foundation by (by vm_compute);
      vm_compute (nth _ _ _); by rewrite Hnone. }
  destruct Hfacts as [Ht Hp]. unfold move_card. rewrite Hf, Ht, Hfp, Hp. simpl.
  by destruct fp.
Qed.

(** X19: [GameManager.from_dict] does not check the shape of a game: the
    engine it returns has as many columns as the dict has tableau piles
    (seven empty ones when the key is missing), the foundations the dict
    names (none when the key is missing), and the move counter and win
    flag of the dict.  On such an engine [move_card] raises [IndexError]
    for a column from [tableau_0] to [tableau_6] that the engine does
    not have, and answers that the location was not found for the
    foundation of a suit the engine does not have. *)
Theorem loaded_game_shape data h g :
  game_from_dict data h = Ok g →
  length (tableau g) = length (default (replicate 7 []) (gd_tableau data))
  ∧ (∀ k, is_Some (foundations g !! k)
          ↔ k ∈ (default [] (gd_foundations data)).*1)
  ∧ moves_count g = default 0 (gd_moves_count data)
  ∧ game_won g = default false (gd_game_won data)
  ∧ (∀ j to_location card_index,
       (length (tableau g) ≤ j < 7)%nat → re_match to_location = true →
       move_card g (tableau_location j) to_location card_index = Raise IndexError)
  ∧ (∀ s from_location card_index fp,
       s ∈ SUITS → s ∉ (default [] (gd_foundations data)).*1 →
       re_match from_location = true → get_pile g from_location = Ok fp →
       move_card g from_location (foundation_location s) card_index
       = Ok (respond false UbicacionNoEncontrada g)).
Proof.
  intros Hload.
  destruct (game_from_dict_inv data h g Hload)
    as (h1 & h2 & h3 & h4 & Ht & Hf & Hm & Hw).
  assert (Hkeys : ∀ k, is_Some (foundations g !! k)
                       ↔ k ∈ (default [] (gd_foundations data)).*1).
  { intros k. rewrite (load_foundations_keys _ _ _ _ _ Hf k), lookup_empty.
    split; [intros [?|[? ?]]; [done|discriminate]|by left]. }
  split; [by eapply load_piles_length|]. split; [done|].
  split; [done|]. split; [done|]. split.
  - intros j to_location card_index. apply missing_column_raises.
  - intros s from_location card_index fp Hs Hmissing.
    apply missing_foundation_not_found; [done|].
    destruct (foundations g !! s) as [pile|] eqn:Hpile; [|done].
    destruct Hmissing. apply Hkeys. eauto.
Qed.

(** A saved game with three columns loads, and a move from the sixth
    column raises. *)
Lemma loaded_game_shape_three_columns :
  move_card three_column_game (tableau_location 5) "waste" (-1) = Raise IndexError.
Proof.
  assert (Hload : game_from_dict three_column_data empty_store = Ok three_column_game)
    by (vm_compute; reflexivity).
  destruct (loaded_game_shape _ _ _ Hload) as (_ & _ & _ & _ & Hcol & _).
  apply Hcol; [vm_compute; lia|vm_compute; reflexivity].
Defined.

(** ** The deck after the deal *)

Lemma deal_deck D h sh sz :
  length D = 52%nat →
  let g0 := mkGame h (mkDeck D sh sz) (replicate 7 []) empty_foundations [] [] 0 false in
  let g1 := deal_tableau g0 in
  let g2 := fill_stock (length (deck_cards (deck g1))) g1 in
  deck g2 = mkDeck [] sh 0.
Proof.
  intros Hlen.
  do 52 (destruct D as [|? D]; [discriminate Hlen|]).
  destruct D; [|discriminate Hlen]. clear Hlen.
  cbv -[assign_face_up empty_foundations].
  reflexivity.
Qed.

Lemma draw_from_stock_deck g : deck (draw_from_stock g).2 = deck g.
Proof.
  unfold draw_from_stock. destruct (stock g) as [|card rest]; simpl; [|done].
  by destruct (recycle_spec (length (waste g)) g (le_n _)) as (_ & _ & H & _).
Qed.

Lemma move_card_deck g from_location to_location card_index resp g' :
  move_card g from_location to_location card_index = Ok (resp, g') →
  deck g' = deck g.
Proof.
  intros Hmove. destruct (success resp) eqn:Hok.
  2:{ by destruct (move_card_failure_inv _ _ _ _ _ _ Hmove Hok) as [-> _]. }
  destruct (move_card_success_inv _ _ _ _ _ _ Hmove Hok)
    as (fp & tp & i & card & moved & rest & _ & _ & _ & _ & Hsel & Hrule & Hcm).
  assert (Hmoved : moved ≠ []).
  { destruct Hsel as (Hcard & _).
    destruct Hrule as [(_ & _ & -> & _)|(_ & _ & -> & _)]; [done|]. intros Hnil.
    apply (f_equal length) in Hnil. rewrite length_drop in Hnil. simpl in Hnil.
    apply lookup_lt_Some in Hcard. lia. }
  by destruct (move_card_success_fields g fp tp moved rest resp g' Hmoved Hcm)
    as (_ & _ & _ & _ & Hd & _).
Qed.

Lemma reachable_deck g :
  reachable g → deck g = {| deck_cards := []; shuffled := true; size := 0 |}.
Proof.
  induction 1 as [rng g Hrng|g Hg IH|g fl tl ci resp g' Hg IH Hmove].
  - rewrite new_game_unfold. cbv zeta.
    destruct (alloc_all_spec standard_cards (store g)) as [Hcs _].
    rewrite standard_cards_length in Hcs. rewrite Hcs.
    apply deal_deck. by rewrite Hrng, length_seq.
  - by rewrite draw_from_stock_deck.
  - by rewrite (move_card_deck _ _ _ _ _ _ Hmove).
Qed.

(** X20: in every state of a game the deck of the engine is empty: the
    deal has drawn all 52 cards from it, its [size] is 0, it is marked
    shuffled, and neither a draw nor a move touches it, so [draw_card]
    on it returns [None]. *)
Theorem deck_stays_empty g :
  reachable g →
  deck g = {| deck_cards := []; shuffled := true; size := 0 |}
  ∧ is_empty (deck g) = true
  ∧ draw_card (deck g) = (None, deck g)
  ∧ engine_cards g = all_cards g.
Proof.
  intros Hg. pose proof (reachable_deck g Hg) as Hdeck.
  split; [done|]. unfold engine_cards. by rewrite Hdeck.
Qed.

Lemma deck_stays_empty_won :
  draw_card (deck won_game) = (None, deck won_game).
Proof.
  apply (deck_stays_empty won_game reachable_won_game).
Defined.

(** ** The cards of a game are standard cards *)

Lemma standard_keys_valid c : card_key c ∈ standard_keys → valid_card c.
Proof.
  assert (H : Forall (λ k : string * Z, k.1 ∈ SUITS ∧ 1 ≤ k.2 ≤ 13) standard_keys).
  { apply (bool_decide_eq_true_1 (Forall _ standard_keys)). by vm_compute. }
  rewrite Forall_forall in H. intros Hc. exact (H _ Hc).
Qed.

Lemma new_game_cards_standard rng g r :
  (∀ l, rng l ≡ₚ l) →
  r ∈ all_cards (new_game rng g).2 →
  card_key (card_at (new_game rng g).2 r) ∈ standard_keys.
Proof.
  intros Hrng. rewrite new_game_unfold.
  destruct (alloc_all_spec standard_cards (store g)) as [Hcs Hobj].
  rewrite standard_cards_length in Hcs. rewrite Hcs.
  set (D := rng (seq (next_ref (store g)) 52)).
  set (h := (alloc_all standard_cards (store g)).2) in *.
  assert (HD : D ≡ₚ seq (next_ref (store g)) 52) by apply Hrng.
  assert (Hlen : length D = 52%nat) by (by rewrite HD, length_seq).
  cbv zeta.
  destruct (deal_eval D h true (Z.of_nat (length (seq (next_ref (store g)) 52))) Hlen)
    as (Htab & Hstock & _ & Hstore & Hfound & Hwaste & _).
  set (g2 := fill_stock _ _) in *. cbn [fst snd].
  destruct (columns_cover D Hlen) as [Hcover _].
  assert (Hall : all_cards g2 = D).
  { unfold all_cards. rewrite Htab, Hfound, Hstock, Hwaste, empty_foundations_cards.
    rewrite !app_nil_r. exact Hcover. }
  rewrite Hall. intros Hr. rewrite HD in Hr. apply elem_of_seq in Hr.
  destruct (lookup_lt_is_Some_2 standard_cards (r - next_ref (store g))) as [c Hc].
  { rewrite standard_cards_length. lia. }
  assert (Hcr : objects h r = c).
  { rewrite <- (Hobj _ _ Hc). f_equal. lia. }
  assert (Hkey : card_key (card_at g2 r) = card_key c).
  { unfold card_at. rewrite Hstore, turn_up_spec, Hcr. by case_bool_decide. }
  rewrite Hkey, <- standard_cards_keys. apply list_elem_of_fmap.
  exists c. split; [done|]. by eapply list_elem_of_lookup_2.
Qed.

Lemma elem_of_concat_2 {A} (x : A) (ls : list (list A)) l :
  l ∈ ls → x ∈ l → x ∈ concat ls.
Proof.
  intros Hl Hx. induction ls as [|l' ls IH]; [by apply elem_of_nil in Hl|].
  simpl. apply elem_of_app. apply elem_of_cons in Hl as [->|Hl]; auto.
Qed.

Lemma pile_cards_in_game g location p r :
  get_pile g location = Ok (Some p) → r ∈ pile_cards g p → r ∈ all_cards g.
Proof.
  unfold get_pile, all_cards. intros Hp Hr.
  repeat case_match; simplify_eq; simpl in Hr.
  - match goal with H : tableau g !! _ = Some _ |- _ => rewrite H in Hr end.
    simpl in Hr. apply elem_of_app. left.
    eapply elem_of_concat_2; [|exact Hr]. by eapply list_elem_of_lookup_2.
  - match goal with H : foundations g !! _ = Some _ |- _ =>
      rewrite H in Hr; simpl in Hr;
      apply elem_of_map_to_list in H
    end.
    apply elem_of_app. right. apply elem_of_app. left.
    eapply elem_of_concat_2; [|exact Hr].
    apply list_elem_of_fmap. eexists (_, _). split; [|done]. done.
  - rewrite !elem_of_app. auto.
  - rewrite !elem_of_app. auto.
Qed.

(** A move brings no card into the game that was not in it. *)
Lemma move_card_no_new_card g from_location to_location card_index resp g' r :
  move_card g from_location to_location card_index = Ok (resp, g') →
  r ∈ all_cards g' → r ∈ all_cards g.
Proof.
  intros Hmove Hr. destruct (success resp) eqn:Hok.
  2:{ by destruct (move_card_failure_inv _ _ _ _ _ _ Hmove Hok) as [-> _]. }
  destruct (move_card_success_inv _ _ _ _ _ _ Hmove Hok)
    as (fp & tp & i & card & moved & rest & _ & _ & Hfp & Htp & Hsel & _).
  pose proof (move_card_accounting _ _ _ _ _ _ _ _ _ _ Hmove Hok Hfp Htp Hsel)
    as Hacc. cbv zeta in Hacc.
  assert (Hin : r ∈ all_cards g' ++ (if is_copy fp then [] else
                  if PyStr.contains "foundation" to_location
                  then [card] else drop i (pile_cards g fp)))
    by (apply elem_of_app; by left).
  rewrite Hacc in Hin. apply elem_of_app in Hin as [Hin|Hin]; [done|].
  apply (pile_cards_in_game g from_location fp r Hfp).
  destruct Hsel as (Hcard & _).
  destruct (is_copy tp); [by apply elem_of_nil in Hin|].
  destruct (PyStr.contains "foundation" to_location).
  - apply list_elem_of_singleton in Hin as ->. by eapply list_elem_of_lookup_2.
  - apply list_elem_of_lookup in Hin as [j Hj]. rewrite lookup_drop in Hj.
    by eapply list_elem_of_lookup_2.
Qed.

Lemma reachable_standard g r :
  reachable g → r ∈ all_cards g → card_key (card_at g r) ∈ standard_keys.
Proof.
  intros Hg. revert r.
  induction Hg as [rng g Hrng|g Hg IH|g fl tl ci resp g' Hg IH Hmove]; intros r Hr.
  - by apply new_game_cards_standard.
  - rewrite draw_from_stock_card_key. apply IH.
    by rewrite <- (draw_from_stock_all_cards g).
  - rewrite (move_card_card_key _ _ _ _ _ _ r Hmove). apply IH.
    by eapply move_card_no_new_card.
Qed.

(** X21: in every state of a game, every card of the engine is one of
    the 52 standard cards, however often it occurs, so the game can be
    saved and loaded: [from_dict] on the dict of [to_dict] returns an
    engine that has the same dict and shows the same state. *)
Theorem reachable_game_round_trip g :
  reachable g →
  Forall (λ r, valid_card (card_at g r)) (engine_cards g)
  ∧ ∃ g',
      game_from_dict (game_to_dict SUITS g) (store g) = Ok g'
      ∧ game_to_dict SUITS g' = game_to_dict SUITS g
      ∧ get_game_state g' = get_game_state g.
Proof.
  intros Hg.
  assert (Hvalid : Forall (λ r, valid_card (card_at g r)) (engine_cards g)).
  { unfold engine_cards. rewrite (reachable_deck g Hg). simpl.
    apply Forall_forall. intros r Hr.
    by apply standard_keys_valid, reachable_standard. }
  split; [done|].
  destruct (game_from_dict_to_dict SUITS g) as [Hok _].
  - apply (bool_decide_eq_true_1 (NoDup SUITS)). by vm_compute.
  - intros k. symmetry. by apply reachable_shape.
  - destruct (Hok Hvalid) as (g' & Hload & Hdict & Hstate & _). eauto.
Qed.

(** The game with the ace of hearts in two piles is saved and loaded. *)
Lemma reachable_game_round_trip_ace :
  ∃ g',
    game_from_dict (game_to_dict SUITS ace_moved_game) (store ace_moved_game) = Ok g'
    ∧ get_game_state g' = get_game_state ace_moved_game.
Proof.
  destruct (reachable_game_round_trip ace_moved_game reachable_ace_moved_game)
    as (_ & g' & Hload & _ & Hstate).
  exists g'. split; [exact Hload|exact Hstate].
Defined.
